(** * Redundant array removal (dace/transformation/dataflow/redundant_array.py)

    A shallow embedding of the two rewrite rules [RedundantArray] (the
    forward rule: the first of two chained data nodes is removed) and
    [RedundantSecondArray] (the backward rule: the second one is removed),
    together with the part of the graph and region libraries they call.

    Python objects are embedded as follows.
    - Exceptions: a computation that may raise has type [result A].
    - Graph nodes and edges are objects compared by identity: every node
      carries [nid], every edge [eid].  An edge owns its memlet and a memlet
      owns its regions (no two edges share a [Memlet] or a [Subset] object),
      so the in-place updates of the source become updates of the edge that
      is named by its identifier.  The two regions a rule reads from the
      connecting edge are read once; that edge enters the node to be removed
      and is not among the edges the loop of [apply] updates.
    - [graph.nodes()] is a list, indexed by the integers a candidate holds.
    - Extents and coordinates are integers ([Z]); symbolic sizes are not part
      of the embedding. *)

From stdpp Require Import base numbers list gmap strings.

Local Open Scope Z_scope.

(** ** Exceptions *)

Inductive exn : Type :=
  | IndexError          (* sequence index out of range *)
  | KeyError            (* missing dictionary key *)
  | AttributeError      (* attribute or method of [None], or of a wrong node class *)
  | DimensionMismatch.  (* region operation on regions of different rank *)

Inductive result (A : Type) : Type :=
  | Ok (a : A)
  | Raise (e : exn).
Arguments Ok {A} a.
Arguments Raise {A} e.

(** [result] is a monad; the sequencing notation [x ← m; k] is stdpp's. *)
#[global] Instance result_ret : MRet result := λ A a, Ok a.
#[global] Instance result_bind : MBind result := λ A B k m,
  match m with
  | Ok a => k a
  | Raise e => Raise e
  end.

(** [l[i]] on a Python list, for a non-negative [i]. *)
Definition getitem {A} (l : list A) (i : nat) : result A :=
  match l !! i with
  | Some a => Ok a
  | None => Raise IndexError
  end.

(** Access to an attribute of a possibly-[None] object. *)
Definition attr {A} (o : option A) : result A :=
  match o with
  | Some a => Ok a
  | None => Raise AttributeError
  end.

(** A loop that threads a state through a list and stops at the first
    exception. *)
Fixpoint foldM {A S} (f : S → A → result S) (l : list A) (s : S) : result S :=
  match l with
  | [] => Ok s
  | a :: l' => s' ← f s a; foldM f l' s'
  end.

(** ** Regions ([dace.subsets]) *)

Module subsets.

(** Modelled from the spec: one dimension of a [Range], "a strided
    interval per dimension": the positions [rb, rb + rs, rb + 2 rs, ...] up
    to and including [re].  The slice [a:b] of the tests and comments is
    [(a, b-1, 1)]. *)
Record dim : Type := Dim { rb : Z; re : Z; rs : Z }.

(** Modelled from the spec: [dace.subsets] (the classes [Range] and
    [Indices] and their methods [size], [num_elements], [offset],
    [covers], [compose]) is imported by the rules but is not among the
    sources.  Section 3 and 4.1 of the specification give the two variants
    and the contracts followed below. *)
Inductive Subset : Type :=
  | Range (ranges : list dim)
  | Indices (indices : list Z).

Definition dims (s : Subset) : nat :=
  match s with
  | Range r => length r
  | Indices i => length i
  end.

Definition isinstance_Indices (s : Subset) : bool :=
  match s with
  | Indices _ => true
  | Range _ => false
  end.

(** Modelled from the spec: the lower and the upper bound of a region in
    every dimension; a point is its own bounds. *)
Definition min_element (s : Subset) : list Z :=
  match s with
  | Range r => rb <$> r
  | Indices i => i
  end.

Definition max_element (s : Subset) : list Z :=
  match s with
  | Range r => re <$> r
  | Indices i => i
  end.

(** Modelled from the spec: per-dimension size of a region; the number of
    points of the strided interval, [1] per dimension for a point. *)
Definition dim_size (d : dim) : Z := (re d - rb d) `div` rs d + 1.

Definition size (s : Subset) : list Z :=
  match s with
  | Range r => dim_size <$> r
  | Indices i => (λ _, 1) <$> i
  end.

Definition prod (sequence : list Z) : Z := foldl Z.mul 1 sequence.

(** Modelled from the spec: "product of per-dimension sizes; for Indices,
    always 1". *)
Definition num_elements (s : Subset) : Z :=
  match s with
  | Range r => prod (dim_size <$> r)
  | Indices _ => 1
  end.

Definition shift_dim (off : Z) (d : dim) : dim :=
  Dim (rb d + off) (re d + off) (rs d).

(** Modelled from the spec: "translate every dimension of region by the
    corresponding lower bound of reference (subtracted if negative true,
    added otherwise).  Fails if dimensionalities mismatch."  The source
    calls it as the in-place method [region.offset(reference, negative)];
    the translated region is returned here and stored by the caller. *)
Definition offset (s other : Subset) (negative : bool) : result Subset :=
  if bool_decide (dims s = dims other) then
    let off := (λ o, if negative then - o else o) <$> min_element other in
    Ok match s with
       | Range r => Range (zip_with shift_dim off r)
       | Indices i => Indices (zip_with Z.add off i)
       end
  else Raise DimensionMismatch.

Definition within (lo hi x : Z) : bool :=
  bool_decide (lo ≤ x) && bool_decide (x ≤ hi).

(** Modelled from the spec: "true iff b is entirely contained in a
    dimension-wise (every lower/upper bound of b lies within a's bounds in
    that dimension); requires equal dimensionality". *)
Definition covers (a b : Subset) : result bool :=
  if bool_decide (dims a = dims b) then
    let bounds := zip (min_element a) (max_element a) in
    Ok (forallb (λ '((lo, hi), x), within lo hi x) (zip bounds (min_element b)) &&
        forallb (λ '((lo, hi), x), within lo hi x) (zip bounds (max_element b)))
  else Raise DimensionMismatch.

(** Modelled from the spec: "for Range composition each bound of inner is
    added to the corresponding lower bound of outer"; "for Indices,
    composition degenerates to an additive offset".  The step of [inner]
    is kept. *)
Definition compose (outer inner : Subset) : result Subset :=
  if bool_decide (dims outer = dims inner) then
    Ok match inner with
       | Range r => Range (zip_with shift_dim (min_element outer) r)
       | Indices i => Indices (zip_with Z.add (min_element outer) i)
       end
  else Raise DimensionMismatch.

End subsets.
Export subsets.

(** ** Container descriptors ([dace.data]) *)

(** Modelled from the spec: the storage classes are an enumeration owned by
    a collaborator; the rules only compare them.  [Default] and [GPU_Global]
    are the two the tests use. *)
Inductive StorageType : Type :=
  | Default
  | Register
  | CPU_Heap
  | GPU_Global
  | GPU_Shared.

#[global] Instance StorageType_eq_dec : EqDecision StorageType.
Proof. solve_decision. Defined.

(** Modelled from the spec: the concrete container kind, "e.g. both dense
    arrays, or both stream buffers"; it is what [type(desc)] returns. *)
Inductive DataClass : Type :=
  | Array
  | Stream
  | Scalar.

#[global] Instance DataClass_eq_dec : EqDecision DataClass.
Proof. solve_decision. Defined.

(** Modelled from the spec: a container descriptor has a shape, a storage
    class, a transient flag, and a concrete kind.  Descriptors are objects;
    [desc_id] is the identity of the object, which is what [==] compares
    (section 9 of the specification: "Whole-program occurrence scan via
    object-identity equality of descriptors"). *)
Record Data : Type := {
  desc_id : nat;
  type : DataClass;
  shape : list Z;
  storage : StorageType;
  transient : bool;
}.

Definition desc_eqb (a b : Data) : bool := bool_decide (desc_id a = desc_id b).

(** ** Nodes, memlets, edges, states ([dace.sdfg], [dace.memlet]) *)

(** Modelled from the spec: "nodes are either data nodes (named container
    reference) or compute/control nodes (opaque to this core)".  A node is an
    object; [nid] is its identity. *)
Inductive Node : Type :=
  | AccessNode (nid : nat) (data : string)
  | CodeNode (nid : nat).

Definition nid (n : Node) : nat :=
  match n with
  | AccessNode i _ => i
  | CodeNode i => i
  end.

Definition isinstance_AccessNode (n : Node) : bool :=
  match n with
  | AccessNode _ _ => true
  | CodeNode _ => false
  end.

(** [n.data]: only data nodes have the attribute. *)
Definition node_data (n : Node) : result string :=
  match n with
  | AccessNode _ d => Ok d
  | CodeNode _ => Raise AttributeError
  end.

(** Modelled from the spec: the region descriptor of an edge, which "carries
    container_name, subset (region on container_name), and optionally
    other_subset (region on the other endpoint's container)". *)
Record Memlet : Type := {
  data : string;
  subset : option Subset;
  other_subset : option Subset;
}.

Definition set_data (d : string) (m : Memlet) : Memlet :=
  {| data := d; subset := subset m; other_subset := other_subset m |}.
Definition set_subset (s : Subset) (m : Memlet) : Memlet :=
  {| data := data m; subset := Some s; other_subset := other_subset m |}.
Definition set_other_subset (s : Subset) (m : Memlet) : Memlet :=
  {| data := data m; subset := subset m; other_subset := Some s |}.

(** Modelled from the spec: an edge of the multigraph, an object with
    identity [eid].  [src] and [dst] are the identities of the end nodes;
    [edata] is the attribute [e.data] of the source (renamed because a memlet
    has an attribute [data] of its own). *)
Record Edge : Type := {
  eid : nat;
  src : nat;
  src_conn : option string;
  dst : nat;
  dst_conn : option string;
  edata : Memlet;
}.

Definition set_edata (m : Memlet) (e : Edge) : Edge :=
  {| eid := eid e; src := src e; src_conn := src_conn e;
     dst := dst e; dst_conn := dst_conn e; edata := m |}.

(** Modelled from the spec: one state, "a directed multigraph per program
    state".  [nodes] is the list [graph.nodes()] that a candidate indexes. *)
Record SDFGState : Type := {
  nodes : list Node;
  edges : list Edge;
}.

(** Modelled from the spec: the whole program, its states ([sdfg.nodes()])
    and the container registry ([sdfg.arrays]), a map from container names
    to descriptors. *)
Record SDFG : Type := {
  states : list SDFGState;
  arrays : gmap string Data;
}.

(** Modelled from the spec: [node.desc(sdfg)], the descriptor the registry
    holds under the name of a data node ([sdfg.arrays[node.data]]). *)
Definition desc (n : Node) (sdfg : SDFG) : result Data :=
  d ← node_data n;
  match arrays sdfg !! d with
  | Some a => Ok a
  | None => Raise KeyError
  end.

(** *** The graph interface

    The graph class is a collaborator that is not among the sources (section
    6 of the specification: [out_edges], [in_edges], [edges_between],
    [remove_edge], [add_edge], [remove_node]).  Nodes and edges are compared
    by identity and edge lists come in the order of the graph. *)

(** Modelled from the spec: the edges that leave a node. *)
Definition out_edges (g : SDFGState) (n : Node) : list Edge :=
  filter (λ e, src e = nid n) (edges g).

(** Modelled from the spec: the edges that enter a node. *)
Definition in_edges (g : SDFGState) (n : Node) : list Edge :=
  filter (λ e, dst e = nid n) (edges g).

(** Modelled from the spec: the edges from [u] to [v]. *)
Definition edges_between (g : SDFGState) (u v : Node) : list Edge :=
  filter (λ e, src e = nid u ∧ dst e = nid v) (edges g).

(** Modelled from the spec: the number of edges that leave, and that enter,
    a node. *)
Definition out_degree (g : SDFGState) (n : Node) : nat := length (out_edges g n).
Definition in_degree (g : SDFGState) (n : Node) : nat := length (in_edges g n).

(** Modelled from the spec: [graph.remove_edge(e)] takes the edge object [e]
    out of the graph. *)
Definition remove_edge (g : SDFGState) (e : Edge) : SDFGState :=
  {| nodes := nodes g; edges := filter (λ e', eid e' ≠ eid e) (edges g) |}.

(** The identity of a newly created edge object: one no edge of the graph
    has. *)
Definition fresh_eid (g : SDFGState) : nat := S (max_list (eid <$> edges g)).

(** Modelled from the spec: [graph.add_edge(u, u_conn, v, v_conn, memlet)]
    creates a new edge object, last in the order of the graph. *)
Definition add_edge (g : SDFGState) (u : nat) (u_conn : option string)
    (v : nat) (v_conn : option string) (m : Memlet) : SDFGState :=
  {| nodes := nodes g;
     edges := edges g ++ [ {| eid := fresh_eid g; src := u; src_conn := u_conn;
                              dst := v; dst_conn := v_conn; edata := m |} ] |}.

(** Modelled from the spec: [graph.remove_node(n)] takes the node out of
    the graph, and with it the edges that touch it. *)
Definition remove_node (g : SDFGState) (n : Node) : SDFGState :=
  {| nodes := filter (λ n', nid n' ≠ nid n) (nodes g);
     edges := filter (λ e, src e ≠ nid n ∧ dst e ≠ nid n) (edges g) |}.

(** The edge object [pe], as the graph holds it now. *)
Definition find_edge (g : SDFGState) (i : nat) : option Edge :=
  head (filter (λ e, eid e = i) (edges g)).

(** An in-place update of the memlet of the edge with identity [i]. *)
Definition update_memlet (g : SDFGState) (i : nat) (m : Memlet) : SDFGState :=
  {| nodes := nodes g;
     edges := (λ e, if bool_decide (eid e = i) then set_edata m e else e) <$> edges g |}.

(** Modelled from the spec: [memlet_path(edge)] is the "ordered edge
    sequence from true source to true sink" and [memlet_tree(edge)] the
    "edge set reachable forward from edge through scope nodes".  Both belong
    to the graph collaborator and are not among the sources; the rules are
    embedded over any implementation.  The edges are returned by
    identity. *)
Class GraphPaths : Type := {
  memlet_path : SDFGState → Edge → list nat;
  memlet_tree : SDFGState → Edge → list nat;
}.

(** In a state without scope nodes a path or tree is the edge itself: this
    is the case of every graph of tests/transformations/redundant_copy_test.py. *)
Definition scope_free : GraphPaths :=
  {| memlet_path := λ _ e, [eid e]; memlet_tree := λ _ e, [eid e] |}.

(** ** Rule plumbing ([dace.transformation.transformation], [dace.config]) *)

(** The two pattern nodes of a rule, the keys of a candidate. *)
Inductive Role : Type :=
  | _in_array
  | _out_array.

(** A rule instance: the state it was matched in and the match itself
    ([self.state_id], [self.subgraph]). *)
Record Transformation : Type := {
  state_id : nat;
  subgraph : Role → nat;
}.

(** [Config.get_bool("debugprint")]. *)
Record Config : Type := { debugprint : bool }.

(** The class attributes [RedundantArray._arrays_removed] and
    [RedundantSecondArray._arrays_removed]. *)
Record Counters : Type := {
  RedundantArray_arrays_removed : Z;
  RedundantSecondArray_arrays_removed : Z;
}.

(** The pattern of both rules, [node_path_graph(_in_array, _out_array)]: a
    path of two data nodes. *)
Definition expressions : list (list Role) := [[_in_array; _out_array]].

(** The position in [graph.nodes()] of the node with identity [i]. *)
Definition index_of (g : SDFGState) (i : nat) : option (nat * Node) :=
  list_find (λ n, nid n = i) (nodes g).

(** Modelled from the spec: the matcher is not among the sources.  Section
    4.2: "for every edge in the graph whose endpoints' types satisfy the
    template's role type constraints, yield a candidate binding the two roles
    to the two endpoints".  A candidate binds a role to the position of the
    node in [graph.nodes()]; both roles of the pattern are data nodes. *)
Definition match_edge (g : SDFGState) (e : Edge) : option (Role → nat) :=
  match index_of g (src e), index_of g (dst e) with
  | Some (i, AccessNode _ _), Some (j, AccessNode _ _) =>
      Some (λ r, match r with _in_array => i | _out_array => j end)
  | _, _ => None
  end.

Definition match_pattern (g : SDFGState) : list (Role → nat) :=
  omap (match_edge g) (edges g).

(** The occurrence scan both rules run:
    [[n for n in state.nodes()
        if isinstance(n, nodes.AccessNode) and n.desc(sdfg) == d]]
    collected over every state of the program. *)
Fixpoint matching_nodes (sdfg : SDFG) (d : Data) (ns : list Node) : result (list Node) :=
  match ns with
  | [] => Ok []
  | n :: ns' =>
      keep ← (if isinstance_AccessNode n
              then d' ← desc n sdfg; Ok (desc_eqb d' d)
              else Ok false);
      rest ← matching_nodes sdfg d ns';
      Ok (if keep : bool then n :: rest else rest)
  end.

Definition find_occurrences (sdfg : SDFG) (d : Data) : result (list Node) :=
  foldM (λ occurrences state,
           found ← matching_nodes sdfg d (nodes state);
           Ok (occurrences ++ found))
        (states sdfg) [].

(** [graph.remove_edge(e)] followed by [graph.add_edge(u, ..., v, ..., e.data)]:
    [e.data] is the memlet object of [e], with the updates made so far. *)
Definition current_memlet (g : SDFGState) (e : Edge) : Memlet :=
  match find_edge g (eid e) with
  | Some e' => edata e'
  | None => edata e
  end.

Definition set_state (sdfg : SDFG) (i : nat) (g : SDFGState) : SDFG :=
  {| states := <[i := g]> (states sdfg); arrays := arrays sdfg |}.

(** ** The forward rule *)

Module RedundantArray.

Definition can_be_applied (graph : SDFGState) (candidate : Role → nat)
    (expr_index : nat) (sdfg : SDFG) (strict : bool) : result bool :=
  in_array ← getitem (nodes graph) (candidate _in_array);
  out_array ← getitem (nodes graph) (candidate _out_array);
  in_desc ← desc in_array sdfg;
  out_desc ← desc out_array sdfg;
  (* Ensure out degree is one (only one target, which is out_array) *)
  if bool_decide (out_degree graph in_array ≠ 1%nat) then Ok false else
  (* Make sure that the candidate is a transient variable *)
  if negb (transient in_desc) then Ok false else
  (* Same storage location and same type *)
  if bool_decide (storage in_desc ≠ storage out_desc) then Ok false else
  if bool_decide (type in_desc ≠ type out_desc) then Ok false else
  (* Find occurrences in this and other states *)
  occurrences ← find_occurrences sdfg in_desc;
  if bool_decide (1 < length occurrences)%nat then Ok false else
  (* Only apply if arrays are of same shape *)
  if bool_decide (length (shape in_desc) ≠ length (shape out_desc))
     || existsb (λ '(i, o), bool_decide (i ≠ o)) (zip (shape in_desc) (shape out_desc))
  then Ok false else
  if strict then
    (* In strict mode, make sure the memlet covers the removed array *)
    edge ← getitem (edges_between graph in_array out_array) 0;
    subset ← attr (subset (edata edge));
    if existsb (λ '(m, a), bool_decide (m ≠ a)) (zip (size subset) (shape in_desc))
    then Ok false
    else Ok true
  else Ok true.

(** [str(node)] is the graph library's [__str__]; it is a parameter. *)
Definition match_to_str (str : Node → string) (graph : SDFGState) (candidate : Role → nat)
    : result string :=
  in_array ← getitem (nodes graph) (candidate _in_array);
  Ok ("Remove " +:+ str in_array).

Section apply.
Context `{GraphPaths}.

(** [if pe.data.data == in_array.data: pe.data.data = out_array.data] *)
Definition rename_edge (in_array out_array : Node) (graph : SDFGState) (pe : nat)
    : result SDFGState :=
  match find_edge graph pe with
  | None => Ok graph
  | Some e =>
      in_data ← node_data in_array;
      if bool_decide (data (edata e) = in_data) then
        out_data ← node_data out_array;
        Ok (update_memlet graph pe (set_data out_data (edata e)))
      else Ok graph
  end.

(** The body of the loop over [graph.in_edges(in_array)]. *)
Definition redirect_in_edge (in_array out_array : Node) (graph : SDFGState) (e : Edge)
    : result SDFGState :=
  (* Modify all incoming edges to point to out_array *)
  graph ← foldM (rename_edge in_array out_array) (memlet_path graph e) graph;
  (* Redirect edge to out_array *)
  let m := current_memlet graph e in
  let graph := remove_edge graph e in
  Ok (add_edge graph (src e) (src_conn e) (nid out_array) (dst_conn e) m).

Definition apply (self : Transformation) (config : Config)
    (sdfg : SDFG) (removed : Counters) : result (SDFG * Counters) :=
  graph ← getitem (states sdfg) (state_id self);
  in_array ← getitem (nodes graph) (subgraph self _in_array);
  out_array ← getitem (nodes graph) (subgraph self _out_array);
  graph ← foldM (redirect_in_edge in_array out_array) (in_edges graph in_array) graph;
  (* Finally, remove in_array node *)
  let graph := remove_node graph in_array in
  Ok (set_state sdfg (state_id self) graph,
      if debugprint config
      then {| RedundantArray_arrays_removed := RedundantArray_arrays_removed removed + 1;
              RedundantSecondArray_arrays_removed := RedundantSecondArray_arrays_removed removed |}
      else removed).

End apply.

End RedundantArray.

(** ** The backward rule *)

Module RedundantSecondArray.

(** "Extract the input (first) and output (second) array subsets": the
    same lines open the coverage check of [can_be_applied] and [apply].
    [not region] holds of an absent region ([None]). *)
Definition extract_subsets (graph : SDFGState) (in_array out_array : Node)
    : result (Subset * Subset) :=
  edge ← getitem (edges_between graph in_array out_array) 0;
  let memlet := edata edge in
  in_data ← node_data in_array;
  let '(inp_subset, out_subset) :=
    if bool_decide (data memlet = in_data)
    then (subset memlet, other_subset memlet)
    else (other_subset memlet, subset memlet) in
  inp_subset ← match inp_subset with
               | Some s => Ok s
               | None => s ← attr out_subset; offset s s true
               end;
  out_subset ← match out_subset with
               | Some s => Ok s
               | None => offset inp_subset inp_subset true
               end;
  Ok (inp_subset, out_subset).

(** "3a. Extract the output edge subset".  In the last branch the source
    copies [e.data.other_subset], which is [None] there, and calls
    [offset] on the copy. *)
Definition out_edge_subset (out_array : Node) (e : Edge) : result (option Subset) :=
  out_data ← node_data out_array;
  if bool_decide (data (edata e) = out_data) then Ok (subset (edata e))
  else match other_subset (edata e) with
       | Some s => Ok (Some s)
       | None => s ← attr (other_subset (edata e)); s' ← offset s s true; Ok (Some s')
       end.

(** "3. Check each output edge of the second array" *)
Fixpoint check_out_edges (out_array : Node) (out_subset : Subset) (es : list Edge)
    : result bool :=
  match es with
  | [] => Ok true
  | e :: es' =>
      subset ← out_edge_subset out_array e;
      subset ← attr subset;
      covered ← covers out_subset subset;
      if negb covered then Ok false
      else check_out_edges out_array out_subset es'
  end.

Definition can_be_applied (graph : SDFGState) (candidate : Role → nat)
    (expr_index : nat) (sdfg : SDFG) (strict : bool) : result bool :=
  in_array ← getitem (nodes graph) (candidate _in_array);
  out_array ← getitem (nodes graph) (candidate _out_array);
  in_desc ← desc in_array sdfg;
  out_desc ← desc out_array sdfg;
  (* Ensure in degree is one (only one source, which is in_array) *)
  if bool_decide (in_degree graph out_array ≠ 1%nat) then Ok false else
  (* Make sure that the candidate is a transient variable *)
  if negb (transient out_desc) then Ok false else
  (* Same storage location and same type *)
  if bool_decide (storage in_desc ≠ storage out_desc) then Ok false else
  if bool_decide (type in_desc ≠ type out_desc) then Ok false else
  (* Find occurrences in this and other states *)
  occurrences ← find_occurrences sdfg out_desc;
  if bool_decide (1 < length occurrences)%nat then Ok false else
  (* 1. Extract the input (first) and output (second) array subsets. *)
  '(inp_subset, out_subset) ← extract_subsets graph in_array out_array;
  (* 2. If the data copied from the first array are equal in size
     to the second array, then all subsets are covered. *)
  if bool_decide (num_elements inp_subset = prod (shape out_desc)) then Ok true else
  (* 3. Check each output edge of the second array *)
  check_out_edges out_array out_subset (out_edges graph out_array).

(** [str(node)] is the graph library's [__str__]; it is a parameter. *)
Definition match_to_str (str : Node → string) (graph : SDFGState) (candidate : Role → nat)
    : result string :=
  out_array ← getitem (nodes graph) (candidate _out_array);
  Ok ("Remove " +:+ str out_array).

(** The region of a migrated edge: "(c+d) - (c:c+b) = (d)", then
    "(0, a:b)(d) = (0, a+d) (or offset for indices)". *)
Definition migrate_subset (inp_subset out_subset subset : Subset) : result Subset :=
  subset ← offset subset out_subset true;
  if isinstance_Indices inp_subset
  then offset inp_subset subset false
  else compose inp_subset subset.

Section apply.
Context `{GraphPaths}.

(** The body of the loop over the memlet tree of an outgoing edge. *)
Definition migrate_edge (in_array out_array : Node) (inp_subset out_subset : Subset)
    (graph : SDFGState) (pe : nat) : result SDFGState :=
  match find_edge graph pe with
  | None => Ok graph
  | Some e =>
      let m := edata e in
      out_data ← node_data out_array;
      if bool_decide (data m = out_data) then
        in_data ← node_data in_array;
        subset ← attr (subset m);
        subset ← migrate_subset inp_subset out_subset subset;
        Ok (update_memlet graph pe (set_subset subset (set_data in_data m)))
      else
        match other_subset m with
        | Some subset =>
            (* We do the same, but for other_subset; the data is kept *)
            subset ← migrate_subset inp_subset out_subset subset;
            Ok (update_memlet graph pe (set_other_subset subset m))
        | None =>
            (* The subset is the entirety of the out array *)
            Ok graph
        end
  end.

(** The body of the loop over [graph.out_edges(out_array)]. *)
Definition redirect_out_edge (in_array out_array : Node) (inp_subset out_subset : Subset)
    (graph : SDFGState) (e : Edge) : result SDFGState :=
  (* Modify all outgoing edges to point to in_array *)
  graph ← foldM (migrate_edge in_array out_array inp_subset out_subset)
                (memlet_tree graph e) graph;
  (* Redirect edge to out_array *)
  let m := current_memlet graph e in
  let graph := remove_edge graph e in
  Ok (add_edge graph (nid in_array) (src_conn e) (dst e) (dst_conn e) m).

Definition apply (self : Transformation) (config : Config)
    (sdfg : SDFG) (removed : Counters) : result (SDFG * Counters) :=
  graph ← getitem (states sdfg) (state_id self);
  in_array ← getitem (nodes graph) (subgraph self _in_array);
  out_array ← getitem (nodes graph) (subgraph self _out_array);
  (* Extract the input (first) and output (second) array subsets. *)
  '(inp_subset, out_subset) ← extract_subsets graph in_array out_array;
  graph ← foldM (redirect_out_edge in_array out_array inp_subset out_subset)
                (out_edges graph out_array) graph;
  (* Finally, remove out_array node *)
  let graph := remove_node graph out_array in
  Ok (set_state sdfg (state_id self) graph,
      if debugprint config
      then {| RedundantArray_arrays_removed := RedundantArray_arrays_removed removed;
              RedundantSecondArray_arrays_removed := RedundantSecondArray_arrays_removed removed + 1 |}
      else removed).

End apply.

End RedundantSecondArray.

(** ** Well-formed programs and graphs *)

(** Every data node of every state names a registered container. *)
Definition registered (sdfg : SDFG) : bool :=
  forallb (λ state,
             forallb (λ n, match n with
                           | AccessNode _ d => bool_decide (is_Some (arrays sdfg !! d))
                           | CodeNode _ => true
                           end) (nodes state))
          (states sdfg).

(** Edges are distinct objects. *)
Definition distinct_edges (g : SDFGState) : Prop := NoDup (eid <$> edges g).

(** [i] is the identity of a data node of [g]. *)
Definition data_node (g : SDFGState) (i : nat) : Prop :=
  ∃ n, n ∈ nodes g ∧ nid n = i ∧ isinstance_AccessNode n = true.

(** What the specification says of a memlet tree: it is rooted at the edge
    it is asked for, and what is "reachable forward from the edge through
    scope nodes" leaves a scope node, not a data node. *)
Class TreeLaws `{GraphPaths} : Prop := {
  tree_root g e : ∃ rest, memlet_tree g e = eid e :: rest ∧ eid e ∉ rest;
  tree_inner g e i e' :
    i ∈ memlet_tree g e → i ≠ eid e → find_edge g i = Some e' → ¬ data_node g (src e');
}.

(** ** Regions of the worked example

    The comment in [RedundantSecondArray.apply]:
    [inp -- (a:a+b)/(c:c+b) --> out -- (c+d) --> other]. *)

(** The region [[lo, lo + len)] in every dimension. *)
Definition box (lo len : list Z) : Subset :=
  Range (zip_with (λ a b, Dim a (a + b - 1) 1) lo len).

(** [s] addresses the single position [p]. *)
Definition at_position (s : Subset) (p : list Z) : Prop :=
  min_element s = p ∧ max_element s = p.

(** ** The forward rule in the words of the specification

    Section 4.3: "for every inbound edge of the source node, walk its full
    path and rename every edge segment's container_name from source to
    destination wherever it currently names the source container; then
    redirect the inbound edge itself to terminate at the destination node
    instead of the source node; finally remove the source node from the
    graph." *)
Module forward_spec.

(** Every segment on [path] that names [source] names [destination]
    instead; nothing else changes. *)
Definition rename_segments (source destination : string) (path : list nat)
    (g : SDFGState) : SDFGState :=
  {| nodes := nodes g;
     edges := (λ e, if bool_decide (eid e ∈ path ∧ data (edata e) = source)
                    then set_edata (set_data destination (edata e)) e
                    else e) <$> edges g |}.

(** The edge [e] is replaced by a new edge with the same source endpoint,
    connectors and region descriptor that ends at [destination]. *)
Definition redirect (e : Edge) (destination : nat) (g : SDFGState) : SDFGState :=
  let kept := filter (λ e', eid e' ≠ eid e) (edges g) in
  {| nodes := nodes g;
     edges := kept ++
       ((λ e', {| eid := S (max_list (eid <$> kept));
                  src := src e; src_conn := src_conn e;
                  dst := destination; dst_conn := dst_conn e;
                  edata := edata e' |}) <$> filter (λ e', eid e' = eid e) (edges g)) |}.

Definition step `{GraphPaths} (source destination : string) (target : nat)
    (g : SDFGState) (e : Edge) : SDFGState :=
  redirect e target (rename_segments source destination (memlet_path g e) g).

(** The graph after the rule: the inbound edges of [in_array] are handled
    one after the other, then the node goes, and with it the edges that
    still touch it. *)
Definition apply `{GraphPaths} (g : SDFGState) (in_array out_array : Node)
    (source destination : string) : SDFGState :=
  let g' := foldl (step source destination (nid out_array)) g (in_edges g in_array) in
  {| nodes := filter (λ n, nid n ≠ nid in_array) (nodes g');
     edges := filter (λ e, src e ≠ nid in_array ∧ dst e ≠ nid in_array) (edges g') |}.

(** What is left of an edge when its identity is forgotten. *)
Definition strip (e : Edge) : nat * option string * nat * option string * Memlet :=
  (src e, src_conn e, dst e, dst_conn e, edata e).

(** An inbound edge once re-pointed: it ends at [destination], and names
    the destination container if it named the source container. *)
Definition retarget (source destination : string) (target : nat) (e : Edge) : Edge :=
  {| eid := eid e; src := src e; src_conn := src_conn e;
     dst := target; dst_conn := dst_conn e;
     edata := if bool_decide (data (edata e) = source)
              then set_data destination (edata e)
              else edata e |}.

End forward_spec.

(** ** The graphs of the tests, and variations of them *)

(** [Memlet.simple] and [add_edge] of the tests; [slice a b] is [a:b]. *)
Definition slice (a b : Z) : dim := Dim a (b - 1) 1.

Definition simple (d : string) (s : list dim) (other : option (list dim)) : Memlet :=
  {| data := d; subset := Some (Range s); other_subset := Range <$> other |}.

Definition edge (i u : nat) (u_conn : option string) (v : nat) (v_conn : option string)
    (m : Memlet) : Edge :=
  {| eid := i; src := u; src_conn := u_conn; dst := v; dst_conn := v_conn; edata := m |}.

Definition array (i : nat) (sh : list Z) (t : bool) : Data :=
  {| desc_id := i; type := Array; shape := sh; storage := Default; transient := t |}.

Definition bind_roles (i j : nat) : Role → nat :=
  λ r, match r with _in_array => i | _out_array => j end.

Definition no_removals : Counters :=
  {| RedundantArray_arrays_removed := 0; RedundantSecondArray_arrays_removed := 0 |}.

(** A chain of copies [A -> B -> C -> D] between arrays of shape [3, 3],
    [B] and [C] transient, every memlet covering its whole array. *)
Definition chain_arrays : gmap string Data :=
  <["A" := array 0 [3; 3] false]> (<["B" := array 1 [3; 3] true]>
  (<["C" := array 2 [3; 3] true]> (<["D" := array 3 [3; 3] false]> ∅))).

Definition chain_state : SDFGState :=
  {| nodes := [AccessNode 0 "A"; AccessNode 1 "B"; AccessNode 2 "C"; AccessNode 3 "D"];
     edges := [edge 0 0 None 1 None (simple "A" [slice 0 3; slice 0 3] None);
               edge 1 1 None 2 None (simple "B" [slice 0 3; slice 0 3] None);
               edge 2 2 None 3 None (simple "C" [slice 0 3; slice 0 3] None)] |}.

Definition chain : SDFG := {| states := [chain_state]; arrays := chain_arrays |}.

(** The same chain where the copy [B -> C] moves only two of the three rows. *)
Definition partial_chain_state : SDFGState :=
  {| nodes := nodes chain_state;
     edges := [edge 0 0 None 1 None (simple "A" [slice 0 3; slice 0 3] None);
               edge 1 1 None 2 None (simple "B" [slice 0 2; slice 0 3] None);
               edge 2 2 None 3 None (simple "C" [slice 0 3; slice 0 3] None)] |}.

Definition partial_chain : SDFG :=
  {| states := [partial_chain_state]; arrays := chain_arrays |}.

(** The same chain where the memlet of [B -> C] has a region of rank one,
    against the invariant of a region. *)
Definition low_rank_chain_state : SDFGState :=
  {| nodes := nodes chain_state;
     edges := [edge 0 0 None 1 None (simple "A" [slice 0 3; slice 0 3] None);
               edge 1 1 None 2 None (simple "B" [slice 0 3] None);
               edge 2 2 None 3 None (simple "C" [slice 0 3; slice 0 3] None)] |}.

Definition low_rank_chain : SDFG :=
  {| states := [low_rank_chain_state]; arrays := chain_arrays |}.

(** The chain with a second state that reads [B] and [C] again. *)
Definition reuse_state : SDFGState :=
  {| nodes := [AccessNode 0 "B"; AccessNode 1 "C"; AccessNode 2 "D"];
     edges := [edge 0 0 None 2 None (simple "B" [slice 0 3; slice 0 3] None)] |}.

Definition chain_reused : SDFG :=
  {| states := [chain_state; reuse_state]; arrays := chain_arrays |}.

(** [test_out_2]: [A[3,3]] is copied into the left half of the transient
    [C[3,6]], whose right half is read by a library node (node 2). *)
Definition out_2_arrays : gmap string Data :=
  <["A" := array 0 [3; 3] false]> (<["C" := array 1 [3; 6] true]>
  (<["D" := array 2 [3; 3] false]> ∅)).

Definition out_2_state : SDFGState :=
  {| nodes := [AccessNode 0 "A"; AccessNode 1 "C"; CodeNode 2; AccessNode 3 "D"];
     edges := [edge 0 0 None 1 None (simple "A" [slice 0 3; slice 0 3] None);
               edge 1 1 None 2 (Some "_inp") (simple "C" [slice 0 3; slice 3 6] None);
               edge 2 2 (Some "_out") 3 None (simple "D" [slice 0 3; slice 0 3] None)] |}.

Definition out_2 : SDFG := {| states := [out_2_state]; arrays := out_2_arrays |}.

(** [test_out_2] with a second reader: node 2 reads the left half of [C],
    which the copy fills, and node 4 the right half. *)
Definition two_readers_state : SDFGState :=
  {| nodes := [AccessNode 0 "A"; AccessNode 1 "C"; CodeNode 2; AccessNode 3 "D"; CodeNode 4];
     edges := [edge 0 0 None 1 None (simple "A" [slice 0 3; slice 0 3] None);
               edge 1 1 None 2 (Some "_inp") (simple "C" [slice 0 3; slice 0 3] None);
               edge 2 2 (Some "_out") 3 None (simple "D" [slice 0 3; slice 0 3] None);
               edge 3 1 None 4 (Some "_inp") (simple "C" [slice 0 3; slice 3 6] None)] |}.

Definition two_readers : SDFG :=
  {| states := [two_readers_state]; arrays := out_2_arrays |}.

(** [test_out_3]: the slice [A[1:5, 1:5]] is copied to [C[2:6, 2:6]], and
    [C[3:6, 2:5]] is read. *)
Definition out_3_arrays : gmap string Data :=
  <["A" := array 0 [5; 5] false]> (<["C" := array 1 [6; 6] true]>
  (<["D" := array 2 [3; 3] false]> ∅)).

Definition out_3_state : SDFGState :=
  {| nodes := [AccessNode 0 "A"; AccessNode 1 "C"; CodeNode 2; AccessNode 3 "D"];
     edges := [edge 0 0 None 1 None
                 (simple "A" [slice 1 5; slice 1 5] (Some [slice 2 6; slice 2 6]));
               edge 1 1 None 2 (Some "_inp") (simple "C" [slice 3 6; slice 2 5] None);
               edge 2 2 (Some "_out") 3 None (simple "D" [slice 0 3; slice 0 3] None)] |}.

Definition out_3 : SDFG := {| states := [out_3_state]; arrays := out_3_arrays |}.

(** [test_out_3] with a read of the single element [C[4, 3]] in place of the
    slice: the worked example with [a = (1, 1)], [b = (4, 4)], [c = (2, 2)],
    [d = (2, 1)]. *)
Definition element_state : SDFGState :=
  {| nodes := nodes out_3_state;
     edges := [edge 0 0 None 1 None
                 (simple "A" [slice 1 5; slice 1 5] (Some [slice 2 6; slice 2 6]));
               edge 1 1 None 2 (Some "_inp") (simple "C" [slice 4 5; slice 3 4] None);
               edge 2 2 (Some "_out") 3 None (simple "D" [slice 0 3; slice 0 3] None)] |}.

Definition element : SDFG := {| states := [element_state]; arrays := out_3_arrays |}.

(** [test_out_2] where [C] is copied on to [D] by an edge that names [D]
    and gives no region on the side of [C]. *)
Definition copy_out_state : SDFGState :=
  {| nodes := [AccessNode 0 "A"; AccessNode 1 "C"; AccessNode 2 "D"];
     edges := [edge 0 0 None 1 None (simple "A" [slice 0 3; slice 0 3] None);
               edge 1 1 None 2 None (simple "D" [slice 0 3; slice 0 3] None)] |}.

Definition copy_out : SDFG := {| states := [copy_out_state]; arrays := out_2_arrays |}.

(** ** Auxiliary definitions for the statements *)

(** The data nodes the occurrence scan keeps, when every lookup succeeds. *)
Definition is_occurrence (sdfg : SDFG) (d : Data) (n : Node) : bool :=
  match n with
  | AccessNode _ name =>
      match arrays sdfg !! name with
      | Some d' => desc_eqb d' d
      | None => false
      end
  | CodeNode _ => false
  end.

(** Running a check again on what [apply] left: the same candidate, the
    state the rule was applied in. *)
Definition recheck
    (can_be_applied : SDFGState → (Role → nat) → nat → SDFG → bool → result bool)
    (applied : result (SDFG * Counters)) (self : Transformation) (strict : bool)
    : result bool :=
  '(sdfg', _) ← applied;
  graph' ← getitem (states sdfg') (state_id self);
  can_be_applied graph' (subgraph self) 0%nat sdfg' strict.

(** The rule instance of a candidate in the first state. *)
Definition matched (i j : nat) : Transformation :=
  {| state_id := 0; subgraph := bind_roles i j |}.

(** The chain after the forward rule removed [B] ([_in_array] at position 1),
    and after the backward rule removed [B] ([_out_array] at position 1). *)
Definition chain_forward_state : SDFGState :=
  {| nodes := [AccessNode 0 "A"; AccessNode 2 "C"; AccessNode 3 "D"];
     edges := [edge 2 2 None 3 None (simple "C" [slice 0 3; slice 0 3] None);
               edge 3 0 None 2 None (simple "A" [slice 0 3; slice 0 3] None)] |}.

Definition chain_forward : SDFG :=
  {| states := [chain_forward_state]; arrays := chain_arrays |}.

Definition chain_backward : SDFG := chain_forward.

(** The single-element variant of [test_out_3] after the backward rule. *)
Definition element_backward_state : SDFGState :=
  {| nodes := [AccessNode 0 "A"; CodeNode 2; AccessNode 3 "D"];
     edges := [edge 2 2 (Some "_out") 3 None (simple "D" [slice 0 3; slice 0 3] None);
               edge 3 0 None 2 (Some "_inp") (simple "A" [slice 3 4; slice 2 3] None)] |}.

Definition element_backward : SDFG :=
  {| states := [element_backward_state]; arrays := out_3_arrays |}.

Definition debug (on : bool) : Config := {| debugprint := on |}.

(** The computation does not end in an [IndexError]. *)
Definition in_range {A} (r : result A) : Prop := r ≠ Raise IndexError.

(** ** Further definitions: what the checks decide, what [apply] leaves *)

(** The data nodes of the whole program whose descriptor is [d]: what the
    occurrence scan of both checks collects when every lookup succeeds. *)
Definition occurrences_of (sdfg : SDFG) (d : Data) : list Node :=
  concat ((λ state, filter (λ n, is_occurrence sdfg d n) (nodes state)) <$> states sdfg).

(** No edge dangles: both ends of every edge are nodes of the state. *)
Definition closed (g : SDFGState) : Prop :=
  ∀ e, e ∈ edges g → src e ∈ nid <$> nodes g ∧ dst e ∈ nid <$> nodes g.

(** Nodes are distinct objects. *)
Definition distinct_nodes (g : SDFGState) : Prop := NoDup (nid <$> nodes g).

(** A rendering of a node, to run [match_to_str] with: the container a data
    node names. *)
Definition node_name (n : Node) : string :=
  match n with
  | AccessNode _ d => d
  | CodeNode _ => "tasklet"
  end.

(** [test_out_3] after the backward rule: the read of [C[3:6, 2:5]] has
    become a read of [A[2:5, 1:4]]. *)
Definition out_3_backward_state : SDFGState :=
  {| nodes := [AccessNode 0 "A"; CodeNode 2; AccessNode 3 "D"];
     edges := [edge 2 2 (Some "_out") 3 None (simple "D" [slice 0 3; slice 0 3] None);
               edge 3 0 None 2 (Some "_inp") (simple "A" [slice 2 5; slice 1 4] None)] |}.

Definition out_3_backward : SDFG :=
  {| states := [out_3_backward_state]; arrays := out_3_arrays |}.

(** What an edge connects: its two endpoints and their connectors. *)
Definition endpoints (e : Edge) : nat * option string * nat * option string :=
  (src e, src_conn e, dst e, dst_conn e).

(** What an edge connects and the regions it moves: all of an edge but its
    identity and the container its memlet names. *)
Definition layout (e : Edge)
    : nat * option string * nat * option string * option Subset * option Subset :=
  (src e, src_conn e, dst e, dst_conn e, subset (edata e), other_subset (edata e)).

(** The edge [e] with another destination, and with another source. *)
Definition set_dst (v : nat) (e : Edge) : Edge :=
  {| eid := eid e; src := src e; src_conn := src_conn e;
     dst := v; dst_conn := dst_conn e; edata := edata e |}.

Definition set_src (u : nat) (e : Edge) : Edge :=
  {| eid := eid e; src := u; src_conn := src_conn e;
     dst := dst e; dst_conn := dst_conn e; edata := edata e |}.

(** The edge [e], taken from a list made earlier, is still in [g], with the
    view [π] it had. *)
Definition present {B} (π : Edge → B) (g : SDFGState) (e : Edge) : Prop :=
  ∃ e1, e1 ∈ edges g ∧ eid e1 = eid e ∧ π e1 = π e.

(** All of an edge but its identity. *)
Definition contents (e : Edge) : nat * option string * nat * option string * Memlet :=
  (src e, src_conn e, dst e, dst_conn e, edata e).

(** The inbound edge [e] as the forward rule re-creates it when the path of
    [e] is [e] alone: it ends at [target], and its memlet names
    [destination] if it named [source]. *)
Definition redirected (source destination : string) (target : nat) (e : Edge) : Edge :=
  {| eid := eid e; src := src e; src_conn := src_conn e;
     dst := target; dst_conn := dst_conn e;
     edata := if bool_decide (data (edata e) = source)
              then set_data destination (edata e)
              else edata e |}.

(** The memlet of a segment of a memlet tree as the loop body of the
    backward rule leaves it, for data nodes that name [in_data] and
    [out_data]: the three branches of the body. *)
Definition migrate_memlet (in_data out_data : string) (inp_subset out_subset : Subset)
    (m : Memlet) : result Memlet :=
  if bool_decide (data m = out_data) then
    subset ← attr (subset m);
    subset ← RedundantSecondArray.migrate_subset inp_subset out_subset subset;
    Ok (set_subset subset (set_data in_data m))
  else
    match other_subset m with
    | Some subset =>
        subset ← RedundantSecondArray.migrate_subset inp_subset out_subset subset;
        Ok (set_other_subset subset m)
    | None => Ok m
    end.

(** The outbound edge [e] as the backward rule re-creates it when the tree
    of [e] is [e] alone: it leaves the producer node with its memlet
    migrated. *)
Definition migrated (producer : nat) (in_data out_data : string)
    (inp_subset out_subset : Subset) (e : Edge) : result Edge :=
  m ← migrate_memlet in_data out_data inp_subset out_subset (edata e);
  Ok {| eid := eid e; src := producer; src_conn := src_conn e;
        dst := dst e; dst_conn := dst_conn e; edata := m |}.

(** * Properties *)

(** ** The result monad *)

Lemma bind_Ok {A B} (m : result A) (k : A → result B) (b : B) :
  m ≫= k = Ok b ↔ ∃ a, m = Ok a ∧ k a = Ok b.
Proof.
  destruct m as [a|e]; simpl; split.
  - intros Hk. by exists a.
  - by intros (a' & [= ->] & Hk).
  - intros [=].
  - by intros (a' & [=] & _).
Qed.

Lemma getitem_Ok {A} (l : list A) (i : nat) (a : A) :
  getitem l i = Ok a ↔ l !! i = Some a.
Proof. unfold getitem. destruct (l !! i); split; congruence. Qed.

Ltac inv_bind H :=
  repeat match type of H with
  | _ ≫= _ = Ok _ =>
      let x := fresh "x" in let Hx := fresh "H" x in
      apply bind_Ok in H as (x & Hx & H)
  | (let '(_, _) := ?p in _) = Ok _ => destruct p
  end.

Lemma foldM_Ok_ind {A S} (P : S → Prop) (f : S → A → result S) (l : list A) (s s' : S) :
  (∀ s a s', a ∈ l → P s → f s a = Ok s' → P s') →
  P s → foldM f l s = Ok s' → P s'.
Proof.
  revert s. induction l as [|a l IH]; simpl; intros s Hf Hs Hfold.
  - by injection Hfold as <-.
  - apply bind_Ok in Hfold as (s1 & H1 & Hfold).
    apply (IH s1); [|by eapply Hf; [left|..]|done].
    intros ?????. eapply Hf; [by right|done..].
Qed.

(** ** What [apply] returns *)

Section apply_inversion.
Context `{GraphPaths}.

Lemma RedundantArray_apply_Ok self config sdfg removed sdfg' removed' :
  RedundantArray.apply self config sdfg removed = Ok (sdfg', removed') →
  ∃ graph in_array out_array graph',
    states sdfg !! state_id self = Some graph ∧
    nodes graph !! subgraph self _in_array = Some in_array ∧
    nodes graph !! subgraph self _out_array = Some out_array ∧
    foldM (RedundantArray.redirect_in_edge in_array out_array)
          (in_edges graph in_array) graph = Ok graph' ∧
    sdfg' = set_state sdfg (state_id self) (remove_node graph' in_array) ∧
    removed' =
      if debugprint config
      then {| RedundantArray_arrays_removed := RedundantArray_arrays_removed removed + 1;
              RedundantSecondArray_arrays_removed := RedundantSecondArray_arrays_removed removed |}
      else removed.
Proof.
  unfold RedundantArray.apply. intros Ha. inv_bind Ha.
  injection Ha as <- <-. eexists _, _, _, _.
  rewrite <- !getitem_Ok. eauto 10.
Qed.

Lemma RedundantSecondArray_apply_Ok self config sdfg removed sdfg' removed' :
  RedundantSecondArray.apply self config sdfg removed = Ok (sdfg', removed') →
  ∃ graph in_array out_array inp_subset out_subset graph',
    states sdfg !! state_id self = Some graph ∧
    nodes graph !! subgraph self _in_array = Some in_array ∧
    nodes graph !! subgraph self _out_array = Some out_array ∧
    RedundantSecondArray.extract_subsets graph in_array out_array
      = Ok (inp_subset, out_subset) ∧
    foldM (RedundantSecondArray.redirect_out_edge in_array out_array inp_subset out_subset)
          (out_edges graph out_array) graph = Ok graph' ∧
    sdfg' = set_state sdfg (state_id self) (remove_node graph' out_array) ∧
    removed' =
      if debugprint config
      then {| RedundantArray_arrays_removed := RedundantArray_arrays_removed removed;
              RedundantSecondArray_arrays_removed := RedundantSecondArray_arrays_removed removed + 1 |}
      else removed.
Proof.
  unfold RedundantSecondArray.apply. intros Ha. inv_bind Ha.
  injection Ha as <- <-. eexists _, _, _, _, _, _.
  rewrite <- !getitem_Ok. eauto 10.
Qed.

End apply_inversion.

Lemma chain_forward_applied (on : bool) :
  RedundantArray.apply (H:=scope_free) (matched 1 2) (debug on) chain no_removals
  = Ok (chain_forward,
        if on then {| RedundantArray_arrays_removed := 1;
                      RedundantSecondArray_arrays_removed := 0 |}
        else no_removals).
Proof. destruct on; vm_compute; reflexivity. Qed.

Lemma chain_backward_applied (on : bool) :
  RedundantSecondArray.apply (H:=scope_free) (matched 0 1) (debug on) chain no_removals
  = Ok (chain_backward,
        if on then {| RedundantArray_arrays_removed := 0;
                      RedundantSecondArray_arrays_removed := 1 |}
        else no_removals).
Proof. destruct on; vm_compute; reflexivity. Qed.

Lemma element_backward_applied (on : bool) :
  RedundantSecondArray.apply (H:=scope_free) (matched 0 1) (debug on) element no_removals
  = Ok (element_backward,
        if on then {| RedundantArray_arrays_removed := 0;
                      RedundantSecondArray_arrays_removed := 1 |}
        else no_removals).
Proof. destruct on; vm_compute; reflexivity. Qed.

(** ** The registry and the counters *)

(** C8. Neither rule touches the container registry: after [apply] the
    registry [sdfg.arrays] is what it was before, for every container name,
    the name of the removed node included. *)
Theorem apply_keeps_registry `{GraphPaths} self config sdfg removed sdfg' removed' :
  RedundantArray.apply self config sdfg removed = Ok (sdfg', removed') ∨
  RedundantSecondArray.apply self config sdfg removed = Ok (sdfg', removed') →
  arrays sdfg' = arrays sdfg ∧ ∀ name, arrays sdfg' !! name = arrays sdfg !! name.
Proof.
  intros [Ha|Ha].
  - apply RedundantArray_apply_Ok in Ha as (?&?&?&?&_&_&_&_&->&_). done.
  - apply RedundantSecondArray_apply_Ok in Ha as (?&?&?&?&?&?&_&_&_&_&_&->&_). done.
Qed.

Lemma apply_keeps_registry_witness :
  (arrays chain_forward = arrays chain ∧
   ∀ name, arrays chain_forward !! name = arrays chain !! name) ∧
  (arrays element_backward = arrays element ∧
   ∀ name, arrays element_backward !! name = arrays element !! name).
Proof.
  split.
  - exact (apply_keeps_registry (H:=scope_free) _ _ _ _ _ _
             (or_introl (chain_forward_applied true))).
  - exact (apply_keeps_registry (H:=scope_free) _ _ _ _ _ _
             (or_intror (element_backward_applied true))).
Defined.

(** C9, as stated, fails: with the flag [debugprint] set, [apply] of either
    rule leaves the class counter [_arrays_removed] of the rule changed. *)
Lemma apply_counts_removals :
  ¬ (∀ sdfg' removed',
       RedundantArray.apply (H:=scope_free) (matched 1 2) (debug true) chain no_removals
         = Ok (sdfg', removed') → removed' = no_removals) ∧
  ¬ (∀ sdfg' removed',
       RedundantSecondArray.apply (H:=scope_free) (matched 0 1) (debug true) chain no_removals
         = Ok (sdfg', removed') → removed' = no_removals).
Proof.
  split; intros Hclaim.
  - by specialize (Hclaim _ _ (chain_forward_applied true)).
  - by specialize (Hclaim _ _ (chain_backward_applied true)).
Qed.

(** C9 (amended). Besides the state of the graph it rewrites, [apply]
    modifies one thing: the class counter [_arrays_removed] of the rule that
    ran goes up by one when the configuration flag [debugprint] is set.  With
    the flag off both counters are what they were; the counter of the other
    rule, the other states and the registry are never touched. *)
Theorem apply_counter_follows_debugprint `{GraphPaths}
    self config sdfg removed sdfg' removed' :
  (RedundantArray.apply self config sdfg removed = Ok (sdfg', removed') →
   RedundantArray_arrays_removed removed' =
     RedundantArray_arrays_removed removed + (if debugprint config then 1 else 0) ∧
   RedundantSecondArray_arrays_removed removed' =
     RedundantSecondArray_arrays_removed removed ∧
   arrays sdfg' = arrays sdfg ∧
   ∀ i, i ≠ state_id self → states sdfg' !! i = states sdfg !! i) ∧
  (RedundantSecondArray.apply self config sdfg removed = Ok (sdfg', removed') →
   RedundantSecondArray_arrays_removed removed' =
     RedundantSecondArray_arrays_removed removed + (if debugprint config then 1 else 0) ∧
   RedundantArray_arrays_removed removed' =
     RedundantArray_arrays_removed removed ∧
   arrays sdfg' = arrays sdfg ∧
   ∀ i, i ≠ state_id self → states sdfg' !! i = states sdfg !! i).
Proof.
  split; intros Ha.
  - apply RedundantArray_apply_Ok in Ha as (?&?&?&?&_&_&_&_&->&->).
    split; [destruct (debugprint config); simpl; lia|].
    split; [by destruct (debugprint config)|]. split; [done|].
    intros i Hi. simpl. by rewrite list_lookup_insert_ne.
  - apply RedundantSecondArray_apply_Ok in Ha as (?&?&?&?&?&?&_&_&_&_&_&->&->).
    split; [destruct (debugprint config); simpl; lia|].
    split; [by destruct (debugprint config)|]. split; [done|].
    intros i Hi. simpl. by rewrite list_lookup_insert_ne.
Qed.

Lemma apply_counter_follows_debugprint_witness :
  (RedundantArray_arrays_removed
     {| RedundantArray_arrays_removed := 1; RedundantSecondArray_arrays_removed := 0 |}
   = RedundantArray_arrays_removed no_removals + 1 ∧
   RedundantSecondArray_arrays_removed
     {| RedundantArray_arrays_removed := 1; RedundantSecondArray_arrays_removed := 0 |}
   = RedundantSecondArray_arrays_removed no_removals ∧
   arrays chain_forward = arrays chain ∧
   ∀ i, i ≠ 0%nat → states chain_forward !! i = states chain !! i) ∧
  (RedundantSecondArray_arrays_removed no_removals
   = RedundantSecondArray_arrays_removed no_removals + 0 ∧
   RedundantArray_arrays_removed no_removals = RedundantArray_arrays_removed no_removals ∧
   arrays chain_backward = arrays chain ∧
   ∀ i, i ≠ 0%nat → states chain_backward !! i = states chain !! i).
Proof.
  split.
  - exact (proj1 (apply_counter_follows_debugprint (H:=scope_free) _ _ _ _ _ _)
             (chain_forward_applied true)).
  - exact (proj2 (apply_counter_follows_debugprint (H:=scope_free) _ _ _ _ _ _)
             (chain_backward_applied false)).
Defined.

(** ** Running the check again after [apply] *)

Lemma remove_node_nodes g n i n' :
  nodes (remove_node g n) !! i = Some n' → nid n' ≠ nid n.
Proof.
  intros Hi. apply list_elem_of_lookup_2 in Hi.
  by apply list_elem_of_filter in Hi as [? _].
Qed.

Section nodes_kept.
Context `{GraphPaths}.

Lemma redirect_in_edge_nodes in_array out_array g e g' :
  RedundantArray.redirect_in_edge in_array out_array g e = Ok g' → nodes g' = nodes g.
Proof.
  unfold RedundantArray.redirect_in_edge. intros Hr. inv_bind Hr.
  injection Hr as <-. simpl.
  eapply (foldM_Ok_ind (λ s, nodes s = nodes g)); [|done|exact Hx].
  intros s pe s' _ Hs. unfold RedundantArray.rename_edge.
  destruct (find_edge s pe); [|by intros [= <-]].
  intros Hs'. inv_bind Hs'. case_bool_decide; inv_bind Hs'; by injection Hs' as <-.
Qed.

Lemma migrate_edge_nodes in_array out_array inp out g pe g' :
  RedundantSecondArray.migrate_edge in_array out_array inp out g pe = Ok g' →
  nodes g' = nodes g.
Proof.
  unfold RedundantSecondArray.migrate_edge.
  destruct (find_edge g pe); [|by intros [= <-]].
  intros Hs'. inv_bind Hs'. case_bool_decide.
  - inv_bind Hs'. by injection Hs' as <-.
  - destruct (other_subset _); inv_bind Hs'; by injection Hs' as <-.
Qed.

Lemma redirect_out_edge_nodes in_array out_array inp out g e g' :
  RedundantSecondArray.redirect_out_edge in_array out_array inp out g e = Ok g' →
  nodes g' = nodes g.
Proof.
  unfold RedundantSecondArray.redirect_out_edge. intros Hr. inv_bind Hr.
  injection Hr as <-. simpl.
  eapply (foldM_Ok_ind (λ s, nodes s = nodes g)); [|done|exact Hx].
  intros s pe s' _ Hs Hm. apply migrate_edge_nodes in Hm. congruence.
Qed.

End nodes_kept.

(** On the chain [A -> B -> C -> D] either check holds for [B], [apply]
    removes [B], and the check with the same candidate holds again: the
    positions of the candidate now name the nodes that moved up. *)
Lemma recheck_chain :
  (RedundantArray.can_be_applied chain_state (bind_roles 1 2) 0 chain true = Ok true ∧
   recheck RedundantArray.can_be_applied
     (RedundantArray.apply (H:=scope_free) (matched 1 2) (debug false) chain no_removals)
     (matched 1 2) true = Ok true) ∧
  (RedundantSecondArray.can_be_applied chain_state (bind_roles 0 1) 0 chain true = Ok true ∧
   recheck RedundantSecondArray.can_be_applied
     (RedundantSecondArray.apply (H:=scope_free) (matched 0 1) (debug false) chain no_removals)
     (matched 0 1) true = Ok true).
Proof. repeat split; vm_compute; reflexivity. Qed.

(** C7, as stated, fails for both rules: on the chain the check returned
    true, [apply] ran, and the check run again for the same candidate on the
    resulting graph does not return false. *)
Lemma recheck_matches_again :
  ¬ (RedundantArray.can_be_applied chain_state (bind_roles 1 2) 0 chain true = Ok true →
     recheck RedundantArray.can_be_applied
       (RedundantArray.apply (H:=scope_free) (matched 1 2) (debug false) chain no_removals)
       (matched 1 2) true = Ok false) ∧
  ¬ (RedundantSecondArray.can_be_applied chain_state (bind_roles 0 1) 0 chain true = Ok true →
     recheck RedundantSecondArray.can_be_applied
       (RedundantSecondArray.apply (H:=scope_free) (matched 0 1) (debug false) chain
          no_removals)
       (matched 0 1) true = Ok false).
Proof.
  destruct recheck_chain as [[Hf Hf'] [Hb Hb']].
  split; intros Hclaim.
  - specialize (Hclaim Hf). rewrite Hf' in Hclaim. discriminate.
  - specialize (Hclaim Hb). rewrite Hb' in Hclaim. discriminate.
Qed.

(** When the removed node was the last but one, the check raises instead. *)
Lemma recheck_raises :
  RedundantArray.can_be_applied chain_state (bind_roles 2 3) 0 chain true = Ok true ∧
  recheck RedundantArray.can_be_applied
    (RedundantArray.apply (H:=scope_free) (matched 2 3) (debug false) chain no_removals)
    (matched 2 3) true = Raise IndexError.
Proof. split; vm_compute; reflexivity. Qed.

(** C7 (amended). After a successful [apply] of either rule the removed node
    is gone from the node list of the state and every other node is kept in
    order, so no position a candidate can hold resolves to the removed node:
    the check run again is never a check of the removed node. *)
Theorem removed_node_is_gone `{GraphPaths}
    self config sdfg removed sdfg' removed' graph role gone strict :
  (RedundantArray.can_be_applied graph (subgraph self) 0%nat sdfg strict = Ok true ∧
   RedundantArray.apply self config sdfg removed = Ok (sdfg', removed') ∧
   role = _in_array) ∨
  (RedundantSecondArray.can_be_applied graph (subgraph self) 0%nat sdfg strict = Ok true ∧
   RedundantSecondArray.apply self config sdfg removed = Ok (sdfg', removed') ∧
   role = _out_array) →
  states sdfg !! state_id self = Some graph →
  nodes graph !! subgraph self role = Some gone →
  ∃ graph',
    states sdfg' !! state_id self = Some graph' ∧
    nodes graph' = filter (λ n, nid n ≠ nid gone) (nodes graph) ∧
    ∀ (candidate : Role → nat) r n,
      nodes graph' !! candidate r = Some n → nid n ≠ nid gone.
Proof.
  intros Hrule Hgraph Hgone.
  assert (∃ g1, nodes g1 = nodes graph ∧
                sdfg' = set_state sdfg (state_id self) (remove_node g1 gone))
    as (g1 & Hnodes & ->).
  { destruct Hrule as [(_ & Ha & ->)|(_ & Ha & ->)].
    - apply RedundantArray_apply_Ok in Ha as (g&i&o&g1&Hg&Hi&Ho&Hfold&->&_).
      rewrite Hgraph in Hg. injection Hg as <-.
      rewrite Hgone in Hi. injection Hi as <-.
      exists g1. split; [|done].
      eapply (foldM_Ok_ind (λ s, nodes s = nodes graph)); [|done|exact Hfold].
      intros s e s' _ Hs Hr. apply redirect_in_edge_nodes in Hr. congruence.
    - apply RedundantSecondArray_apply_Ok in Ha as (g&i&o&?&?&g1&Hg&Hi&Ho&_&Hfold&->&_).
      rewrite Hgraph in Hg. injection Hg as <-.
      rewrite Hgone in Ho. injection Ho as <-.
      exists g1. split; [|done].
      eapply (foldM_Ok_ind (λ s, nodes s = nodes graph)); [|done|exact Hfold].
      intros s e s' _ Hs Hr. apply redirect_out_edge_nodes in Hr. congruence. }
  exists (remove_node g1 gone). split; [|split].
  - simpl. apply list_lookup_insert_eq. by eapply lookup_lt_Some.
  - simpl. by rewrite Hnodes.
  - intros candidate r n. apply remove_node_nodes.
Qed.

Lemma removed_node_is_gone_witness :
  ∃ graph',
    states chain_forward !! 0%nat = Some graph' ∧
    nodes graph' = filter (λ n, nid n ≠ 1%nat) (nodes chain_state) ∧
    ∀ (candidate : Role → nat) r n,
      nodes graph' !! candidate r = Some n → nid n ≠ 1%nat.
Proof.
  refine (removed_node_is_gone (H:=scope_free) (matched 1 2) (debug false) chain no_removals
            chain_forward no_removals chain_state _in_array (AccessNode 1 "B") true _ _ _).
  - left. split; [vm_compute; reflexivity|]. split; [|reflexivity].
    exact (chain_forward_applied false).
  - reflexivity.
  - reflexivity.
Defined.

(** ** The branch that synthesizes a missing region *)

(** C3 fails on the code.  [C] is copied to [D] by an edge whose memlet names
    [D] and has no region for the side of [C]; the copy into [C] does not
    fill it.  The check reaches the last branch of step 3a, copies the
    absent region and calls [offset] on [None]. *)
Theorem can_be_applied_raises (strict : bool) :
  RedundantSecondArray.can_be_applied copy_out_state (bind_roles 0 1) 0 copy_out strict
  = Raise AttributeError.
Proof. destruct strict; vm_compute; reflexivity. Qed.
(** ** The occurrence scan *)

Lemma matching_nodes_registered sdfg d ns :
  forallb (λ n, match n with
                | AccessNode _ name => bool_decide (is_Some (arrays sdfg !! name))
                | CodeNode _ => true
                end) ns = true →
  matching_nodes sdfg d ns = Ok (filter (λ n, is_occurrence sdfg d n) ns).
Proof.
  induction ns as [|n ns IH]; simpl; [done|].
  intros [Hn Hns]%andb_true_iff. rewrite (IH Hns). clear IH Hns.
  destruct n as [i name|i]; simpl.
  - apply bool_decide_eq_true in Hn as [d' Hd'].
    unfold desc. simpl. rewrite Hd'. simpl.
    rewrite filter_cons. simpl. rewrite Hd'.
    by destruct (desc_eqb d' d).
  - by rewrite filter_cons.
Qed.

Lemma find_occurrences_registered sdfg d :
  registered sdfg = true →
  find_occurrences sdfg d
  = Ok (concat ((λ state, filter (λ n, is_occurrence sdfg d n) (nodes state)) <$> states sdfg)).
Proof.
  unfold registered, find_occurrences. generalize (states sdfg) as sts.
  intros sts Hreg.
  enough (∀ acc, foldM (λ occurrences state,
                          found ← matching_nodes sdfg d (nodes state);
                          Ok (occurrences ++ found)) sts acc
                 = Ok (acc ++ concat ((λ state, filter (λ n, is_occurrence sdfg d n)
                                                       (nodes state)) <$> sts)))
    as Hacc by apply (Hacc []).
  induction sts as [|st sts IH]; simpl; intros acc.
  - by rewrite app_nil_r.
  - apply andb_true_iff in Hreg as [Hst Hsts].
    rewrite (matching_nodes_registered _ _ _ Hst). simpl.
    rewrite (IH Hsts). by rewrite <- app_assoc.
Qed.

(** Two different positions of a list weigh at most the whole list. *)
Lemma sum_list_with_two {A} (f : A → nat) (l : list A) (i j : nat) (x y : A) :
  l !! i = Some x → l !! j = Some y → i ≠ j → (f x + f y ≤ sum_list_with f l)%nat.
Proof.
  revert i j. induction l as [|a l IH]; intros [|i] [|j]; simpl; try done.
  - intros [= ->] Hj _. apply list_elem_of_lookup_2, (sum_list_with_in _ f) in Hj. lia.
  - intros Hi [= ->] _. apply list_elem_of_lookup_2, (sum_list_with_in _ f) in Hi. lia.
  - intros Hi Hj Hij. specialize (IH i j Hi Hj). lia.
Qed.

Lemma length_filter_sum {A} (P : A → Prop) `{∀ x, Decision (P x)} (l : list A) :
  length (filter P l) = sum_list_with (λ x, if decide (P x) then 1%nat else 0%nat) l.
Proof.
  induction l as [|a l IH]; simpl; [done|].
  rewrite filter_cons. destruct (decide (P a)); simpl; lia.
Qed.

Lemma length_concat_sum {A B} (f : A → list B) (l : list A) :
  length (concat (f <$> l)) = sum_list_with (λ a, length (f a)) l.
Proof.
  induction l as [|a l IH]; [done|].
  rewrite fmap_cons. simpl. by rewrite length_app, IH.
Qed.

(** Two data nodes at different places of the program that name the same
    registered container are two occurrences. *)
Lemma two_occurrences sdfg d name s1 k1 st1 i1 s2 k2 st2 i2 :
  arrays sdfg !! name = Some d →
  states sdfg !! s1 = Some st1 → nodes st1 !! k1 = Some (AccessNode i1 name) →
  states sdfg !! s2 = Some st2 → nodes st2 !! k2 = Some (AccessNode i2 name) →
  (s1, k1) ≠ (s2, k2) →
  (1 < length (concat ((λ state, filter (λ n, is_occurrence sdfg d n) (nodes state))
                        <$> states sdfg)))%nat.
Proof.
  intros Hd Hs1 Hk1 Hs2 Hk2 Hne.
  assert (∀ i, is_occurrence sdfg d (AccessNode i name)) as Hocc.
  { intros i. simpl. rewrite Hd. unfold desc_eqb. by rewrite bool_decide_eq_true_2. }
  rewrite length_concat_sum.
  destruct (decide (s1 = s2)) as [->|Hs].
  - assert (st2 = st1) as -> by congruence.
    assert (k1 ≠ k2) as Hk by congruence.
    apply list_elem_of_lookup_2, (sum_list_with_in _
      (λ state, length (filter (λ n, is_occurrence sdfg d n) (nodes state)))) in Hs1.
    rewrite length_filter_sum in Hs1.
    pose proof (sum_list_with_two
      (λ x, if decide (is_occurrence sdfg d x) then 1%nat else 0%nat) _ _ _ _ _ Hk1 Hk2 Hk)
      as Htwo.
    cbv beta in Htwo. rewrite !decide_True in Htwo by apply Hocc. simpl in *. lia.
  - pose proof (sum_list_with_two
      (λ state, length (filter (λ n, is_occurrence sdfg d n) (nodes state)))
      _ _ _ _ _ Hs1 Hs2 Hs) as Htwo.
    assert (∀ st k i, nodes st !! k = Some (AccessNode i name) →
              (1 ≤ length (filter (λ n, is_occurrence sdfg d n) (nodes st)))%nat) as Hone.
    { intros st k i Hk. rewrite length_filter_sum.
      apply list_elem_of_lookup_2, (sum_list_with_in _
        (λ x, if decide (is_occurrence sdfg d x) then 1%nat else 0%nat)) in Hk.
      cbv beta in Hk. rewrite decide_True in Hk by apply Hocc. done. }
    pose proof (Hone _ _ _ Hk1). pose proof (Hone _ _ _ Hk2). simpl in *. lia.
Qed.

Lemma desc_lookup n sdfg d name :
  desc n sdfg = Ok d → node_data n = Ok name → arrays sdfg !! name = Some d.
Proof.
  unfold desc. intros Hd Hname. rewrite Hname in Hd. simpl in Hd.
  by destruct (arrays sdfg !! name); simplify_eq.
Qed.

(** C5. A second data node, anywhere in the program, that names the
    container of the node to be removed disables the rule: [can_be_applied]
    of the forward rule returns false when that container is the one of
    [_in_array], and of the backward rule when it is the one of
    [_out_array]. *)
Theorem second_occurrence_disables graph candidate expr_index sdfg strict
    in_array out_array in_desc out_desc name s1 k1 st1 i1 s2 k2 st2 i2 :
  registered sdfg = true →
  nodes graph !! candidate _in_array = Some in_array →
  nodes graph !! candidate _out_array = Some out_array →
  desc in_array sdfg = Ok in_desc →
  desc out_array sdfg = Ok out_desc →
  states sdfg !! s1 = Some st1 → nodes st1 !! k1 = Some (AccessNode i1 name) →
  states sdfg !! s2 = Some st2 → nodes st2 !! k2 = Some (AccessNode i2 name) →
  (s1, k1) ≠ (s2, k2) →
  (node_data in_array = Ok name →
   RedundantArray.can_be_applied graph candidate expr_index sdfg strict = Ok false) ∧
  (node_data out_array = Ok name →
   RedundantSecondArray.can_be_applied graph candidate expr_index sdfg strict = Ok false).
Proof.
  intros Hreg Hin Hout Hdin Hdout Hs1 Hk1 Hs2 Hk2 Hne.
  apply getitem_Ok in Hin, Hout.
  split; intros Hname.
  - unfold RedundantArray.can_be_applied.
    rewrite Hin, Hout. simpl. rewrite Hdin, Hdout. simpl.
    repeat (case_match; [done|]).
    rewrite (find_occurrences_registered _ _ Hreg). simpl.
    rewrite bool_decide_eq_true_2; [done|].
    eapply (two_occurrences _ _ name s1 k1 st1 i1 s2 k2 st2 i2);
      [eapply desc_lookup; eassumption|done..].
  - unfold RedundantSecondArray.can_be_applied.
    rewrite Hin, Hout. simpl. rewrite Hdin, Hdout. simpl.
    repeat (case_match; [done|]).
    rewrite (find_occurrences_registered _ _ Hreg). simpl.
    rewrite bool_decide_eq_true_2; [done|].
    eapply (two_occurrences _ _ name s1 k1 st1 i1 s2 k2 st2 i2);
      [eapply desc_lookup; eassumption|done..].
Qed.

Lemma second_occurrence_disables_witness :
  RedundantArray.can_be_applied chain_state (bind_roles 1 2) 0 chain_reused true = Ok false ∧
  RedundantSecondArray.can_be_applied chain_state (bind_roles 0 1) 0 chain_reused true
  = Ok false.
Proof.
  split.
  - refine (proj1 (second_occurrence_disables chain_state (bind_roles 1 2) 0 chain_reused true
              (AccessNode 1 "B") (AccessNode 2 "C") (array 1 [3; 3] true) (array 2 [3; 3] true)
              "B" 0 1 chain_state 1 1 0 reuse_state 0 _ _ _ _ _ _ _ _ _ _) _);
      solve [reflexivity | discriminate].
  - refine (proj2 (second_occurrence_disables chain_state (bind_roles 0 1) 0 chain_reused true
              (AccessNode 0 "A") (AccessNode 1 "B") (array 0 [3; 3] false) (array 1 [3; 3] true)
              "B" 0 1 chain_state 1 1 0 reuse_state 0 _ _ _ _ _ _ _ _ _ _) _);
      solve [reflexivity | discriminate].
Defined.
(** ** Strict mode of the forward rule *)

Lemma existsb_differ (l1 l2 : list Z) :
  length l1 = length l2 → l1 ≠ l2 →
  existsb (λ '(m, a), bool_decide (m ≠ a)) (zip l1 l2) = true.
Proof.
  revert l2. induction l1 as [|x l1 IH]; intros [|y l2]; simpl; try done.
  intros [= Hlen] Hne. destruct (decide (x = y)) as [->|Hxy].
  - rewrite bool_decide_eq_false_2 by auto. simpl. apply IH; congruence.
  - by rewrite bool_decide_eq_true_2.
Qed.

Lemma length_size s : length (size s) = dims s.
Proof. destruct s; simpl; by rewrite length_fmap. Qed.

(** C4. In strict mode the forward rule refuses a candidate whose connecting
    edge does not cover the source container: when the per-dimension size of
    the region of the first edge from [_in_array] to [_out_array] is not the
    shape of the source container, [can_be_applied] returns false, whatever
    the other preconditions say.  The region has the rank of the container
    the memlet names (the data-model invariant of a region), the source or
    the destination container. *)
Theorem strict_requires_full_cover graph candidate expr_index sdfg
    in_array out_array in_desc out_desc e s :
  registered sdfg = true →
  nodes graph !! candidate _in_array = Some in_array →
  nodes graph !! candidate _out_array = Some out_array →
  desc in_array sdfg = Ok in_desc →
  desc out_array sdfg = Ok out_desc →
  edges_between graph in_array out_array !! 0%nat = Some e →
  subset (edata e) = Some s →
  dims s = length (shape in_desc) ∨ dims s = length (shape out_desc) →
  size s ≠ shape in_desc →
  RedundantArray.can_be_applied graph candidate expr_index sdfg true = Ok false.
Proof.
  intros Hreg Hin Hout Hdin Hdout He Hs Hrank Hsize.
  apply getitem_Ok in Hin, Hout, He.
  unfold RedundantArray.can_be_applied.
  rewrite Hin, Hout. simpl. rewrite Hdin, Hdout. simpl.
  repeat (case_match; [done|]).
  rewrite (find_occurrences_registered _ _ Hreg). simpl.
  repeat (case_match; [done|]).
  rewrite He. simpl. rewrite Hs. simpl.
  rewrite existsb_differ; [done| |done].
  rewrite length_size.
  match goal with Hsh : _ || _ = false |- _ =>
    apply orb_false_iff in Hsh as [Hlen _]; apply bool_decide_eq_false in Hlen end.
  destruct Hrank as [->| ->]; [done|]. symmetry. by apply dec_stable.
Qed.

Lemma strict_requires_full_cover_witness :
  RedundantArray.can_be_applied partial_chain_state (bind_roles 1 2) 0 partial_chain true
  = Ok false.
Proof.
  refine (strict_requires_full_cover partial_chain_state (bind_roles 1 2) 0 partial_chain
            (AccessNode 1 "B") (AccessNode 2 "C") (array 1 [3; 3] true) (array 2 [3; 3] true)
            (edge 1 1 None 2 None (simple "B" [slice 0 2; slice 0 3] None))
            (Range [slice 0 2; slice 0 3]) _ _ _ _ _ _ _ _ _);
    solve [reflexivity | left; reflexivity | discriminate].
Defined.

(** On that graph every other precondition holds: the check succeeds when
    it is not strict. *)
Lemma partial_chain_not_strict :
  RedundantArray.can_be_applied partial_chain_state (bind_roles 1 2) 0 partial_chain false
  = Ok true.
Proof. vm_compute. reflexivity. Qed.

(** The comparison of sizes and shape runs over the pairs of the two lists
    and stops with the shorter one: a region of lower rank than its
    container, which the invariant of a region excludes, is compared on its
    own dimensions only. *)
Lemma low_rank_region_passes :
  RedundantArray.can_be_applied low_rank_chain_state (bind_roles 1 2) 0 low_rank_chain true
  = Ok true.
Proof. vm_compute. reflexivity. Qed.
(** ** The coverage check of the backward rule *)

(** The loop of step 3 never answers true when some outgoing edge is not
    covered. *)
Lemma check_out_edges_true out_array out_subset es e s :
  RedundantSecondArray.check_out_edges out_array out_subset es = Ok true →
  e ∈ es →
  RedundantSecondArray.out_edge_subset out_array e = Ok (Some s) →
  covers out_subset s = Ok true.
Proof.
  induction es as [|e' es IH]; simpl; intros Hcheck Hin He; [by inversion Hin|].
  inv_bind Hcheck. destruct x1; simpl in Hcheck; [|done].
  apply elem_of_cons in Hin as [->|Hin]; [|by apply IH].
  rewrite He in Hx. injection Hx as <-. simpl in Hx0. by injection Hx0 as <-.
Qed.

(** Up to step 3 the check of the backward rule is decided by the degree,
    the descriptors, the occurrence scan and the size of the copy. *)
Lemma backward_check_reaches_step_3 graph candidate expr_index sdfg strict
    in_array out_array in_desc out_desc inp_subset out_subset :
  registered sdfg = true →
  nodes graph !! candidate _in_array = Some in_array →
  nodes graph !! candidate _out_array = Some out_array →
  desc in_array sdfg = Ok in_desc →
  desc out_array sdfg = Ok out_desc →
  RedundantSecondArray.extract_subsets graph in_array out_array
    = Ok (inp_subset, out_subset) →
  num_elements inp_subset ≠ prod (shape out_desc) →
  RedundantSecondArray.can_be_applied graph candidate expr_index sdfg strict = Ok false ∨
  RedundantSecondArray.can_be_applied graph candidate expr_index sdfg strict
  = RedundantSecondArray.check_out_edges out_array out_subset (out_edges graph out_array).
Proof.
  intros Hreg Hin Hout Hdin Hdout Hext Hsize.
  apply getitem_Ok in Hin, Hout.
  unfold RedundantSecondArray.can_be_applied.
  rewrite Hin, Hout. simpl. rewrite Hdin, Hdout. simpl.
  repeat (case_match; [by left|]).
  rewrite (find_occurrences_registered _ _ Hreg). simpl.
  repeat (case_match; [by left|]).
  rewrite Hext. simpl. rewrite bool_decide_eq_false_2 by done. by right.
Qed.

(** With an uncovered outgoing edge the check cannot answer true, whatever
    the other outgoing edges are. *)
Lemma uncovered_out_edge_never_true graph candidate expr_index sdfg strict
    in_array out_array in_desc out_desc inp_subset out_subset k e s :
  registered sdfg = true →
  nodes graph !! candidate _in_array = Some in_array →
  nodes graph !! candidate _out_array = Some out_array →
  desc in_array sdfg = Ok in_desc →
  desc out_array sdfg = Ok out_desc →
  RedundantSecondArray.extract_subsets graph in_array out_array
    = Ok (inp_subset, out_subset) →
  num_elements inp_subset ≠ prod (shape out_desc) →
  out_edges graph out_array !! k = Some e →
  RedundantSecondArray.out_edge_subset out_array e = Ok (Some s) →
  covers out_subset s = Ok false →
  RedundantSecondArray.can_be_applied graph candidate expr_index sdfg strict ≠ Ok true.
Proof.
  intros Hreg Hin Hout Hdin Hdout Hext Hsize Hk He Hs.
  destruct (backward_check_reaches_step_3 graph candidate expr_index sdfg strict
              _ _ _ _ _ _ Hreg Hin Hout Hdin Hdout Hext Hsize) as [-> | ->]; [done|].
  intros Htrue.
  pose proof (check_out_edges_true _ _ _ _ _ Htrue (list_elem_of_lookup_2 _ _ _ Hk) He).
  congruence.
Qed.

(** It answers false when it meets an uncovered edge and the regions of the
    edges before it can be compared. *)
Lemma check_out_edges_reaches out_array out_subset (pre post : list Edge) e s :
  Forall (λ e', ∃ s' c, RedundantSecondArray.out_edge_subset out_array e' = Ok (Some s') ∧
                        covers out_subset s' = Ok c) pre →
  RedundantSecondArray.out_edge_subset out_array e = Ok (Some s) →
  covers out_subset s = Ok false →
  RedundantSecondArray.check_out_edges out_array out_subset (pre ++ e :: post) = Ok false.
Proof.
  intros Hpre He Hs. induction Hpre as [|e' pre (s' & c & He' & Hs') _ IH]; simpl.
  - by rewrite He; simpl; rewrite Hs.
  - rewrite He'. simpl. rewrite Hs'. simpl. by destruct c.
Qed.

(** C2. When the copy does not fill the destination container (the size
    shortcut of step 2 does not hold) and an outgoing edge of the destination
    node has a region that the destination side of the connecting edge does
    not cover, [can_be_applied] of the backward rule returns false.  The
    outgoing edges that the loop visits before that edge carry a region of
    the rank of the destination side, so that the loop gets to it.  The
    check reads the graph and changes nothing. *)
Theorem uncovered_out_edge_rejects graph candidate expr_index sdfg strict
    in_array out_array in_desc out_desc inp_subset out_subset k e s :
  registered sdfg = true →
  nodes graph !! candidate _in_array = Some in_array →
  nodes graph !! candidate _out_array = Some out_array →
  desc in_array sdfg = Ok in_desc →
  desc out_array sdfg = Ok out_desc →
  RedundantSecondArray.extract_subsets graph in_array out_array
    = Ok (inp_subset, out_subset) →
  num_elements inp_subset ≠ prod (shape out_desc) →
  out_edges graph out_array !! k = Some e →
  RedundantSecondArray.out_edge_subset out_array e = Ok (Some s) →
  covers out_subset s = Ok false →
  (∀ j e', (j < k)%nat → out_edges graph out_array !! j = Some e' →
     ∃ s' c, RedundantSecondArray.out_edge_subset out_array e' = Ok (Some s') ∧
             covers out_subset s' = Ok c) →
  RedundantSecondArray.can_be_applied graph candidate expr_index sdfg strict = Ok false.
Proof.
  intros Hreg Hin Hout Hdin Hdout Hext Hsize Hk He Hs Hbefore.
  destruct (backward_check_reaches_step_3 graph candidate expr_index sdfg strict
              _ _ _ _ _ _ Hreg Hin Hout Hdin Hdout Hext Hsize) as [-> | ->]; [done|].
  rewrite <- (take_drop_middle _ _ _ Hk).
  apply check_out_edges_reaches with s; [|done..].
  apply Forall_forall. intros e' [j Hj]%list_elem_of_lookup_1.
  pose proof (lookup_lt_Some _ _ _ Hj) as Hlt. rewrite length_take in Hlt.
  rewrite lookup_take_lt in Hj by lia. apply (Hbefore j); [lia|done].
Qed.

Lemma uncovered_out_edge_rejects_witness :
  RedundantSecondArray.can_be_applied two_readers_state (bind_roles 0 1) 0 two_readers true
  = Ok false.
Proof.
  refine (uncovered_out_edge_rejects two_readers_state (bind_roles 0 1) 0 two_readers true
            (AccessNode 0 "A") (AccessNode 1 "C") (array 0 [3; 3] false) (array 1 [3; 6] true)
            (Range [slice 0 3; slice 0 3]) (Range [slice 0 3; slice 0 3]) 1
            (edge 3 1 None 4 (Some "_inp") (simple "C" [slice 0 3; slice 3 6] None))
            (Range [slice 0 3; slice 3 6]) _ _ _ _ _ _ _ _ _ _ _);
    try solve [reflexivity | discriminate].
  intros j e' Hj Hlookup. assert (j = 0%nat) as -> by lia.
  vm_compute in Hlookup. injection Hlookup as <-.
  eexists _, _. split; reflexivity.
Defined.

(** [test_out_2] is the case where the uncovered edge is the only one. *)
Lemma out_2_rejected strict :
  RedundantSecondArray.can_be_applied out_2_state (bind_roles 0 1) 0 out_2 strict = Ok false.
Proof. destruct strict; vm_compute; reflexivity. Qed.

(** ** The first edge between the two nodes *)

(** Apart from the indexings [graph.nodes()[...]] and
    [edges_between(...)[0]], no step of the checks raises [IndexError]. *)

Lemma bind_in_range {A B} (m : result A) (k : A → result B) :
  in_range m → (∀ a, m = Ok a → in_range (k a)) → in_range (m ≫= k).
Proof.
  intros Hm Hk. destruct m as [a|x]; [by apply Hk|].
  intros Hr. apply Hm. simpl in Hr. by injection Hr as ->.
Qed.

Lemma desc_in_range n sdfg : in_range (desc n sdfg).
Proof. unfold desc. destruct n; simpl; [|done]. by destruct (arrays sdfg !! _). Qed.

Lemma node_data_in_range n : in_range (node_data n).
Proof. by destruct n. Qed.

Lemma attr_in_range {A} (o : option A) : in_range (attr o).
Proof. by destruct o. Qed.

Lemma offset_in_range s other negative : in_range (offset s other negative).
Proof. unfold offset. by case_bool_decide. Qed.

Lemma covers_in_range a b : in_range (covers a b).
Proof. unfold covers. by case_bool_decide. Qed.

Lemma matching_nodes_in_range sdfg d ns : in_range (matching_nodes sdfg d ns).
Proof.
  induction ns as [|n ns IH]; simpl; [done|].
  apply bind_in_range.
  - destruct (isinstance_AccessNode n); [|done].
    apply bind_in_range; [apply desc_in_range|done].
  - intros keep _. apply bind_in_range; done.
Qed.

Lemma foldM_in_range {A S} (f : S → A → result S) (l : list A) (s : S) :
  (∀ s a, in_range (f s a)) → in_range (foldM f l s).
Proof.
  intros Hf. revert s. induction l as [|a l IH]; simpl; intros s; [done|].
  apply bind_in_range; auto.
Qed.

Lemma find_occurrences_in_range sdfg d : in_range (find_occurrences sdfg d).
Proof.
  apply foldM_in_range. intros occ state.
  apply bind_in_range; [apply matching_nodes_in_range|done].
Qed.

Lemma check_out_edges_in_range out_array out_subset es :
  in_range (RedundantSecondArray.check_out_edges out_array out_subset es).
Proof.
  induction es as [|e es IH]; simpl; [done|].
  apply bind_in_range.
  { unfold RedundantSecondArray.out_edge_subset.
    apply bind_in_range; [apply node_data_in_range|]. intros out_data _.
    case_bool_decide; [done|]. by destruct (other_subset _). }
  intros s _. apply bind_in_range; [apply attr_in_range|]. intros s' _.
  apply bind_in_range; [apply covers_in_range|]. intros c _. by destruct c.
Qed.

Lemma extract_subsets_in_range graph in_array out_array e :
  edges_between graph in_array out_array !! 0%nat = Some e →
  in_range (RedundantSecondArray.extract_subsets graph in_array out_array).
Proof.
  intros He%getitem_Ok. unfold RedundantSecondArray.extract_subsets.
  rewrite He. simpl.
  apply bind_in_range; [apply node_data_in_range|]. intros in_data _.
  case_bool_decide.
  - apply bind_in_range.
    { destruct (subset _); [done|].
      apply bind_in_range; [apply attr_in_range|]. intros. apply offset_in_range. }
    intros inp _. apply bind_in_range; [|done].
    destruct (other_subset _); [done|apply offset_in_range].
  - apply bind_in_range.
    { destruct (other_subset _); [done|].
      apply bind_in_range; [apply attr_in_range|]. intros. apply offset_in_range. }
    intros inp _. apply bind_in_range; [|done].
    destruct (subset _); [done|apply offset_in_range].
Qed.

Lemma edges_between_first graph in_array out_array k e :
  edges graph !! k = Some e → src e = nid in_array → dst e = nid out_array →
  ∃ e0, edges_between graph in_array out_array !! 0%nat = Some e0.
Proof.
  intros Hk Hsrc Hdst. unfold edges_between.
  assert (e ∈ filter (λ e, src e = nid in_array ∧ dst e = nid out_array) (edges graph)) as He.
  { apply list_elem_of_filter. split; [done|]. by eapply list_elem_of_lookup_2. }
  destruct (filter _ _) as [|e0 es]; [by inversion He|]. by exists e0.
Qed.

(** Every candidate the matcher yields binds the two roles to the end nodes
    of an edge of the graph. *)
Lemma match_pattern_connected graph (candidate : Role → nat) :
  candidate ∈ match_pattern graph →
  ∃ in_array out_array k e,
    nodes graph !! candidate _in_array = Some in_array ∧
    nodes graph !! candidate _out_array = Some out_array ∧
    edges graph !! k = Some e ∧ src e = nid in_array ∧ dst e = nid out_array.
Proof.
  unfold match_pattern. intros (e & He & Hm)%list_elem_of_omap.
  apply list_elem_of_lookup_1 in He as [k Hk].
  unfold match_edge, index_of in Hm.
  destruct (list_find _ _) as [[i n]|] eqn:Hi; [|done].
  destruct n as [ni di|]; [|done].
  destruct (list_find (λ n, nid n = dst e) _) as [[j m]|] eqn:Hj; [|done].
  destruct m as [nj dj|]; [|done].
  injection Hm as <-.
  apply list_find_Some in Hi as (Hi & Hsrc & _), Hj as (Hj & Hdst & _).
  exists (AccessNode ni di), (AccessNode nj dj), k, e. simpl in *. eauto 10.
Qed.

(** C10. Both checks take element 0 of [edges_between(in_array, out_array)]
    without looking at its length.  For a candidate that binds two nodes
    joined by an edge, as the candidates of the matcher are, the list is not
    empty, and neither check raises [IndexError]. *)
Theorem first_edge_in_range graph candidate expr_index sdfg strict
    in_array out_array k e :
  nodes graph !! candidate _in_array = Some in_array →
  nodes graph !! candidate _out_array = Some out_array →
  edges graph !! k = Some e →
  src e = nid in_array →
  dst e = nid out_array →
  (∃ e0, getitem (edges_between graph in_array out_array) 0 = Ok e0) ∧
  RedundantArray.can_be_applied graph candidate expr_index sdfg strict ≠ Raise IndexError ∧
  RedundantSecondArray.can_be_applied graph candidate expr_index sdfg strict
    ≠ Raise IndexError.
Proof.
  intros Hin Hout Hk Hsrc Hdst.
  destruct (edges_between_first _ _ _ _ _ Hk Hsrc Hdst) as [e0 He0].
  split; [exists e0; by apply getitem_Ok|].
  apply getitem_Ok in Hin, Hout.
  split.
  - unfold RedundantArray.can_be_applied. rewrite Hin, Hout. simpl.
    apply bind_in_range; [apply desc_in_range|]. intros in_desc _.
    apply bind_in_range; [apply desc_in_range|]. intros out_desc _.
    repeat (case_match; [done|]).
    apply bind_in_range; [apply find_occurrences_in_range|]. intros occ _.
    repeat (case_match; [done|]).
    destruct strict; [|done].
    apply getitem_Ok in He0. rewrite He0. simpl.
    apply bind_in_range; [apply attr_in_range|]. intros s _. by case_match.
  - unfold RedundantSecondArray.can_be_applied. rewrite Hin, Hout. simpl.
    apply bind_in_range; [apply desc_in_range|]. intros in_desc _.
    apply bind_in_range; [apply desc_in_range|]. intros out_desc _.
    repeat (case_match; [done|]).
    apply bind_in_range; [apply find_occurrences_in_range|]. intros occ _.
    repeat (case_match; [done|]).
    apply bind_in_range; [by eapply extract_subsets_in_range|]. intros [inp out] _.
    case_match; [done|]. apply check_out_edges_in_range.
Qed.

Lemma first_edge_in_range_witness :
  (∃ e0, getitem (edges_between out_3_state (AccessNode 0 "A") (AccessNode 1 "C")) 0 = Ok e0) ∧
  RedundantArray.can_be_applied out_3_state (bind_roles 0 1) 0 out_3 true ≠ Raise IndexError ∧
  RedundantSecondArray.can_be_applied out_3_state (bind_roles 0 1) 0 out_3 true
    ≠ Raise IndexError.
Proof.
  refine (first_edge_in_range out_3_state (bind_roles 0 1) 0 out_3 true
            (AccessNode 0 "A") (AccessNode 1 "C") 0
            (edge 0 0 None 1 None
               (simple "A" [slice 1 5; slice 1 5] (Some [slice 2 6; slice 2 6])))
            _ _ _ _ _); reflexivity.
Defined.
(** ** Edges by identity *)

Lemma head_filter_Some {A} (P : A → Prop) `{∀ x, Decision (P x)} (l : list A) (x : A) :
  head (filter P l) = Some x → x ∈ l ∧ P x.
Proof.
  intros Hh. assert (x ∈ filter P l) as Hx.
  { destruct (filter P l); simplify_eq/=. by left. }
  by apply list_elem_of_filter in Hx as [? ?].
Qed.

Lemma head_filter_None {A} (P : A → Prop) `{∀ x, Decision (P x)} (l : list A) :
  head (filter P l) = None ↔ ∀ x, x ∈ l → ¬ P x.
Proof.
  split.
  - intros Hh x Hx HP.
    assert (x ∈ filter P l) as Hf by by apply list_elem_of_filter.
    destruct (filter P l); [by inversion Hf|done].
  - intros Hno. destruct (filter P l) as [|y ys] eqn:Hf; [done|].
    assert (y ∈ filter P l) as Hy by (rewrite Hf; by left).
    apply list_elem_of_filter in Hy as [HP Hy]. by destruct (Hno y).
Qed.

Lemma find_edge_Some g i e : find_edge g i = Some e → e ∈ edges g ∧ eid e = i.
Proof. intros Hh. by apply (head_filter_Some (λ e, eid e = i)) in Hh. Qed.

Lemma find_edge_None g i : find_edge g i = None ↔ i ∉ eid <$> edges g.
Proof.
  unfold find_edge. rewrite head_filter_None, list_elem_of_fmap. split.
  - intros Hall (e & -> & He). by apply (Hall e).
  - intros Hno e He Heq. apply Hno. by exists e.
Qed.

Lemma find_edge_is_Some g i : is_Some (find_edge g i) ↔ i ∈ eid <$> edges g.
Proof.
  rewrite <- not_eq_None_Some, find_edge_None. split; [apply dec_stable|auto].
Qed.

Lemma find_edge_distinct g e :
  distinct_edges g → e ∈ edges g → find_edge g (eid e) = Some e.
Proof.
  unfold distinct_edges, find_edge. induction (edges g) as [|x l IH]; simpl.
  - intros _ He. by inversion He.
  - intros [Hx Hl]%NoDup_cons He. rewrite filter_cons.
    apply elem_of_cons in He as [->|He].
    + by rewrite decide_True.
    + rewrite decide_False; [by apply IH|].
      intros Heq. apply Hx. rewrite Heq. by apply list_elem_of_fmap_2.
Qed.

Lemma fresh_eid_not_in g : fresh_eid g ∉ eid <$> edges g.
Proof.
  unfold fresh_eid. intros Hin%max_list_elem_of_le. lia.
Qed.

Lemma find_edge_fresh g : find_edge g (fresh_eid g) = None.
Proof. apply find_edge_None, fresh_eid_not_in. Qed.

Lemma filter_fmap_eid (f : Edge → Edge) (l : list Edge) (i : nat) :
  (∀ e, eid (f e) = eid e) →
  filter (λ e, eid e = i) (f <$> l) = f <$> filter (λ e, eid e = i) l.
Proof.
  intros Hf. induction l as [|x l IH]; [done|].
  rewrite fmap_cons, !filter_cons, Hf, IH. by destruct (decide _).
Qed.

Lemma find_edge_update_memlet g j m i :
  find_edge (update_memlet g j m) i
  = if bool_decide (i = j) then set_edata m <$> find_edge g i else find_edge g i.
Proof.
  unfold find_edge, update_memlet. simpl.
  rewrite filter_fmap_eid by (intros e; by case_bool_decide).
  destruct (filter _ (edges g)) as [|x l] eqn:Hl; simpl; [by case_bool_decide|].
  assert (eid x = i) as <-.
  { assert (x ∈ filter (λ e, eid e = i) (edges g)) as Hx by (rewrite Hl; by left).
    by apply list_elem_of_filter in Hx as [? _]. }
  repeat case_bool_decide; done.
Qed.

Lemma find_edge_remove_edge g e i :
  find_edge (remove_edge g e) i
  = if bool_decide (i = eid e) then None else find_edge g i.
Proof.
  unfold find_edge, remove_edge. simpl.
  induction (edges g) as [|x l IH]; simpl; [by case_bool_decide|].
  rewrite !filter_cons.
  destruct (decide (eid x ≠ eid e)) as [Hxe|Hxe]; simpl.
  - rewrite filter_cons. destruct (decide (eid x = i)) as [Hxi|Hxi]; simpl; [|done].
    by rewrite bool_decide_eq_false_2 by congruence.
  - apply dec_stable in Hxe. rewrite IH.
    destruct (decide (eid x = i)) as [Hxi|Hxi]; simpl; [|done].
    by rewrite bool_decide_eq_true_2 by congruence.
Qed.

Lemma find_edge_add_edge g u u_conn v v_conn m i :
  find_edge (add_edge g u u_conn v v_conn m) i
  = match find_edge g i with
    | Some e => Some e
    | None => if bool_decide (i = fresh_eid g)
              then Some {| eid := fresh_eid g; src := u; src_conn := u_conn;
                           dst := v; dst_conn := v_conn; edata := m |}
              else None
    end.
Proof.
  unfold find_edge, add_edge. simpl. rewrite filter_app.
  destruct (filter _ (edges g)) as [|x l]; simpl; [|done].
  rewrite filter_cons, filter_nil. simpl.
  destruct (decide (fresh_eid g = i)); case_bool_decide; done || congruence.
Qed.

Lemma eids_update_memlet g j m : eid <$> edges (update_memlet g j m) = eid <$> edges g.
Proof.
  unfold update_memlet. simpl. rewrite <- list_fmap_compose.
  apply list_fmap_ext. intros ? e _. simpl. by case_bool_decide.
Qed.

Lemma distinct_edges_remove_edge g e :
  distinct_edges g → distinct_edges (remove_edge g e).
Proof.
  unfold distinct_edges, remove_edge. simpl.
  induction (edges g) as [|x l IH]; simpl; [done|].
  intros [Hx Hl]%NoDup_cons. rewrite filter_cons.
  destruct (decide _); simpl; [|by apply IH].
  apply NoDup_cons. split; [|by apply IH].
  intros (y & Hy & [_ Hin]%list_elem_of_filter)%list_elem_of_fmap.
  apply Hx. rewrite Hy. by apply list_elem_of_fmap_2.
Qed.

Lemma distinct_edges_add_edge g u u_conn v v_conn m :
  distinct_edges g → distinct_edges (add_edge g u u_conn v v_conn m).
Proof.
  unfold distinct_edges, add_edge. simpl. intros Hnd.
  rewrite fmap_app. apply NoDup_app. split; [done|]. split.
  - intros i Hi [->|[]%elem_of_nil]%elem_of_cons. by apply fresh_eid_not_in in Hi.
  - apply NoDup_singleton.
Qed.
(** ** The forward rule does what the specification describes *)

Lemma filter_eid_distinct g i e :
  distinct_edges g → find_edge g i = Some e → filter (λ e', eid e' = i) (edges g) = [e].
Proof.
  unfold distinct_edges, find_edge. induction (edges g) as [|x l IH]; simpl; [done|].
  intros [Hx Hl]%NoDup_cons. rewrite filter_cons.
  destruct (decide (eid x = i)) as [<-|Hxi]; simpl; [|by apply IH].
  intros [= ->]. f_equal.
  destruct (filter _ l) as [|y ys] eqn:Hf; [done|].
  assert (y ∈ filter (λ e', eid e' = eid e) l) as Hy by (rewrite Hf; by left).
  apply list_elem_of_filter in Hy as [Hy Hin]. destruct Hx.
  rewrite <- Hy. by apply list_elem_of_fmap_2.
Qed.

Lemma state_eta g : {| nodes := nodes g; edges := edges g |} = g.
Proof. by destruct g. Qed.

Section forward.
Context `{GraphPaths}.
Context (ni : nat) (d_in : string) (no : nat) (d_out : string).

Local Abbreviation in_array := (AccessNode ni d_in).
Local Abbreviation out_array := (AccessNode no d_out).

Lemma rename_edge_spec g pe :
  distinct_edges g →
  RedundantArray.rename_edge in_array out_array g pe
  = Ok (forward_spec.rename_segments d_in d_out [pe] g).
Proof.
  intros Hnd. unfold RedundantArray.rename_edge, forward_spec.rename_segments.
  destruct (find_edge g pe) as [e|] eqn:Hf; simpl.
  - pose proof (find_edge_Some _ _ _ Hf) as [He Hpe].
    case_bool_decide as Hd; simpl; f_equal.
    + unfold update_memlet. f_equal. apply list_fmap_ext. intros k x Hx.
      apply list_elem_of_lookup_2 in Hx.
      case_bool_decide as Hxe.
      * assert (x = e) as ->.
        { pose proof (find_edge_distinct _ _ Hnd Hx) as Hfx. congruence. }
        rewrite bool_decide_eq_true_2; [done|].
        split; [|done]. rewrite Hpe. by left.
      * rewrite bool_decide_eq_false_2; [done|].
        intros [Hin _]. by apply list_elem_of_singleton in Hin.
    + transitivity {| nodes := nodes g; edges := edges g |}; [by rewrite state_eta|].
      f_equal. transitivity (id <$> edges g); [by rewrite list_fmap_id|].
      apply list_fmap_ext. intros k x Hx. apply list_elem_of_lookup_2 in Hx. simpl.
      rewrite bool_decide_eq_false_2; [done|].
      intros [Hin%list_elem_of_singleton Hdx].
      pose proof (find_edge_distinct _ _ Hnd Hx) as Hfx. congruence.
  - f_equal. transitivity {| nodes := nodes g; edges := edges g |}; [by rewrite state_eta|].
    f_equal. transitivity (id <$> edges g); [by rewrite list_fmap_id|].
    apply list_fmap_ext. intros k x Hx. apply list_elem_of_lookup_2 in Hx. simpl.
    rewrite bool_decide_eq_false_2; [done|].
    intros [Hin%list_elem_of_singleton _].
    apply find_edge_None in Hf. destruct Hf. rewrite <- Hin. by apply list_elem_of_fmap_2.
Qed.

Lemma rename_segments_cons pe path g :
  forward_spec.rename_segments d_in d_out path
    (forward_spec.rename_segments d_in d_out [pe] g)
  = forward_spec.rename_segments d_in d_out (pe :: path) g.
Proof.
  unfold forward_spec.rename_segments. simpl. f_equal.
  rewrite <- list_fmap_compose. apply list_fmap_ext. intros k x _. simpl.
  destruct (decide (eid x = pe ∧ data (edata x) = d_in)) as [[Hx Hd]|Hno].
  - rewrite (bool_decide_eq_true_2 (eid x ∈ [pe] ∧ _)) by (split; [rewrite Hx; by left|done]).
    rewrite (bool_decide_eq_true_2 (eid x ∈ pe :: path ∧ _))
      by (split; [rewrite Hx; by left|done]).
    by case_bool_decide.
  - rewrite (bool_decide_eq_false_2 (eid x ∈ [pe] ∧ _))
      by (intros [?%list_elem_of_singleton ?]; by apply Hno).
    rewrite (bool_decide_ext (eid x ∈ pe :: path ∧ data (edata x) = d_in)
               (eid x ∈ path ∧ data (edata x) = d_in)); [done|].
    rewrite elem_of_cons. split.
    + intros [[Hx|Hx] Hd]; [by destruct Hno|done].
    + intros [Hx Hd]. auto.
Qed.

Lemma distinct_edges_rename_segments path g :
  distinct_edges g → distinct_edges (forward_spec.rename_segments d_in d_out path g).
Proof.
  unfold distinct_edges, forward_spec.rename_segments. simpl. intros Hnd.
  rewrite <- list_fmap_compose.
  erewrite list_fmap_ext; [exact Hnd|]. intros k x _. simpl. by case_bool_decide.
Qed.

Lemma rename_segments_nil g : forward_spec.rename_segments d_in d_out [] g = g.
Proof.
  unfold forward_spec.rename_segments.
  transitivity {| nodes := nodes g; edges := edges g |}; [|apply state_eta]. f_equal.
  transitivity (id <$> edges g); [|apply list_fmap_id].
  apply list_fmap_ext. intros k x _.
  rewrite bool_decide_eq_false_2; [done|]. by intros [?%elem_of_nil _].
Qed.

Lemma rename_path_spec path g :
  distinct_edges g →
  foldM (RedundantArray.rename_edge in_array out_array) path g
  = Ok (forward_spec.rename_segments d_in d_out path g).
Proof.
  revert g. induction path as [|pe path IH]; simpl; intros g Hnd.
  - by rewrite rename_segments_nil.
  - rewrite rename_edge_spec by done. simpl.
    rewrite IH by by apply distinct_edges_rename_segments.
    by rewrite rename_segments_cons.
Qed.

Lemma eids_rename_segments path g :
  eid <$> edges (forward_spec.rename_segments d_in d_out path g) = eid <$> edges g.
Proof.
  unfold forward_spec.rename_segments. simpl. rewrite <- list_fmap_compose.
  apply list_fmap_ext. intros k x _. simpl. by case_bool_decide.
Qed.

Lemma step_unfold g e :
  distinct_edges g → eid e ∈ eid <$> edges g →
  let g1 := forward_spec.rename_segments d_in d_out (memlet_path g e) g in
  add_edge (remove_edge g1 e) (src e) (src_conn e) no (dst_conn e) (current_memlet g1 e)
  = forward_spec.step d_in d_out no g e.
Proof.
  intros Hnd He g1. unfold forward_spec.step. fold g1.
  assert (distinct_edges g1) as Hnd1 by by apply distinct_edges_rename_segments.
  assert (is_Some (find_edge g1 (eid e))) as [e1 Hf].
  { apply find_edge_is_Some. unfold g1. by rewrite eids_rename_segments. }
  unfold current_memlet, forward_spec.redirect, add_edge, remove_edge, fresh_eid.
  cbn [nodes edges]. rewrite Hf. by rewrite (filter_eid_distinct _ _ _ Hnd1 Hf).
Qed.

Lemma redirect_in_edge_spec g e :
  distinct_edges g → eid e ∈ eid <$> edges g →
  RedundantArray.redirect_in_edge in_array out_array g e
  = Ok (forward_spec.step d_in d_out no g e).
Proof.
  intros Hnd He. unfold RedundantArray.redirect_in_edge.
  rewrite rename_path_spec by done. rewrite <- step_unfold by done. done.
Qed.

Lemma distinct_edges_step g e :
  distinct_edges g → eid e ∈ eid <$> edges g →
  distinct_edges (forward_spec.step d_in d_out no g e).
Proof.
  intros Hnd He. rewrite <- step_unfold by done.
  by apply distinct_edges_add_edge, distinct_edges_remove_edge,
    distinct_edges_rename_segments.
Qed.

Lemma eids_step g e i :
  i ∈ eid <$> edges g → i ≠ eid e →
  i ∈ eid <$> edges (forward_spec.step d_in d_out no g e).
Proof.
  intros Hi Hie. unfold forward_spec.step, forward_spec.redirect. cbn [edges].
  rewrite fmap_app. apply elem_of_app. left.
  rewrite <- (eids_rename_segments (memlet_path g e) g) in Hi.
  apply list_elem_of_fmap in Hi as (x & -> & Hx).
  apply list_elem_of_fmap_2, list_elem_of_filter. done.
Qed.

Lemma in_edges_loop_spec todo g :
  distinct_edges g →
  NoDup (eid <$> todo) →
  (∀ e, e ∈ todo → eid e ∈ eid <$> edges g) →
  foldM (RedundantArray.redirect_in_edge in_array out_array) todo g
  = Ok (foldl (forward_spec.step d_in d_out no) g todo).
Proof.
  revert g. induction todo as [|e todo IH]; simpl; intros g Hnd Htodo Hin; [done|].
  apply NoDup_cons in Htodo as [He Htodo].
  rewrite redirect_in_edge_spec; [|done|apply Hin; by left]. simpl.
  apply IH; [|done|].
  - apply distinct_edges_step; [done|]. apply Hin. by left.
  - intros e' He'. apply eids_step; [apply Hin; by right|].
    intros Heq. apply He. rewrite <- Heq. by apply list_elem_of_fmap_2.
Qed.

End forward.

Lemma NoDup_eid_filter (P : Edge → Prop) `{∀ e, Decision (P e)} (l : list Edge) :
  NoDup (eid <$> l) → NoDup (eid <$> filter P l).
Proof.
  induction l as [|x l IH]; simpl; [done|].
  intros [Hx Hl]%NoDup_cons. rewrite filter_cons.
  destruct (decide (P x)); simpl; [|by apply IH].
  apply NoDup_cons. split; [|by apply IH].
  intros (y & Hy & [_ Hin]%list_elem_of_filter)%list_elem_of_fmap.
  apply Hx. rewrite Hy. by apply list_elem_of_fmap_2.
Qed.

(** C6. When the rule instance names two data nodes of a state whose edges
    are distinct objects, [apply] of the forward rule returns, and the state
    it leaves is the one the specification describes: for every inbound edge
    of the source node in turn, the segments of its path that name the source
    container are renamed to the destination container and the edge is
    re-pointed to the destination node with its source endpoint, connectors
    and region descriptor; then the source node is removed, and no other
    node. *)
Theorem forward_apply_performs `{GraphPaths} self config sdfg removed graph ni d_in no d_out :
  states sdfg !! state_id self = Some graph →
  nodes graph !! subgraph self _in_array = Some (AccessNode ni d_in) →
  nodes graph !! subgraph self _out_array = Some (AccessNode no d_out) →
  distinct_edges graph →
  ∃ removed',
    RedundantArray.apply self config sdfg removed
    = Ok (set_state sdfg (state_id self)
            (forward_spec.apply graph (AccessNode ni d_in) (AccessNode no d_out) d_in d_out),
          removed') ∧
    nodes (forward_spec.apply graph (AccessNode ni d_in) (AccessNode no d_out) d_in d_out)
    = filter (λ n, nid n ≠ ni) (nodes graph).
Proof.
  intros Hgraph Hin Hout Hnd. eexists. split.
  - unfold RedundantArray.apply.
    apply getitem_Ok in Hgraph, Hin, Hout. rewrite Hgraph. simpl.
    rewrite Hin, Hout. simpl.
    rewrite in_edges_loop_spec; [reflexivity|done|..].
    + by apply NoDup_eid_filter.
    + intros e [_ He]%list_elem_of_filter. by apply list_elem_of_fmap_2.
  - unfold forward_spec.apply. cbn [nodes]. f_equal.
    generalize (in_edges graph (AccessNode ni d_in)) as todo. intros todo.
    clear. revert graph. induction todo as [|e todo IH]; intros graph; simpl; [done|].
    by rewrite IH.
Qed.

Lemma forward_apply_performs_witness :
  ∃ removed',
    RedundantArray.apply (H:=scope_free) (matched 1 2) (debug false) chain no_removals
    = Ok (set_state chain 0
            (forward_spec.apply (H:=scope_free) chain_state
               (AccessNode 1 "B") (AccessNode 2 "C") "B" "C"),
          removed') ∧
    nodes (forward_spec.apply (H:=scope_free) chain_state
             (AccessNode 1 "B") (AccessNode 2 "C") "B" "C")
    = filter (λ n, nid n ≠ 1%nat) (nodes chain_state).
Proof.
  refine (forward_apply_performs (H:=scope_free) (matched 1 2) (debug false) chain no_removals
            chain_state 1 "B" 2 "C" _ _ _ _); try reflexivity.
  apply (bool_decide_unpack _). vm_compute. reflexivity.
Defined.

(** On the chain the described graph is the expected one. *)
Lemma forward_spec_chain :
  forward_spec.apply (H:=scope_free) chain_state (AccessNode 1 "B") (AccessNode 2 "C") "B" "C"
  = chain_forward_state.
Proof. vm_compute. reflexivity. Qed.
(** ** Regions of the backward rule *)

Lemma dims_min_element s : length (min_element s) = dims s.
Proof. destruct s; simpl; by rewrite ?length_fmap. Qed.

Lemma offset_bounds s other negative s' :
  offset s other negative = Ok s' →
  min_element s'
  = zip_with Z.add ((λ o, if negative then - o else o) <$> min_element other)
                   (min_element s) ∧
  max_element s'
  = zip_with Z.add ((λ o, if negative then - o else o) <$> min_element other)
                   (max_element s).
Proof.
  unfold offset. case_bool_decide; [|done]. intros [= <-].
  destruct s as [r|i]; simpl; [|done].
  generalize ((λ o, if negative then - o else o) <$> min_element other).
  clear. intros off. split.
  - revert off. induction r as [|x r IH]; intros [|o off]; simpl; f_equal; auto; lia.
  - revert off. induction r as [|x r IH]; intros [|o off]; simpl; f_equal; auto; lia.
Qed.

Lemma compose_bounds outer inner s' :
  compose outer inner = Ok s' →
  min_element s' = zip_with Z.add (min_element outer) (min_element inner) ∧
  max_element s' = zip_with Z.add (min_element outer) (max_element inner).
Proof.
  unfold compose. case_bool_decide; [|done]. intros [= <-].
  destruct inner as [r|i]; simpl; [|done].
  generalize (min_element outer). clear. intros off. split.
  - revert off. induction r as [|x r IH]; intros [|o off]; simpl; f_equal; auto; lia.
  - revert off. induction r as [|x r IH]; intros [|o off]; simpl; f_equal; auto; lia.
Qed.

Lemma min_element_box lo len : length lo = length len → min_element (box lo len) = lo.
Proof.
  unfold box. simpl. revert len.
  induction lo as [|a lo IH]; intros [|b len]; simpl; try done.
  intros [= Hlen]. f_equal. by apply IH.
Qed.

Lemma dims_box lo len : length lo = length len → dims (box lo len) = length len.
Proof. intros Hlen. rewrite <- dims_min_element, min_element_box; done. Qed.

(** Subtracting [c] from [c + d] leaves [d]; adding [a] gives [a + d]. *)
Lemma shift_back (a c d : list Z) :
  length a = length d → length c = length d →
  zip_with Z.add a (zip_with Z.add ((λ o, - o) <$> c) (zip_with Z.add c d))
  = zip_with Z.add a d.
Proof.
  revert a c. induction d as [|x d IH]; intros [|y a] [|z c]; simpl; try done.
  intros [= Ha] [= Hc]. f_equal; [lia|]. by apply IH.
Qed.

(** The arithmetic of the comment: a read at [c + d] of the destination,
    filled from [[a, a+b)] at [[c, c+b)], is a read at [a + d] of the
    producer, inside the region that was copied. *)
Lemma migrate_subset_position (a b c d : list Z) (s : Subset) :
  length a = length b → length c = length b →
  Forall2 (λ x y, 0 ≤ x < y) d b →
  at_position s (zip_with Z.add c d) →
  ∃ s', RedundantSecondArray.migrate_subset (box a b) (box c b) s = Ok s' ∧
        at_position s' (zip_with Z.add a d) ∧
        covers (box a b) s' = Ok true.
Proof.
  intros Ha Hc Hd [Hmin Hmax].
  pose proof (Forall2_length _ _ _ Hd) as Hlen.
  assert (dims s = length b) as Hdims.
  { rewrite <- dims_min_element, Hmin, length_zip_with. lia. }
  unfold RedundantSecondArray.migrate_subset.
  destruct (offset s (box c b) true) as [s1|] eqn:Hoff; simpl.
  2:{ unfold offset in Hoff. rewrite bool_decide_eq_true_2 in Hoff; [done|].
      by rewrite dims_box. }
  apply offset_bounds in Hoff as [Hmin1 Hmax1].
  rewrite min_element_box in Hmin1, Hmax1 by done. cbv beta iota in Hmin1, Hmax1.
  assert (dims s1 = length b) as Hdims1.
  { rewrite <- dims_min_element, Hmin1, length_zip_with, length_fmap, dims_min_element. lia. }
  destruct (compose (box a b) s1) as [s'|] eqn:Hcomp.
  2:{ unfold compose in Hcomp. rewrite bool_decide_eq_true_2 in Hcomp; [done|].
      by rewrite dims_box. }
  exists s'. split; [done|].
  apply compose_bounds in Hcomp as [Hmin' Hmax'].
  rewrite min_element_box in Hmin', Hmax' by done.
  rewrite Hmin1, Hmin, shift_back in Hmin' by lia.
  rewrite Hmax1, Hmax, shift_back in Hmax' by lia.
  split; [done|].
  unfold covers. rewrite bool_decide_eq_true_2.
  2:{ rewrite dims_box by done. rewrite <- dims_min_element, Hmin', length_zip_with. lia. }
  f_equal. rewrite Hmin', Hmax', andb_diag.
  clear -Ha Hd. unfold box. simpl.
  revert a Ha. induction Hd as [|x y d b Hxy Hd IH]; intros [|z a]; simpl; try done.
  intros [= Ha]. rewrite IH by done. unfold within.
  rewrite !bool_decide_eq_true_2 by lia. done.
Qed.
(** ** The loop of the backward rule *)

Lemma foldM_app {A S} (f : S → A → result S) (l1 l2 : list A) (s : S) :
  foldM f (l1 ++ l2) s = foldM f l1 s ≫= foldM f l2.
Proof.
  revert s. induction l1 as [|a l1 IH]; simpl; intros s; [done|].
  destruct (f s a) as [s1|]; simpl; [apply IH|done].
Qed.

Lemma data_node_nodes g g' i : nodes g' = nodes g → data_node g i → data_node g' i.
Proof. unfold data_node. by intros ->. Qed.

Lemma eids_remove_edge g e j :
  j ∈ eid <$> edges g → j ≠ eid e → j ∈ eid <$> edges (remove_edge g e).
Proof.
  intros (x & -> & Hx)%list_elem_of_fmap Hne.
  apply list_elem_of_fmap_2, list_elem_of_filter. done.
Qed.

Lemma eids_add_edge g u u_conn v v_conn m j :
  j ∈ eid <$> edges g → j ∈ eid <$> edges (add_edge g u u_conn v v_conn m).
Proof. intros Hj. unfold add_edge. cbn [edges]. rewrite fmap_app, elem_of_app. by left. Qed.

Section backward.
Context `{GraphPaths} `{!TreeLaws}.
Context (in_array out_array : Node) (inp_subset out_subset : Subset).

Local Abbreviation migrate_edge :=
  (RedundantSecondArray.migrate_edge in_array out_array inp_subset out_subset).
Local Abbreviation redirect_out_edge :=
  (RedundantSecondArray.redirect_out_edge in_array out_array inp_subset out_subset).

Lemma migrate_edge_other g pe g' :
  migrate_edge g pe = Ok g' →
  nodes g' = nodes g ∧ eid <$> edges g' = eid <$> edges g ∧
  ∀ i, i ≠ pe → find_edge g' i = find_edge g i.
Proof.
  assert (∀ m, nodes (update_memlet g pe m) = nodes g ∧
               eid <$> edges (update_memlet g pe m) = eid <$> edges g ∧
               ∀ i, i ≠ pe → find_edge (update_memlet g pe m) i = find_edge g i) as Hupd.
  { intros m. split; [done|]. split; [apply eids_update_memlet|].
    intros i Hi. rewrite find_edge_update_memlet. by rewrite bool_decide_eq_false_2. }
  unfold RedundantSecondArray.migrate_edge.
  destruct (find_edge g pe); [|by intros [= <-]].
  intros Hm. inv_bind Hm. case_bool_decide.
  - inv_bind Hm. injection Hm as <-. apply Hupd.
  - destruct (other_subset _); inv_bind Hm; injection Hm as <-; [apply Hupd|done].
Qed.

Lemma migrate_tree_other tree g g' :
  foldM migrate_edge tree g = Ok g' →
  nodes g' = nodes g ∧ eid <$> edges g' = eid <$> edges g ∧
  ∀ i, i ∉ tree → find_edge g' i = find_edge g i.
Proof.
  revert g. induction tree as [|pe tree IH]; simpl; intros g Hfold.
  - by injection Hfold as <-.
  - inv_bind Hfold. apply migrate_edge_other in Hx as (Hn & Hi & Hf).
    apply IH in Hfold as (Hn' & Hi' & Hf').
    split; [congruence|]. split; [congruence|].
    intros i [Hpe Htree]%not_elem_of_cons. rewrite Hf' by done. by apply Hf.
Qed.

Lemma redirect_out_edge_Ok g y g' :
  redirect_out_edge g y = Ok g' →
  ∃ g1, foldM migrate_edge (memlet_tree g y) g = Ok g1 ∧
        g' = add_edge (remove_edge g1 y) (nid in_array) (src_conn y) (dst y) (dst_conn y)
               (current_memlet g1 y).
Proof.
  unfold RedundantSecondArray.redirect_out_edge. intros Hr. inv_bind Hr.
  injection Hr as <-. by exists x.
Qed.

(** An edge that leaves a data node and is not the outgoing edge at hand
    comes out of an iteration as it went in. *)
Lemma step_keeps g y g' i x :
  redirect_out_edge g y = Ok g' →
  find_edge g i = Some x → i ≠ eid y → data_node g (src x) →
  find_edge g' i = Some x.
Proof.
  intros (g1 & Hfold & ->)%redirect_out_edge_Ok Hx Hiy Hdata.
  apply migrate_tree_other in Hfold as (_ & _ & Hf).
  rewrite find_edge_add_edge, find_edge_remove_edge.
  rewrite bool_decide_eq_false_2 by done.
  rewrite Hf, Hx; [done|].
  intros Hin. by apply (tree_inner g y i x).
Qed.

Lemma step_ids g y g' j :
  redirect_out_edge g y = Ok g' →
  j ∈ eid <$> edges g → j ≠ eid y → j ∈ eid <$> edges g'.
Proof.
  intros (g1 & Hfold & ->)%redirect_out_edge_Ok Hj Hjy.
  apply migrate_tree_other in Hfold as (_ & Hi & _).
  apply eids_add_edge, eids_remove_edge; [|done]. by rewrite Hi.
Qed.

Lemma loop_keeps todo g g' i x :
  foldM redirect_out_edge todo g = Ok g' →
  find_edge g i = Some x → data_node g (src x) →
  (∀ y, y ∈ todo → eid y ≠ i) →
  find_edge g' i = Some x.
Proof.
  revert g. induction todo as [|y todo IH]; simpl; intros g Hfold Hx Hdata Htodo.
  - by injection Hfold as <-.
  - inv_bind Hfold. apply (IH x0); [done| | |].
    + eapply step_keeps; [done..| |done]. intros ->. by apply (Htodo y); [left|].
    + eapply data_node_nodes; [|done]. by eapply redirect_out_edge_nodes.
    + intros y' Hy'. apply Htodo. by right.
Qed.

Lemma loop_ids todo g g' j :
  foldM redirect_out_edge todo g = Ok g' →
  j ∈ eid <$> edges g → (∀ y, y ∈ todo → eid y ≠ j) → j ∈ eid <$> edges g'.
Proof.
  revert g. induction todo as [|y todo IH]; simpl; intros g Hfold Hj Htodo.
  - by injection Hfold as <-.
  - inv_bind Hfold. apply (IH x); [done| |].
    + eapply step_ids; [done..|]. intros ->. by apply (Htodo y); [left|].
    + intros y' Hy'. apply Htodo. by right.
Qed.

Lemma loop_nodes todo g g' :
  foldM redirect_out_edge todo g = Ok g' → nodes g' = nodes g.
Proof.
  intros Hfold. eapply (foldM_Ok_ind (λ s, nodes s = nodes g)); [|done|exact Hfold].
  intros s e s' _ Hs Hr. apply redirect_out_edge_nodes in Hr. congruence.
Qed.

(** The iteration of an outgoing edge that names the destination
    container: its region is migrated once, and it is re-created at the
    producer. *)
Lemma step_own g e g' d_in d_out s s' :
  node_data in_array = Ok d_in → node_data out_array = Ok d_out →
  redirect_out_edge g e = Ok g' →
  find_edge g (eid e) = Some e →
  data (edata e) = d_out → subset (edata e) = Some s →
  RedundantSecondArray.migrate_subset inp_subset out_subset s = Ok s' →
  ∃ i,
    find_edge g' i
    = Some {| eid := i; src := nid in_array; src_conn := src_conn e;
              dst := dst e; dst_conn := dst_conn e;
              edata := {| data := d_in; subset := Some s';
                          other_subset := other_subset (edata e) |} |} ∧
    ∀ j, j ∈ eid <$> edges g → j ≠ eid e → j ≠ i.
Proof.
  intros Hin Hout (g2 & Hfold & ->)%redirect_out_edge_Ok He Hd Hs Hs'.
  destruct (tree_root g e) as (rest & Htree & Hrest). rewrite Htree in Hfold.
  simpl in Hfold. apply bind_Ok in Hfold as (g1 & Hg1 & Hfold).
  unfold RedundantSecondArray.migrate_edge in Hg1.
  rewrite He, Hout in Hg1. simpl in Hg1.
  rewrite bool_decide_eq_true_2, Hin, Hs in Hg1 by done. simpl in Hg1.
  rewrite Hs' in Hg1. simpl in Hg1. injection Hg1 as <-.
  apply migrate_tree_other in Hfold as (_ & Hids & Hf).
  exists (fresh_eid (remove_edge g2 e)). split.
  - rewrite find_edge_add_edge, find_edge_fresh, bool_decide_eq_true_2 by done.
    unfold current_memlet. rewrite Hf, find_edge_update_memlet by done.
    rewrite bool_decide_eq_true_2, He by done. done.
  - intros j Hj Hje Heq.
    apply (fresh_eid_not_in (remove_edge g2 e)). rewrite <- Heq.
    apply eids_remove_edge; [|done]. by rewrite Hids, eids_update_memlet.
Qed.

End backward.
(** In a state without scope nodes the laws of a memlet tree hold. *)
Lemma scope_free_laws : @TreeLaws scope_free.
Proof.
  split; simpl.
  - intros g e. exists []. split; [done|]. apply not_elem_of_nil.
  - intros g e i e' Hi%list_elem_of_singleton. done.
Qed.

(** C1. The backward rule re-expresses a read of the destination in the
    frame of the producer.  When the connecting edge copies the producer
    region [[a, a+b)] into the destination region [[c, c+b)], and an outgoing
    edge of the destination node names the destination container and reads
    position [c + d] with [0 <= d < b], then after [apply] that edge leaves
    the producer node, names the producer container, and reads position
    [a + d], inside the region that was copied; its connectors, its target
    and its other region are kept. *)
Theorem backward_region_resolves `{GraphPaths} {laws : TreeLaws}
    self config sdfg removed sdfg' removed' graph ni d_in no d_out
    (a b c d : list Z) k e s :
  states sdfg !! state_id self = Some graph →
  nodes graph !! subgraph self _in_array = Some (AccessNode ni d_in) →
  nodes graph !! subgraph self _out_array = Some (AccessNode no d_out) →
  ni ≠ no →
  distinct_edges graph →
  RedundantSecondArray.extract_subsets graph (AccessNode ni d_in) (AccessNode no d_out)
    = Ok (box a b, box c b) →
  length a = length b →
  length c = length b →
  Forall2 (λ x y, 0 ≤ x < y) d b →
  edges graph !! k = Some e →
  src e = no →
  dst e ≠ no →
  data (edata e) = d_out →
  subset (edata e) = Some s →
  at_position s (zip_with Z.add c d) →
  RedundantSecondArray.apply self config sdfg removed = Ok (sdfg', removed') →
  ∃ graph' i s',
    states sdfg' !! state_id self = Some graph' ∧
    {| eid := i; src := ni; src_conn := src_conn e; dst := dst e; dst_conn := dst_conn e;
       edata := {| data := d_in; subset := Some s';
                   other_subset := other_subset (edata e) |} |} ∈ edges graph' ∧
    at_position s' (zip_with Z.add a d) ∧
    covers (box a b) s' = Ok true.
Proof.
  intros Hgraph Hin Hout Hne Hnd Hext Ha Hc Hd Hk Hsrc Hdst Hdata Hs Hpos Happly.
  apply list_elem_of_lookup_2 in Hk.
  apply RedundantSecondArray_apply_Ok in Happly
    as (g & i & o & inp & outs & g3 & Hg & Hi & Ho & Hext' & Hfold & -> & _).
  rewrite Hgraph in Hg. injection Hg as <-.
  rewrite Hin in Hi. injection Hi as <-.
  rewrite Hout in Ho. injection Ho as <-.
  rewrite Hext in Hext'. injection Hext' as <- <-.
  destruct (migrate_subset_position a b c d s Ha Hc Hd Hpos) as (s' & Hs' & Hpos' & Hcov).
  (* the outgoing edges before and after [e] *)
  assert (e ∈ out_edges graph (AccessNode no d_out)) as Hout_e
    by by apply list_elem_of_filter.
  apply list_elem_of_split in Hout_e as (pre & post & Hsplit).
  assert (NoDup (eid <$> pre ++ e :: post)) as Hids.
  { rewrite <- Hsplit. by apply NoDup_eid_filter. }
  rewrite fmap_app, fmap_cons in Hids.
  apply NoDup_app in Hids as (_ & Hpre & [Hpost _]%NoDup_cons).
  assert (∀ y, y ∈ pre ++ e :: post → eid y ∈ eid <$> edges graph) as Hpresent.
  { intros y Hy. rewrite <- Hsplit in Hy. apply list_elem_of_filter in Hy as [_ Hy].
    by apply list_elem_of_fmap_2. }
  rewrite Hsplit, foldM_app in Hfold. simpl in Hfold.
  apply bind_Ok in Hfold as (g1 & Hg1 & Hfold).
  apply bind_Ok in Hfold as (g2 & Hg2 & Hfold).
  assert (data_node graph no) as Hdata_out.
  { exists (AccessNode no d_out). split; [by eapply list_elem_of_lookup_2|done]. }
  assert (data_node graph ni) as Hdata_in.
  { exists (AccessNode ni d_in). split; [by eapply list_elem_of_lookup_2|done]. }
  (* [e] is as it was when its turn comes *)
  assert (find_edge g1 (eid e) = Some e) as He1.
  { eapply loop_keeps; [exact Hg1|by apply find_edge_distinct|by rewrite Hsrc|].
    intros y Hy Heq. apply (Hpre (eid y)); [by apply list_elem_of_fmap_2|].
    rewrite Heq. by left. }
  pose proof (loop_nodes _ _ _ _ _ _ _ Hg1) as Hn1.
  (* its own iteration *)
  destruct (step_own (AccessNode ni d_in) (AccessNode no d_out) (box a b) (box c b)
              g1 e g2 d_in d_out s s' eq_refl eq_refl Hg2 He1 Hdata Hs Hs')
    as (i & Hi & Hfresh).
  pose proof (redirect_out_edge_nodes _ _ _ _ _ _ _ Hg2) as Hn2.
  (* the new edge survives the rest of the loop and the removal of the node *)
  assert (find_edge g3 i = Some
            {| eid := i; src := ni; src_conn := src_conn e; dst := dst e;
               dst_conn := dst_conn e;
               edata := {| data := d_in; subset := Some s';
                           other_subset := other_subset (edata e) |} |}) as Hi3.
  { eapply loop_keeps; [exact Hfold|exact Hi| |].
    - simpl. eapply data_node_nodes; [|exact Hdata_in]. congruence.
    - intros y Hy Heq. apply (Hfresh (eid y)); [| |done].
      + eapply loop_ids; [exact Hg1| |].
        * apply Hpresent. apply elem_of_app. right. by right.
        * intros y' Hy' Heq'. apply (Hpre (eid y')); [by apply list_elem_of_fmap_2|].
          rewrite Heq'. right. by apply list_elem_of_fmap_2.
      + intros Heq'. apply Hpost. rewrite <- Heq'. by apply list_elem_of_fmap_2. }
  apply find_edge_Some in Hi3 as [Hi3 _].
  exists (remove_node g3 (AccessNode no d_out)), i, s'.
  split; [|split; [|done]].
  - simpl. apply list_lookup_insert_eq. by eapply lookup_lt_Some.
  - simpl. apply list_elem_of_filter. simpl. done.
Qed.

Lemma backward_region_resolves_witness :
  ∃ graph' i s',
    states element_backward !! 0%nat = Some graph' ∧
    {| eid := i; src := 0; src_conn := None; dst := 2; dst_conn := Some "_inp";
       edata := {| data := "A"; subset := Some s'; other_subset := None |} |}
      ∈ edges graph' ∧
    at_position s' (zip_with Z.add [1; 1] [2; 1]) ∧
    covers (box [1; 1] [4; 4]) s' = Ok true.
Proof.
  refine (backward_region_resolves (H:=scope_free) (laws:=scope_free_laws)
            (matched 0 1) (debug false) element no_removals element_backward no_removals
            element_state 0 "A" 1 "C" [1; 1] [4; 4] [2; 2] [2; 1] 1
            (edge 1 1 None 2 (Some "_inp") (simple "C" [slice 4 5; slice 3 4] None))
            (Range [slice 4 5; slice 3 4])
            _ _ _ _ _ _ _ _ _ _ _ _ _ _ _ _); try reflexivity; try discriminate.
  - apply (bool_decide_unpack _). vm_compute. reflexivity.
  - repeat constructor; lia.
  - split; reflexivity.
Defined.
(** ** The forward rule on a state without scope nodes *)

Lemma filter_all {A} (P : A → Prop) `{∀ x, Decision (P x)} (l : list A) :
  (∀ x, x ∈ l → P x) → filter P l = l.
Proof.
  induction l as [|x l IH]; intros Hall; [done|].
  rewrite filter_cons, decide_True by (apply Hall; by left).
  f_equal. apply IH. intros y Hy. apply Hall. by right.
Qed.

Lemma filter_ext_in {A} (P Q : A → Prop) `{∀ x, Decision (P x)} `{∀ x, Decision (Q x)}
    (l : list A) :
  (∀ x, x ∈ l → P x ↔ Q x) → filter P l = filter Q l.
Proof.
  induction l as [|x l IH]; intros Hall; [done|].
  rewrite !filter_cons, IH by (intros y Hy; apply Hall; by right).
  destruct (decide (P x)) as [HP|HP], (decide (Q x)) as [HQ|HQ]; try done.
  - by apply Hall in HP; [|left].
  - by apply Hall in HQ; [|left].
Qed.

Lemma filter_strip (P Q : Edge → Prop) `{∀ x, Decision (P x)} `{∀ x, Decision (Q x)}
    (l1 l2 : list Edge) :
  (∀ x y, forward_spec.strip x = forward_spec.strip y → P x ↔ Q y) →
  forward_spec.strip <$> l1 = forward_spec.strip <$> l2 →
  forward_spec.strip <$> filter P l1 = forward_spec.strip <$> filter Q l2.
Proof.
  intros HPQ. revert l2. induction l1 as [|x l1 IH]; intros [|y l2]; try done.
  rewrite !fmap_cons. intros Heq.
  assert (forward_spec.strip x = forward_spec.strip y ∧
          forward_spec.strip <$> l1 = forward_spec.strip <$> l2) as [Hxy Hl]
    by (split; congruence).
  rewrite !filter_cons.
  destruct (decide (P x)) as [HP|HP], (decide (Q y)) as [HQ|HQ].
  - rewrite !fmap_cons. f_equal; [done|by apply IH].
  - by apply (HPQ x y Hxy) in HP.
  - by apply (HPQ x y Hxy) in HQ.
  - by apply IH.
Qed.

Section forward_scope_free.
Context (ni : nat) (d_in : string) (no : nat) (d_out : string).

Local Abbreviation step := (forward_spec.step (H:=scope_free) d_in d_out no).
Local Abbreviation retarget := (forward_spec.retarget d_in d_out no).

Lemma filter_rename_other e g :
  filter (λ e', eid e' ≠ eid e)
    (edges (forward_spec.rename_segments d_in d_out [eid e] g))
  = filter (λ e', eid e' ≠ eid e) (edges g).
Proof.
  unfold forward_spec.rename_segments. cbn [edges].
  induction (edges g) as [|x l IH]; [done|].
  rewrite fmap_cons, !filter_cons, IH.
  case_bool_decide as Hx.
  - destruct Hx as [Hx%list_elem_of_singleton _]. simpl.
    by rewrite !decide_False by (intros Hne; by apply Hne).
  - done.
Qed.

Lemma filter_rename_own e g :
  distinct_edges g → e ∈ edges g →
  filter (λ e', eid e' = eid e)
    (edges (forward_spec.rename_segments d_in d_out [eid e] g))
  = [if bool_decide (data (edata e) = d_in)
     then set_edata (set_data d_out (edata e)) e else e].
Proof.
  intros Hnd He. unfold forward_spec.rename_segments. cbn [edges].
  rewrite filter_fmap_eid by (intros x; by case_bool_decide).
  pose proof (find_edge_distinct _ _ Hnd He) as Hf.
  rewrite (filter_eid_distinct _ _ _ Hnd Hf). simpl. f_equal.
  apply (f_equal (λ b : bool, if b then _ else _)).
  apply bool_decide_ext. split; [by intros [_ ?]|]. intros ?. split; [by left|done].
Qed.

Lemma step_edges g e :
  distinct_edges g → e ∈ edges g →
  ∃ i, (i ∉ eid <$> filter (λ e', eid e' ≠ eid e) (edges g)) ∧
       edges (step g e)
       = filter (λ e', eid e' ≠ eid e) (edges g) ++
         [ {| eid := i; src := src e; src_conn := src_conn e; dst := no;
              dst_conn := dst_conn e; edata := edata (retarget e) |} ].
Proof.
  intros Hnd He. unfold forward_spec.step, forward_spec.redirect.
  cbn [edges memlet_path scope_free].
  rewrite filter_rename_other, filter_rename_own by done.
  eexists. split; [|f_equal; simpl; f_equal; f_equal; by case_bool_decide].
  intros Hin%max_list_elem_of_le. lia.
Qed.

Lemma loop_edges todo g :
  distinct_edges g → NoDup (eid <$> todo) → (∀ e, e ∈ todo → e ∈ edges g) →
  ∃ news,
    edges (foldl step g todo)
    = filter (λ e, eid e ∉ eid <$> todo) (edges g) ++ news ∧
    forward_spec.strip <$> news = forward_spec.strip <$> (retarget <$> todo).
Proof.
  revert g. induction todo as [|e todo IH]; intros g Hnd Htodo Hin.
  - exists []. split; [|done]. simpl. rewrite app_nil_r.
    symmetry. apply filter_all. intros x _. apply not_elem_of_nil.
  - rewrite fmap_cons in Htodo. apply NoDup_cons in Htodo as [He Htodo].
    assert (e ∈ edges g) as Heg by (apply Hin; by left).
    destruct (step_edges g e Hnd Heg) as (i & Hi & Hstep).
    destruct (IH (step g e)) as (news & Hedges & Hnews).
    + apply distinct_edges_step; [done|]. by apply list_elem_of_fmap_2.
    + done.
    + intros e' He'. rewrite Hstep. apply elem_of_app. left.
      apply list_elem_of_filter. split; [|apply Hin; by right].
      intros Heq. apply He. rewrite <- Heq. by apply list_elem_of_fmap_2.
    + cbn [foldl]. rewrite Hedges, Hstep, filter_app, list_filter_filter.
      rewrite filter_cons, filter_nil, decide_True.
      2:{ cbn [eid]. intros (e' & -> & He')%list_elem_of_fmap. apply Hi.
          apply list_elem_of_fmap_2, list_elem_of_filter. split; [|apply Hin; by right].
          intros Heq. apply He. rewrite <- Heq. by apply list_elem_of_fmap_2. }
      eexists (_ :: news). split.
      * rewrite <- app_assoc. simpl. f_equal.
        apply list_filter_iff. intros x. rewrite not_elem_of_cons. tauto.
      * rewrite !fmap_cons, Hnews. done.
Qed.

(** The graph the specification describes, edge by edge: the edges that
    do not touch the source node are kept as they are, and every inbound
    edge of the source node, retargeted, follows them. *)
Lemma forward_apply_scope_free g :
  distinct_edges g → ni ≠ no →
  forward_spec.strip <$> edges (forward_spec.apply (H:=scope_free) g
                                  (AccessNode ni d_in) (AccessNode no d_out) d_in d_out)
  = forward_spec.strip <$>
      (filter (λ e, src e ≠ ni ∧ dst e ≠ ni) (edges g)
       ++ (retarget <$> filter (λ e, dst e = ni ∧ src e ≠ ni) (edges g))).
Proof.
  intros Hnd Hne. unfold forward_spec.apply. cbn [edges nid].
  destruct (loop_edges (in_edges g (AccessNode ni d_in)) g Hnd) as (news & -> & Hnews).
  { by apply NoDup_eid_filter. }
  { by intros e [_ He]%list_elem_of_filter. }
  rewrite filter_app, !fmap_app. f_equal.
  - f_equal. rewrite list_filter_filter. apply filter_ext_in. intros e He.
    split; [tauto|]. intros [Hs Hd]. split; [done|].
    intros (e' & Heq & [Hd' He']%list_elem_of_filter)%list_elem_of_fmap.
    pose proof (find_edge_distinct _ _ Hnd He) as Hf.
    pose proof (find_edge_distinct _ _ Hnd He') as Hf'.
    rewrite Heq, Hf' in Hf. injection Hf as ->. done.
  - assert (∀ x y, forward_spec.strip x = forward_spec.strip y →
              (src x ≠ ni ∧ dst x ≠ ni) ↔ (src y ≠ ni ∧ dst y ≠ ni)) as Hsame.
    { intros x y Hxy. unfold forward_spec.strip in Hxy.
      assert (src x = src y ∧ dst x = dst y) as [-> ->] by (split; congruence). done. }
    rewrite (filter_strip (λ e, src e ≠ ni ∧ dst e ≠ ni) (λ e, src e ≠ ni ∧ dst e ≠ ni)
               _ _ Hsame Hnews).
    f_equal. unfold in_edges. cbn [nid].
    induction (edges g) as [|x l IH]; [done|].
    rewrite !filter_cons.
    destruct (decide (dst x = ni)) as [Hx|Hx].
    + rewrite fmap_cons, filter_cons. cbn [forward_spec.retarget src dst].
      destruct (decide (src x ≠ ni)) as [Hsx|Hsx].
      * rewrite decide_True, decide_True by done. rewrite fmap_cons. by f_equal.
      * rewrite decide_False, decide_False by tauto. done.
    + rewrite decide_False by tauto. done.
Qed.

End forward_scope_free.
(** * Further properties *)

(** ** What a match guarantees *)

Lemma existsb_zip_agree (l1 l2 : list Z) :
  existsb (λ '(m, a), bool_decide (m ≠ a)) (zip l1 l2) = false ↔
  ∀ i m a, l1 !! i = Some m → l2 !! i = Some a → m = a.
Proof.
  revert l2. induction l1 as [|x l1 IH]; intros l2.
  { split; [by intros _ []|done]. }
  destruct l2 as [|y l2].
  { split; [by intros _ [|?]|done]. }
  simpl. rewrite orb_false_iff, IH, bool_decide_eq_false. split.
  - intros [Hxy Hall] [|i] m a; simpl; [|by apply Hall].
    intros [= <-] [= <-]. by apply dec_stable.
  - intros Hall. split; [|intros i; apply (Hall (S i))].
    intros Hne. apply Hne. by apply (Hall 0%nat).
Qed.

Lemma same_length_agree (l1 l2 : list Z) :
  length l1 = length l2 →
  (∀ i m a, l1 !! i = Some m → l2 !! i = Some a → m = a) → l1 = l2.
Proof.
  intros Hlen Hall. apply list_eq_same_length with (length l1); [done..|].
  intros i m a _. apply Hall.
Qed.

(** X1. What the forward check decides.  For a candidate that resolves to two
    nodes with descriptors, in a program whose data nodes are registered,
    [can_be_applied] returns true exactly when the source node has one
    outgoing edge, its container is transient, both containers have the same
    storage, class and shape, no second data node of the program has the
    descriptor of the source, and, in strict mode, the first edge between the
    two nodes has a region whose sizes agree with the shape dimension by
    dimension. *)
Theorem forward_check_decides graph candidate expr_index sdfg strict
    in_array out_array in_desc out_desc :
  registered sdfg = true →
  nodes graph !! candidate _in_array = Some in_array →
  nodes graph !! candidate _out_array = Some out_array →
  desc in_array sdfg = Ok in_desc →
  desc out_array sdfg = Ok out_desc →
  RedundantArray.can_be_applied graph candidate expr_index sdfg strict = Ok true ↔
  out_degree graph in_array = 1%nat ∧
  transient in_desc = true ∧
  storage in_desc = storage out_desc ∧
  type in_desc = type out_desc ∧
  (length (occurrences_of sdfg in_desc) ≤ 1)%nat ∧
  shape in_desc = shape out_desc ∧
  (strict = true →
   ∃ e s, edges_between graph in_array out_array !! 0%nat = Some e ∧
          subset (edata e) = Some s ∧
          ∀ i m a, size s !! i = Some m → shape in_desc !! i = Some a → m = a).
Proof.
  intros Hreg Hin Hout Hdin Hdout.
  apply getitem_Ok in Hin, Hout.
  unfold RedundantArray.can_be_applied.
  rewrite Hin, Hout. simpl. rewrite Hdin, Hdout. simpl.
  rewrite (find_occurrences_registered _ _ Hreg). simpl.
  fold (occurrences_of sdfg in_desc).
  case_bool_decide as Hdeg; [split; [done|]; by intros (?&_)|].
  destruct (transient in_desc) eqn:Htr; simpl; [|split; [done|]; by intros (_&?&_)].
  case_bool_decide as Hst; [split; [done|]; by intros (_&_&?&_)|].
  case_bool_decide as Hty; [split; [done|]; by intros (_&_&_&?&_)|].
  case_bool_decide as Hocc; [split; [done|]; intros (_&_&_&_&?&_); lia|].
  destruct (_ || _) eqn:Hshape.
  { split; [done|]. intros (_&_&_&_&_&Heq&_). exfalso. rewrite Heq in Hshape.
    apply orb_true_iff in Hshape as [Hs|Hs].
    - by apply bool_decide_eq_true in Hs.
    - apply not_false_iff_true in Hs. apply Hs, existsb_zip_agree. congruence. }
  apply orb_false_iff in Hshape as [Hlen Hzip].
  apply bool_decide_eq_false in Hlen. apply dec_stable in Hlen.
  assert (shape in_desc = shape out_desc) as Hsh.
  { apply same_length_agree; [done|]. by apply existsb_zip_agree. }
  destruct strict.
  - destruct (edges_between graph in_array out_array) as [|e es]; simpl.
    { split; [done|]. intros (_&_&_&_&_&_&He). by destruct He as (e&s&?&_). }
    destruct (subset (edata e)) as [s|] eqn:Hsub; simpl.
    2:{ split; [done|]. intros (_&_&_&_&_&_&He). destruct He as (e'&s&?&?&_); [done|].
        simplify_eq. }
    destruct (existsb _ (zip (size s) _)) eqn:Hex.
    + split; [done|]. intros (_&_&_&_&_&_&He). destruct He as (e'&s'&?&?&Hall); [done|].
      simplify_eq. apply existsb_zip_agree in Hall. congruence.
    + split; [|done]. intros _. split_and!; try done; [lia|].
      intros _. exists e, s. split_and!; try done. by apply existsb_zip_agree.
  - split; [|done]. intros _. split_and!; try done. lia.
Qed.

Lemma forward_check_decides_witness :
  out_degree chain_state (AccessNode 1 "B") = 1%nat ∧
  transient (array 1 [3; 3] true) = true ∧
  storage (array 1 [3; 3] true) = storage (array 2 [3; 3] true) ∧
  type (array 1 [3; 3] true) = type (array 2 [3; 3] true) ∧
  (length (occurrences_of chain (array 1 [3; 3]%Z true)) ≤ 1)%nat ∧
  shape (array 1 [3; 3] true) = shape (array 2 [3; 3] true) ∧
  (true = true →
   ∃ e s, edges_between chain_state (AccessNode 1 "B") (AccessNode 2 "C") !! 0%nat = Some e ∧
          subset (edata e) = Some s ∧
          ∀ i m a, size s !! i = Some m → shape (array 1 [3; 3] true) !! i = Some a → m = a).
Proof.
  refine (proj1 (forward_check_decides chain_state (bind_roles 1 2) 0 chain true
                   (AccessNode 1 "B") (AccessNode 2 "C")
                   (array 1 [3; 3] true) (array 2 [3; 3] true) _ _ _ _ _) _);
    vm_compute; reflexivity.
Defined.

Lemma check_out_edges_Ok_true out_array out_subset es :
  RedundantSecondArray.check_out_edges out_array out_subset es = Ok true ↔
  ∀ e, e ∈ es →
    ∃ s, RedundantSecondArray.out_edge_subset out_array e = Ok (Some s) ∧
         covers out_subset s = Ok true.
Proof.
  induction es as [|e es IH]; simpl.
  { split; [by intros _ ? ?%elem_of_nil|done]. }
  split.
  - intros Hcheck. inv_bind Hcheck.
    destruct x as [s|]; simpl in Hx0; [injection Hx0 as <-|done].
    destruct x1; simpl in Hcheck; [|done].
    intros e' [->|He']%elem_of_cons; [by exists s|]. by apply IH.
  - intros Hall. destruct (Hall e) as (s & -> & Hs); [by left|]. simpl.
    rewrite Hs. simpl. apply IH. intros e' He'. apply Hall. by right.
Qed.

(** X2. What the backward check decides.  For a candidate that resolves to
    two nodes with descriptors, whose connecting edge gives the two regions,
    in a program whose data nodes are registered, [can_be_applied] returns
    true exactly when the destination node has one incoming edge, its
    container is transient, both containers have the same storage and class,
    no second data node of the program has the descriptor of the destination,
    and either the copy has as many elements as the destination container or
    every outgoing edge of the destination node carries a region that the
    destination side of the copy covers. *)
Theorem backward_check_decides graph candidate expr_index sdfg strict
    in_array out_array in_desc out_desc inp_subset out_subset :
  registered sdfg = true →
  nodes graph !! candidate _in_array = Some in_array →
  nodes graph !! candidate _out_array = Some out_array →
  desc in_array sdfg = Ok in_desc →
  desc out_array sdfg = Ok out_desc →
  RedundantSecondArray.extract_subsets graph in_array out_array
    = Ok (inp_subset, out_subset) →
  RedundantSecondArray.can_be_applied graph candidate expr_index sdfg strict = Ok true ↔
  in_degree graph out_array = 1%nat ∧
  transient out_desc = true ∧
  storage in_desc = storage out_desc ∧
  type in_desc = type out_desc ∧
  (length (occurrences_of sdfg out_desc) ≤ 1)%nat ∧
  (num_elements inp_subset = prod (shape out_desc) ∨
   ∀ e, e ∈ out_edges graph out_array →
     ∃ s, RedundantSecondArray.out_edge_subset out_array e = Ok (Some s) ∧
          covers out_subset s = Ok true).
Proof.
  intros Hreg Hin Hout Hdin Hdout Hext.
  apply getitem_Ok in Hin, Hout.
  unfold RedundantSecondArray.can_be_applied.
  rewrite Hin, Hout. simpl. rewrite Hdin, Hdout. simpl.
  rewrite (find_occurrences_registered _ _ Hreg). simpl.
  fold (occurrences_of sdfg out_desc). rewrite Hext. simpl.
  case_bool_decide as Hdeg; [split; [done|]; by intros (?&_)|].
  destruct (transient out_desc) eqn:Htr; simpl; [|split; [done|]; by intros (_&?&_)].
  case_bool_decide as Hst; [split; [done|]; by intros (_&_&?&_)|].
  case_bool_decide as Hty; [split; [done|]; by intros (_&_&_&?&_)|].
  case_bool_decide as Hocc; [split; [done|]; intros (_&_&_&_&?&_); lia|].
  case_bool_decide as Hsize.
  { split; [|done]. intros _. split_and!; try done; [lia|by left]. }
  rewrite check_out_edges_Ok_true. split.
  - intros Hall. split_and!; try done; [lia|by right].
  - by intros (_&_&_&_&_&[?|?]).
Qed.

Lemma backward_check_decides_witness :
  in_degree out_3_state (AccessNode 1 "C") = 1%nat ∧
  transient (array 1 [6; 6] true) = true ∧
  storage (array 0 [5; 5] false) = storage (array 1 [6; 6] true) ∧
  type (array 0 [5; 5] false) = type (array 1 [6; 6] true) ∧
  (length (occurrences_of out_3 (array 1 [6; 6]%Z true)) ≤ 1)%nat ∧
  (num_elements (Range [slice 1 5; slice 1 5]) = prod (shape (array 1 [6; 6] true)) ∨
   ∀ e, e ∈ out_edges out_3_state (AccessNode 1 "C") →
     ∃ s, RedundantSecondArray.out_edge_subset (AccessNode 1 "C") e = Ok (Some s) ∧
          covers (Range [slice 2 6; slice 2 6]) s = Ok true).
Proof.
  refine (proj1 (backward_check_decides out_3_state (bind_roles 0 1) 0 out_3 true
                   (AccessNode 0 "A") (AccessNode 1 "C")
                   (array 0 [5; 5] false) (array 1 [6; 6] true)
                   (Range [slice 1 5; slice 1 5]) (Range [slice 2 6; slice 2 6])
                   _ _ _ _ _ _) _);
    vm_compute; reflexivity.
Defined.

(** ** The connecting edge is the only use *)

Lemma filter_length_one {A} (P : A → Prop) `{∀ x, Decision (P x)} (l : list A) (x : A) :
  length (filter P l) = 1%nat → x ∈ l → P x → filter P l = [x].
Proof.
  intros Hlen Hx HP.
  assert (x ∈ filter P l) as Hin by by apply list_elem_of_filter.
  destruct (filter P l) as [|y [|z ys]]; simplify_eq/=.
  by apply list_elem_of_singleton in Hin as ->.
Qed.

Lemma forward_check_out_degree graph candidate expr_index sdfg strict in_array :
  RedundantArray.can_be_applied graph candidate expr_index sdfg strict = Ok true →
  nodes graph !! candidate _in_array = Some in_array →
  out_degree graph in_array = 1%nat.
Proof.
  unfold RedundantArray.can_be_applied. intros Hcheck Hin. inv_bind Hcheck.
  apply getitem_Ok in Hx. rewrite Hin in Hx. injection Hx as <-.
  by case_bool_decide.
Qed.

Lemma backward_check_in_degree graph candidate expr_index sdfg strict out_array :
  RedundantSecondArray.can_be_applied graph candidate expr_index sdfg strict = Ok true →
  nodes graph !! candidate _out_array = Some out_array →
  in_degree graph out_array = 1%nat.
Proof.
  unfold RedundantSecondArray.can_be_applied. intros Hcheck Hout. inv_bind Hcheck.
  apply getitem_Ok in Hx0. rewrite Hout in Hx0. injection Hx0 as <-.
  by case_bool_decide.
Qed.

Lemma edges_between_sole graph in_array out_array e l :
  src e = nid in_array → dst e = nid out_array →
  (filter (λ e', src e' = nid in_array) (edges graph) = l ∨
   filter (λ e', dst e' = nid out_array) (edges graph) = l) →
  l = [e] → edges_between graph in_array out_array = [e].
Proof.
  intros Hsrc Hdst Hside ->. unfold edges_between.
  assert (filter (λ e', src e' = nid in_array ∧ dst e' = nid out_array) [e] = [e]) as Hone
    by by rewrite filter_cons, decide_True, filter_nil.
  destruct Hside as [Hl|Hl]; rewrite <- Hl in Hone at 1;
    by rewrite list_filter_filter_l in Hone by tauto.
Qed.

(** X3. A forward match leaves no other reader of the node to be removed:
    when the candidate names the two ends of an edge [e] of the graph and the
    forward check returns true, [e] is the only edge that leaves the source
    node, and so it is the whole of [edges_between(in_array, out_array)],
    whose element 0 the rule inspects. *)
Theorem forward_match_sole_reader graph candidate expr_index sdfg strict
    in_array out_array k e :
  nodes graph !! candidate _in_array = Some in_array →
  nodes graph !! candidate _out_array = Some out_array →
  edges graph !! k = Some e →
  src e = nid in_array →
  dst e = nid out_array →
  RedundantArray.can_be_applied graph candidate expr_index sdfg strict = Ok true →
  out_edges graph in_array = [e] ∧ edges_between graph in_array out_array = [e].
Proof.
  intros Hin Hout Hk%list_elem_of_lookup_2 Hsrc Hdst Hcheck.
  apply forward_check_out_degree with (in_array := in_array) in Hcheck; [|done].
  pose proof (filter_length_one _ _ e Hcheck Hk Hsrc) as Hout_edges.
  split; [done|]. by eapply edges_between_sole; [| |left; exact Hout_edges|].
Qed.

Lemma forward_match_sole_reader_witness :
  out_edges chain_state (AccessNode 1 "B") =
    [edge 1 1 None 2 None (simple "B" [slice 0 3; slice 0 3] None)] ∧
  edges_between chain_state (AccessNode 1 "B") (AccessNode 2 "C") =
    [edge 1 1 None 2 None (simple "B" [slice 0 3; slice 0 3] None)].
Proof.
  refine (forward_match_sole_reader chain_state (bind_roles 1 2) 0 chain true
            (AccessNode 1 "B") (AccessNode 2 "C") 1 _ _ _ _ _ _ _); reflexivity.
Defined.

(** X4. A backward match leaves no other writer of the node to be removed:
    when the candidate names the two ends of an edge [e] of the graph and the
    backward check returns true, [e] is the only edge that enters the
    destination node, and so it is the whole of
    [edges_between(in_array, out_array)], from which the rule takes the two
    regions of the copy. *)
Theorem backward_match_sole_writer graph candidate expr_index sdfg strict
    in_array out_array k e :
  nodes graph !! candidate _in_array = Some in_array →
  nodes graph !! candidate _out_array = Some out_array →
  edges graph !! k = Some e →
  src e = nid in_array →
  dst e = nid out_array →
  RedundantSecondArray.can_be_applied graph candidate expr_index sdfg strict = Ok true →
  in_edges graph out_array = [e] ∧ edges_between graph in_array out_array = [e].
Proof.
  intros Hin Hout Hk%list_elem_of_lookup_2 Hsrc Hdst Hcheck.
  apply backward_check_in_degree with (out_array := out_array) in Hcheck; [|done].
  pose proof (filter_length_one _ _ e Hcheck Hk Hdst) as Hin_edges.
  split; [done|]. by eapply edges_between_sole; [| |right; exact Hin_edges|].
Qed.

Lemma backward_match_sole_writer_witness :
  in_edges out_3_state (AccessNode 1 "C") =
    [edge 0 0 None 1 None
       (simple "A" [slice 1 5; slice 1 5] (Some [slice 2 6; slice 2 6]))] ∧
  edges_between out_3_state (AccessNode 0 "A") (AccessNode 1 "C") =
    [edge 0 0 None 1 None
       (simple "A" [slice 1 5; slice 1 5] (Some [slice 2 6; slice 2 6]))].
Proof.
  refine (backward_match_sole_writer out_3_state (bind_roles 0 1) 0 out_3 true
            (AccessNode 0 "A") (AccessNode 1 "C") 0 _ _ _ _ _ _ _); reflexivity.
Defined.

(** ** The node a rule names is the node it removes *)

Lemma remove_by_nid_length (l : list Node) (gone : Node) :
  NoDup (nid <$> l) → gone ∈ l →
  S (length (filter (λ n, nid n ≠ nid gone) l)) = length l ∧
  ∀ n, n ∈ l → n ≠ gone → nid n ≠ nid gone.
Proof.
  intros Hnd Hgone. split.
  - induction l as [|n l IH]; [by apply elem_of_nil in Hgone|].
    rewrite fmap_cons in Hnd. apply NoDup_cons in Hnd as [Hn Hnd].
    rewrite filter_cons. apply elem_of_cons in Hgone as [<-|Hgone].
    + rewrite decide_False by (intros Hne; by apply Hne). simpl. f_equal. f_equal.
      apply filter_all. intros n Hin Heq. apply Hn. rewrite <- Heq.
      by apply list_elem_of_fmap_2.
    + rewrite decide_True.
      * simpl. f_equal. by apply IH.
      * intros Heq. apply Hn. rewrite Heq. by apply list_elem_of_fmap_2.
  - intros n Hn Hne Heq. apply Hne.
    apply list_elem_of_lookup_1 in Hn as [i Hi], Hgone as [j Hj].
    assert (i = j) as ->; [|congruence].
    eapply NoDup_lookup; [exact Hnd| |]; rewrite list_lookup_fmap.
    + by rewrite Hi.
    + rewrite Hj. simpl. by rewrite Heq.
Qed.

Section removed_nodes.
Context `{GraphPaths}.

Lemma forward_apply_nodes self config sdfg removed sdfg' removed' graph gone :
  RedundantArray.apply self config sdfg removed = Ok (sdfg', removed') →
  states sdfg !! state_id self = Some graph →
  nodes graph !! subgraph self _in_array = Some gone →
  ∃ graph', states sdfg' !! state_id self = Some graph' ∧
            nodes graph' = filter (λ n, nid n ≠ nid gone) (nodes graph).
Proof.
  intros Ha Hgraph Hgone.
  apply RedundantArray_apply_Ok in Ha as (g&i&o&g1&Hg&Hi&Ho&Hfold&->&_).
  rewrite Hgraph in Hg. injection Hg as <-.
  rewrite Hgone in Hi. injection Hi as <-.
  exists (remove_node g1 gone). split.
  - simpl. apply list_lookup_insert_eq. by eapply lookup_lt_Some.
  - simpl. f_equal.
    eapply (foldM_Ok_ind (λ s, nodes s = nodes graph)); [|done|exact Hfold].
    intros s e s' _ Hs Hr. apply redirect_in_edge_nodes in Hr. congruence.
Qed.

Lemma backward_apply_nodes self config sdfg removed sdfg' removed' graph gone :
  RedundantSecondArray.apply self config sdfg removed = Ok (sdfg', removed') →
  states sdfg !! state_id self = Some graph →
  nodes graph !! subgraph self _out_array = Some gone →
  ∃ graph', states sdfg' !! state_id self = Some graph' ∧
            nodes graph' = filter (λ n, nid n ≠ nid gone) (nodes graph).
Proof.
  intros Ha Hgraph Hgone.
  apply RedundantSecondArray_apply_Ok in Ha as (g&i&o&?&?&g1&Hg&Hi&Ho&_&Hfold&->&_).
  rewrite Hgraph in Hg. injection Hg as <-.
  rewrite Hgone in Ho. injection Ho as <-.
  exists (remove_node g1 gone). split.
  - simpl. apply list_lookup_insert_eq. by eapply lookup_lt_Some.
  - simpl. f_equal.
    eapply (foldM_Ok_ind (λ s, nodes s = nodes graph)); [|done|exact Hfold].
    intros s e s' _ Hs Hr. apply redirect_out_edge_nodes in Hr. congruence.
Qed.

End removed_nodes.

(** X5. The description of a match names the node its application removes.
    When [match_to_str] of a rule returns a message for the candidate of a
    rule instance and [apply] of that instance succeeds on a state whose
    nodes are distinct objects, the message is ["Remove "] followed by the
    string of a node [gone] of the state; after [apply] the state has one
    node fewer, [gone] is not among them, and every other node still is. *)
Theorem match_to_str_names_removed `{GraphPaths} (str : Node → string)
    self config sdfg removed sdfg' removed' graph msg :
  states sdfg !! state_id self = Some graph →
  distinct_nodes graph →
  (RedundantArray.match_to_str str graph (subgraph self) = Ok msg ∧
   RedundantArray.apply self config sdfg removed = Ok (sdfg', removed')) ∨
  (RedundantSecondArray.match_to_str str graph (subgraph self) = Ok msg ∧
   RedundantSecondArray.apply self config sdfg removed = Ok (sdfg', removed')) →
  ∃ gone graph',
    msg = "Remove " +:+ str gone ∧
    states sdfg' !! state_id self = Some graph' ∧
    gone ∈ nodes graph ∧
    (gone ∉ nodes graph') ∧
    (∀ n, n ∈ nodes graph → n ≠ gone → n ∈ nodes graph') ∧
    S (length (nodes graph')) = length (nodes graph).
Proof.
  intros Hgraph Hnd Hrule.
  assert (∃ gone graph', msg = "Remove " +:+ str gone ∧ gone ∈ nodes graph ∧
            states sdfg' !! state_id self = Some graph' ∧
            nodes graph' = filter (λ n, nid n ≠ nid gone) (nodes graph))
    as (gone & graph' & -> & Hgone & Hgraph' & Hnodes).
  { destruct Hrule as [[Hmsg Ha]|[Hmsg Ha]].
    - unfold RedundantArray.match_to_str in Hmsg. inv_bind Hmsg. injection Hmsg as <-.
      apply getitem_Ok in Hx.
      destruct (forward_apply_nodes _ _ _ _ _ _ _ _ Ha Hgraph Hx) as (graph' & ? & ?).
      exists x, graph'. repeat split; try done. by eapply list_elem_of_lookup_2.
    - unfold RedundantSecondArray.match_to_str in Hmsg. inv_bind Hmsg. injection Hmsg as <-.
      apply getitem_Ok in Hx.
      destruct (backward_apply_nodes _ _ _ _ _ _ _ _ Ha Hgraph Hx) as (graph' & ? & ?).
      exists x, graph'. repeat split; try done. by eapply list_elem_of_lookup_2. }
  destruct (remove_by_nid_length _ _ Hnd Hgone) as [Hlen Hother].
  exists gone, graph'. rewrite Hnodes. repeat split; try done.
  - intros [Hne _]%list_elem_of_filter. by apply Hne.
  - intros n Hn Hne. apply list_elem_of_filter. split; [by apply Hother|done].
Qed.

Lemma match_to_str_names_removed_witness :
  (∃ gone graph',
     "Remove B" = "Remove " +:+ node_name gone ∧
     states chain_forward !! 0%nat = Some graph' ∧
     gone ∈ nodes chain_state ∧
     (gone ∉ nodes graph') ∧
     (∀ n, n ∈ nodes chain_state → n ≠ gone → n ∈ nodes graph') ∧
     S (length (nodes graph')) = length (nodes chain_state)) ∧
  (∃ gone graph',
     "Remove C" = "Remove " +:+ node_name gone ∧
     states out_3_backward !! 0%nat = Some graph' ∧
     gone ∈ nodes out_3_state ∧
     (gone ∉ nodes graph') ∧
     (∀ n, n ∈ nodes out_3_state → n ≠ gone → n ∈ nodes graph') ∧
     S (length (nodes graph')) = length (nodes out_3_state)).
Proof.
  split.
  - refine (match_to_str_names_removed (H:=scope_free) node_name (matched 1 2) (debug false)
              chain no_removals chain_forward no_removals chain_state "Remove B" _ _ _).
    + reflexivity.
    + apply (bool_decide_unpack _). vm_compute. reflexivity.
    + left. split; vm_compute; reflexivity.
  - refine (match_to_str_names_removed (H:=scope_free) node_name (matched 0 1) (debug false)
              out_3 no_removals out_3_backward no_removals out_3_state "Remove C" _ _ _).
    + reflexivity.
    + apply (bool_decide_unpack _). vm_compute. reflexivity.
    + right. split; vm_compute; reflexivity.
Defined.

(** ** The edges after a rule, for any shape of the memlet paths *)

Lemma filter_agree {A C} (f : A → C) (P Q : A → Prop)
    `{∀ x, Decision (P x)} `{∀ x, Decision (Q x)} (l1 l2 : list A) :
  (∀ x y, f x = f y → P x ↔ Q y) →
  f <$> l1 = f <$> l2 → f <$> filter P l1 = f <$> filter Q l2.
Proof.
  intros HPQ. revert l2. induction l1 as [|x l1 IH]; intros [|y l2]; try done.
  rewrite !fmap_cons. intros Heq.
  assert (f x = f y ∧ f <$> l1 = f <$> l2) as [Hxy Hl] by (split; congruence).
  rewrite !filter_cons.
  destruct (decide (P x)) as [HP|HP], (decide (Q y)) as [HQ|HQ].
  - rewrite !fmap_cons. f_equal; [done|by apply IH].
  - by apply (HPQ x y Hxy) in HP.
  - by apply (HPQ x y Hxy) in HQ.
  - by apply IH.
Qed.

(** The loop of either rule, seen through a view [π] of the edges that the
    changes to the memlets on a path leave alone: an iteration keeps the
    edges other than the one at hand, in order and with their view, and
    appends one edge, whose view is [ρ] of the edge at hand. *)
Section loop_layout.
Context {B : Type} (π ρ : Edge → B).
Context (step : SDFGState → Edge → result SDFGState).

Local Abbreviation ι := (λ x : Edge, (eid x, π x)).

Local Abbreviation present := (present π).

Hypothesis step_shape : ∀ g e g',
  step g e = Ok g' → distinct_edges g → present g e →
  ∃ g1 new,
    ι <$> edges g1 = ι <$> edges g ∧
    edges g' = filter (λ x, eid x ≠ eid e) (edges g1) ++ [new] ∧
    (eid new ∉ eid <$> filter (λ x, eid x ≠ eid e) (edges g1)) ∧
    π new = ρ e.

Lemma view_filter (P : nat → Prop) `{∀ i, Decision (P i)} (l1 l2 : list Edge) :
  ι <$> l1 = ι <$> l2 →
  π <$> filter (λ x, P (eid x)) l1 = π <$> filter (λ x, P (eid x)) l2 ∧
  eid <$> filter (λ x, P (eid x)) l1 = eid <$> filter (λ x, P (eid x)) l2.
Proof.
  intros Heq.
  assert (ι <$> filter (λ x, P (eid x)) l1 = ι <$> filter (λ x, P (eid x)) l2) as Hf.
  { apply filter_agree; [|done]. intros x y [= -> _]. done. }
  split.
  - apply (f_equal (fmap snd)) in Hf. by rewrite <- !list_fmap_compose in Hf.
  - apply (f_equal (fmap fst)) in Hf. by rewrite <- !list_fmap_compose in Hf.
Qed.

Lemma loop_layout todo g g' :
  foldM step todo g = Ok g' →
  distinct_edges g → NoDup (eid <$> todo) → (∀ e, e ∈ todo → present g e) →
  π <$> edges g' = (π <$> filter (λ x, eid x ∉ eid <$> todo) (edges g)) ++ (ρ <$> todo).
Proof.
  revert g. induction todo as [|e todo IH]; simpl; intros g Hfold Hnd Htodo Hin.
  - injection Hfold as <-. rewrite app_nil_r. f_equal. symmetry.
    apply filter_all. intros x _. apply not_elem_of_nil.
  - inv_bind Hfold. rename x into g2.
    apply NoDup_cons in Htodo as [He Htodo].
    destruct (step_shape g e g2 Hx Hnd) as (g1 & new & Hι & Hedges & Hnew & Hπ).
    { apply Hin. by left. }
    destruct (view_filter (λ i, i ≠ eid e) _ _ Hι) as [_ Hids].
    assert (∀ e', e' ∈ todo →
              ∃ x, x ∈ filter (λ x, eid x ≠ eid e) (edges g1) ∧
                   eid x = eid e' ∧ π x = π e') as Hrest.
    { intros e' He'. destruct (Hin e') as (e1 & He1 & Hid & Hv); [by right|].
      assert ((eid e1, π e1) ∈ ι <$> edges g1) as (x & Hx1 & Hx2)%list_elem_of_fmap
        by (rewrite Hι; by apply (list_elem_of_fmap_2 ι)).
      injection Hx1 as Hx1 Hx1'.
      exists x. split; [|split; congruence].
      apply list_elem_of_filter. split; [|done].
      rewrite <- Hx1, Hid. intros Heq. apply He. rewrite <- Heq.
      by apply list_elem_of_fmap_2. }
    rewrite (IH g2 Hfold); [| |done|].
    + rewrite Hedges, filter_app, list_filter_filter, filter_cons, filter_nil.
      rewrite decide_True.
      2:{ intros (e' & Heq & He')%list_elem_of_fmap. apply Hnew.
          destruct (Hrest e' He') as (x & Hx1 & Hx2 & _).
          rewrite Heq, <- Hx2. by apply list_elem_of_fmap_2. }
      rewrite fmap_app, <- app_assoc. simpl. rewrite Hπ. f_equal.
      pose proof (view_filter (λ i, i ∉ eid <$> e :: todo) _ _ Hι) as [Hv _].
      etrans; [|exact Hv].
      f_equal. apply list_filter_iff. intros x. rewrite fmap_cons, not_elem_of_cons. tauto.
    + unfold distinct_edges. rewrite Hedges, fmap_app. simpl.
      apply NoDup_app. split; [|split].
      * rewrite Hids. by apply NoDup_eid_filter.
      * intros i Hi ->%list_elem_of_singleton. done.
      * apply NoDup_singleton.
    + intros e' He'. destruct (Hrest e' He') as (x & Hx1 & Hx2 & Hx3).
      exists x. split; [|done]. rewrite Hedges. apply elem_of_app. by left.
Qed.

End loop_layout.

Lemma update_memlet_view {B} (π : Edge → B) g i m e :
  distinct_edges g → find_edge g i = Some e → π (set_edata m e) = π e →
  (λ x, (eid x, π x)) <$> edges (update_memlet g i m) = (λ x, (eid x, π x)) <$> edges g.
Proof.
  intros Hnd Hf Hπ. unfold update_memlet. cbn [edges]. rewrite <- list_fmap_compose.
  apply list_fmap_ext. intros k x Hx%list_elem_of_lookup_2. simpl.
  case_bool_decide as Hi; [|done].
  pose proof (find_edge_distinct _ _ Hnd Hx) as Hfx. rewrite Hi, Hf in Hfx.
  injection Hfx as ->. by rewrite Hπ.
Qed.

Lemma view_distinct {B} (π : Edge → B) g g' :
  (λ x, (eid x, π x)) <$> edges g' = (λ x, (eid x, π x)) <$> edges g →
  distinct_edges g → distinct_edges g'.
Proof.
  intros Hv%(f_equal (fmap fst)). rewrite <- !list_fmap_compose in Hv.
  unfold distinct_edges. assert (eid <$> edges g' = eid <$> edges g) as -> by exact Hv.
  done.
Qed.

Lemma present_current {B} (π : Edge → B) g g1 e :
  (λ x, (eid x, π x)) <$> edges g1 = (λ x, (eid x, π x)) <$> edges g →
  distinct_edges g → present π g e →
  ∃ e1, find_edge g1 (eid e) = Some e1 ∧ π e1 = π e.
Proof.
  intros Hv Hnd (e0 & He0 & Hid & Hπ).
  assert ((eid e0, π e0) ∈ (λ x, (eid x, π x)) <$> edges g1)
    as (x & Hx & Hin)%list_elem_of_fmap
    by (rewrite Hv; by apply (list_elem_of_fmap_2 (λ x, (eid x, π x)))).
  assert (eid x = eid e ∧ π x = π e) as [Hx1 Hx2] by (simpl in Hx; split; congruence).
  exists x. split; [|done].
  rewrite <- Hx1. apply find_edge_distinct; [|done]. by eapply view_distinct.
Qed.

Lemma redirected_edges g e u u_conn v v_conn m :
  edges (add_edge (remove_edge g e) u u_conn v v_conn m)
  = filter (λ x, eid x ≠ eid e) (edges g) ++
    [ {| eid := fresh_eid (remove_edge g e); src := u; src_conn := u_conn;
         dst := v; dst_conn := v_conn; edata := m |} ].
Proof. done. Qed.

Section forward_layout.
Context `{GraphPaths}.
Context (in_array out_array : Node).

Lemma rename_edge_layout g pe g' :
  RedundantArray.rename_edge in_array out_array g pe = Ok g' → distinct_edges g →
  (λ x, (eid x, layout x)) <$> edges g' = (λ x, (eid x, layout x)) <$> edges g.
Proof.
  unfold RedundantArray.rename_edge.
  destruct (find_edge g pe) as [e|] eqn:Hf; [|by intros [= <-]].
  intros Hr Hnd. inv_bind Hr. case_bool_decide; [|by injection Hr as <-].
  inv_bind Hr. injection Hr as <-. by eapply update_memlet_view.
Qed.

Lemma rename_path_layout path g g' :
  foldM (RedundantArray.rename_edge in_array out_array) path g = Ok g' →
  distinct_edges g →
  (λ x, (eid x, layout x)) <$> edges g' = (λ x, (eid x, layout x)) <$> edges g.
Proof.
  intros Hfold Hnd.
  eapply (foldM_Ok_ind
            (λ s, (λ x, (eid x, layout x)) <$> edges s = (λ x, (eid x, layout x)) <$> edges g));
    [|done|exact Hfold].
  intros s pe s' _ Hs Hr. rewrite <- Hs. eapply rename_edge_layout; [done|].
  by eapply view_distinct.
Qed.

Lemma redirect_in_edge_shape g e g' :
  RedundantArray.redirect_in_edge in_array out_array g e = Ok g' →
  distinct_edges g → present layout g e →
  ∃ g1 new,
    (λ x, (eid x, layout x)) <$> edges g1 = (λ x, (eid x, layout x)) <$> edges g ∧
    edges g' = filter (λ x, eid x ≠ eid e) (edges g1) ++ [new] ∧
    (eid new ∉ eid <$> filter (λ x, eid x ≠ eid e) (edges g1)) ∧
    layout new = layout (set_dst (nid out_array) e).
Proof.
  unfold RedundantArray.redirect_in_edge. intros Hr Hnd Hpresent. inv_bind Hr.
  rename x into g1. injection Hr as <-.
  pose proof (rename_path_layout _ _ _ Hx Hnd) as Hv.
  destruct (present_current layout g g1 e Hv Hnd Hpresent) as (e1 & Hf & Hl).
  eexists g1, _. split; [done|]. split; [apply redirected_edges|]. split.
  - apply (fresh_eid_not_in (remove_edge g1 e)).
  - unfold current_memlet. rewrite Hf. unfold layout in *. simpl.
    assert (subset (edata e1) = subset (edata e) ∧
            other_subset (edata e1) = other_subset (edata e)) as [-> ->]
      by (split; congruence).
    done.
Qed.

(** The inbound edges of the source node end at the destination node; no
    other endpoint, no connector and no region of any edge is changed. *)
Lemma in_edges_loop_layout g g' :
  foldM (RedundantArray.redirect_in_edge in_array out_array) (in_edges g in_array) g
    = Ok g' →
  distinct_edges g → nid in_array ≠ nid out_array →
  layout <$> edges (remove_node g' in_array)
  = layout <$> (filter (λ e, src e ≠ nid in_array ∧ dst e ≠ nid in_array) (edges g) ++
                (set_dst (nid out_array) <$>
                   filter (λ e, dst e = nid in_array ∧ src e ≠ nid in_array) (edges g))).
Proof.
  intros Hfold Hnd Hne.
  pose proof (loop_layout layout (λ e, layout (set_dst (nid out_array) e)) _
                redirect_in_edge_shape _ _ _ Hfold Hnd) as Hloop.
  change (λ e, layout (set_dst (nid out_array) e))
    with (layout ∘ set_dst (nid out_array)) in Hloop.
  rewrite list_fmap_compose, <- fmap_app in Hloop.
  unfold remove_node. cbn [edges].
  erewrite (filter_agree layout _ (λ e, src e ≠ nid in_array ∧ dst e ≠ nid in_array));
    [| |apply Hloop].
  - rewrite filter_app, !fmap_app. f_equal.
    + f_equal. rewrite list_filter_filter. apply filter_ext_in. intros e He.
      split; [tauto|]. intros [Hs Hd]. split; [done|].
      intros (e' & Heq & [Hd' He']%list_elem_of_filter)%list_elem_of_fmap.
      pose proof (find_edge_distinct _ _ Hnd He) as Hf.
      pose proof (find_edge_distinct _ _ Hnd He') as Hf'.
      rewrite Heq, Hf' in Hf. injection Hf as ->. done.
    + clear Hloop Hfold Hnd. unfold in_edges. induction (edges g) as [|x l IH]; [done|].
      rewrite !filter_cons.
      destruct (decide (dst x = nid in_array)) as [Hx|Hx].
      * rewrite fmap_cons, filter_cons. cbn [set_dst src dst].
        destruct (decide (src x ≠ nid in_array)) as [Hsx|Hsx].
        -- rewrite decide_True by (split; [done|by apply not_eq_sym]).
           rewrite decide_True by done.
           rewrite !fmap_cons. by f_equal.
        -- rewrite decide_False, decide_False by tauto. done.
      * rewrite decide_False by tauto. done.
  - intros x y Hxy. unfold layout in Hxy.
    assert (src x = src y ∧ dst x = dst y) as [-> ->] by (split; congruence). done.
  - by apply NoDup_eid_filter.
  - intros e [_ He]%list_elem_of_filter. by exists e.
Qed.

End forward_layout.

(** X6. The forward rule changes where edges end and nothing else of the
    layout of the graph, whatever the memlet paths are.  For a rule instance
    naming two different data nodes of a state with distinct edge objects,
    [apply] returns, and the new state holds, in this order, the edges that
    did not touch the source node and then the inbound edges of the source
    node, ending at the destination node; source endpoints, connectors and
    both regions of every edge are the ones it had.  Only the container names
    of memlets on the paths can differ. *)
Theorem forward_apply_layout `{GraphPaths} self config sdfg removed graph ni d_in no d_out :
  states sdfg !! state_id self = Some graph →
  nodes graph !! subgraph self _in_array = Some (AccessNode ni d_in) →
  nodes graph !! subgraph self _out_array = Some (AccessNode no d_out) →
  ni ≠ no →
  distinct_edges graph →
  ∃ sdfg' removed' graph',
    RedundantArray.apply self config sdfg removed = Ok (sdfg', removed') ∧
    states sdfg' !! state_id self = Some graph' ∧
    layout <$> edges graph'
    = layout <$> (filter (λ e, src e ≠ ni ∧ dst e ≠ ni) (edges graph) ++
                  (set_dst no <$> filter (λ e, dst e = ni ∧ src e ≠ ni) (edges graph))).
Proof.
  intros Hgraph Hin Hout Hne Hnd.
  assert (foldM (RedundantArray.redirect_in_edge (AccessNode ni d_in) (AccessNode no d_out))
            (in_edges graph (AccessNode ni d_in)) graph
          = Ok (foldl (forward_spec.step d_in d_out no) graph
                  (in_edges graph (AccessNode ni d_in)))) as Hfold.
  { apply in_edges_loop_spec; [done|by apply NoDup_eid_filter|].
    intros e [_ He]%list_elem_of_filter. by apply list_elem_of_fmap_2. }
  eexists _, _, _. split; [|split].
  - unfold RedundantArray.apply.
    apply getitem_Ok in Hgraph, Hin, Hout. rewrite Hgraph. simpl.
    rewrite Hin, Hout. simpl. rewrite Hfold. reflexivity.
  - simpl. apply list_lookup_insert_eq. by eapply lookup_lt_Some.
  - by apply (in_edges_loop_layout (AccessNode ni d_in) (AccessNode no d_out)).
Qed.

Lemma forward_apply_layout_witness :
  ∃ sdfg' removed' graph',
    RedundantArray.apply (H:=scope_free) (matched 1 2) (debug false) chain no_removals
      = Ok (sdfg', removed') ∧
    states sdfg' !! 0%nat = Some graph' ∧
    layout <$> edges graph'
    = layout <$> (filter (λ e, src e ≠ 1%nat ∧ dst e ≠ 1%nat) (edges chain_state) ++
                  (set_dst 2 <$> filter (λ e, dst e = 1%nat ∧ src e ≠ 1%nat)
                                   (edges chain_state))).
Proof.
  refine (forward_apply_layout (H:=scope_free) (matched 1 2) (debug false) chain no_removals
            chain_state 1 "B" 2 "C" _ _ _ _ _); try reflexivity; [lia|].
  apply (bool_decide_unpack _). vm_compute. reflexivity.
Defined.

(** X7. The forward rule on a state without scope nodes, edge by edge.  For
    a rule instance naming two different data nodes of a state with distinct
    edge objects, [apply] returns, and the new state holds the edges that did
    not touch the source node, as they were, followed by the inbound edges of
    the source node, each ending at the destination node and naming the
    destination container if it named the source container; the edge from
    the source node to the destination node is gone. *)
Theorem forward_apply_edges self config sdfg removed graph ni d_in no d_out :
  states sdfg !! state_id self = Some graph →
  nodes graph !! subgraph self _in_array = Some (AccessNode ni d_in) →
  nodes graph !! subgraph self _out_array = Some (AccessNode no d_out) →
  ni ≠ no →
  distinct_edges graph →
  ∃ sdfg' removed' graph',
    RedundantArray.apply (H:=scope_free) self config sdfg removed = Ok (sdfg', removed') ∧
    states sdfg' !! state_id self = Some graph' ∧
    contents <$> edges graph'
    = contents <$> (filter (λ e, src e ≠ ni ∧ dst e ≠ ni) (edges graph) ++
                    (redirected d_in d_out no <$>
                       filter (λ e, dst e = ni ∧ src e ≠ ni) (edges graph))).
Proof.
  intros Hgraph Hin Hout Hne Hnd.
  assert (foldM (RedundantArray.redirect_in_edge (H:=scope_free)
                   (AccessNode ni d_in) (AccessNode no d_out))
            (in_edges graph (AccessNode ni d_in)) graph
          = Ok (foldl (forward_spec.step (H:=scope_free) d_in d_out no) graph
                  (in_edges graph (AccessNode ni d_in)))) as Hfold.
  { apply in_edges_loop_spec; [done|by apply NoDup_eid_filter|].
    intros e [_ He]%list_elem_of_filter. by apply list_elem_of_fmap_2. }
  eexists _, _, _. split; [|split].
  - unfold RedundantArray.apply.
    apply getitem_Ok in Hgraph, Hin, Hout. rewrite Hgraph. simpl.
    rewrite Hin, Hout. simpl. rewrite Hfold. reflexivity.
  - simpl. apply list_lookup_insert_eq. by eapply lookup_lt_Some.
  - exact (forward_apply_scope_free ni d_in no d_out graph Hnd Hne).
Qed.

Lemma forward_apply_edges_witness :
  ∃ sdfg' removed' graph',
    RedundantArray.apply (H:=scope_free) (matched 1 2) (debug false) chain no_removals
      = Ok (sdfg', removed') ∧
    states sdfg' !! 0%nat = Some graph' ∧
    contents <$> edges graph'
    = contents <$> (filter (λ e, src e ≠ 1%nat ∧ dst e ≠ 1%nat) (edges chain_state) ++
                    (redirected "B" "C" 2 <$>
                       filter (λ e, dst e = 1%nat ∧ src e ≠ 1%nat) (edges chain_state))).
Proof.
  refine (forward_apply_edges (matched 1 2) (debug false) chain no_removals
            chain_state 1 "B" 2 "C" _ _ _ _ _); try reflexivity; [lia|].
  apply (bool_decide_unpack _). vm_compute. reflexivity.
Defined.

Section backward_endpoints.
Context `{GraphPaths}.
Context (in_array out_array : Node) (inp_subset out_subset : Subset).

Lemma update_memlet_endpoints g i m :
  (λ x, (eid x, endpoints x)) <$> edges (update_memlet g i m)
  = (λ x, (eid x, endpoints x)) <$> edges g.
Proof.
  unfold update_memlet. cbn [edges]. rewrite <- list_fmap_compose.
  apply list_fmap_ext. intros k x _. simpl. by case_bool_decide.
Qed.

Lemma migrate_edge_endpoints g pe g' :
  RedundantSecondArray.migrate_edge in_array out_array inp_subset out_subset g pe = Ok g' →
  (λ x, (eid x, endpoints x)) <$> edges g' = (λ x, (eid x, endpoints x)) <$> edges g.
Proof.
  unfold RedundantSecondArray.migrate_edge.
  destruct (find_edge g pe); [|by intros [= <-]].
  intros Hm. inv_bind Hm. case_bool_decide.
  - inv_bind Hm. injection Hm as <-. apply update_memlet_endpoints.
  - destruct (other_subset _); inv_bind Hm; injection Hm as <-;
      [apply update_memlet_endpoints|done].
Qed.

Lemma redirect_out_edge_shape g e g' :
  RedundantSecondArray.redirect_out_edge in_array out_array inp_subset out_subset g e
    = Ok g' →
  distinct_edges g → present endpoints g e →
  ∃ g1 new,
    (λ x, (eid x, endpoints x)) <$> edges g1 = (λ x, (eid x, endpoints x)) <$> edges g ∧
    edges g' = filter (λ x, eid x ≠ eid e) (edges g1) ++ [new] ∧
    (eid new ∉ eid <$> filter (λ x, eid x ≠ eid e) (edges g1)) ∧
    endpoints new = endpoints (set_src (nid in_array) e).
Proof.
  intros (g1 & Hfold & ->)%redirect_out_edge_Ok _ _.
  eexists g1, _. split; [|split; [apply redirected_edges|split]].
  - eapply (foldM_Ok_ind
              (λ s, (λ x, (eid x, endpoints x)) <$> edges s
                    = (λ x, (eid x, endpoints x)) <$> edges g)); [|done|exact Hfold].
    intros s pe s' _ Hs Hm. rewrite <- Hs. by eapply migrate_edge_endpoints.
  - apply (fresh_eid_not_in (remove_edge g1 e)).
  - done.
Qed.

(** The outbound edges of the destination node leave the producer node;
    no other endpoint and no connector of any edge is changed. *)
Lemma out_edges_loop_endpoints g g' :
  foldM (RedundantSecondArray.redirect_out_edge in_array out_array inp_subset out_subset)
        (out_edges g out_array) g = Ok g' →
  distinct_edges g → nid in_array ≠ nid out_array →
  endpoints <$> edges (remove_node g' out_array)
  = endpoints <$> (filter (λ e, src e ≠ nid out_array ∧ dst e ≠ nid out_array) (edges g) ++
                   (set_src (nid in_array) <$>
                      filter (λ e, src e = nid out_array ∧ dst e ≠ nid out_array)
                        (edges g))).
Proof.
  intros Hfold Hnd Hne.
  pose proof (loop_layout endpoints (λ e, endpoints (set_src (nid in_array) e)) _
                redirect_out_edge_shape _ _ _ Hfold Hnd) as Hloop.
  change (λ e, endpoints (set_src (nid in_array) e))
    with (endpoints ∘ set_src (nid in_array)) in Hloop.
  rewrite list_fmap_compose, <- fmap_app in Hloop.
  unfold remove_node. cbn [edges].
  erewrite (filter_agree endpoints _
              (λ e, src e ≠ nid out_array ∧ dst e ≠ nid out_array)); [| |apply Hloop].
  - rewrite filter_app, !fmap_app. f_equal.
    + f_equal. rewrite list_filter_filter. apply filter_ext_in. intros e He.
      split; [tauto|]. intros [Hs Hd]. split; [done|].
      intros (e' & Heq & [Hs' He']%list_elem_of_filter)%list_elem_of_fmap.
      pose proof (find_edge_distinct _ _ Hnd He) as Hf.
      pose proof (find_edge_distinct _ _ Hnd He') as Hf'.
      rewrite Heq, Hf' in Hf. injection Hf as ->. done.
    + clear Hloop Hfold Hnd. unfold out_edges.
      induction (edges g) as [|x l IH]; [done|].
      rewrite !filter_cons.
      destruct (decide (src x = nid out_array)) as [Hx|Hx].
      * rewrite fmap_cons, filter_cons. cbn [set_src src dst].
        destruct (decide (dst x ≠ nid out_array)) as [Hdx|Hdx].
        -- rewrite decide_True by done. rewrite decide_True by done.
           rewrite !fmap_cons. by f_equal.
        -- rewrite decide_False, decide_False by tauto. done.
      * rewrite decide_False by tauto. done.
  - intros x y Hxy. unfold endpoints in Hxy.
    assert (src x = src y ∧ dst x = dst y) as [-> ->] by (split; congruence). done.
  - by apply NoDup_eid_filter.
  - intros e [_ He]%list_elem_of_filter. by exists e.
Qed.

End backward_endpoints.

(** X8. The backward rule changes where edges begin and nothing else of the
    topology of the graph, whatever the memlet trees are.  When [apply]
    succeeds for a rule instance naming two different nodes of a state with
    distinct edge objects, the new state holds, in this order, the edges that
    did not touch the destination node and then the outbound edges of the
    destination node, leaving the producer node; target endpoints and
    connectors are the ones they had. *)
Theorem backward_apply_endpoints `{GraphPaths}
    self config sdfg removed sdfg' removed' graph in_array out_array :
  states sdfg !! state_id self = Some graph →
  nodes graph !! subgraph self _in_array = Some in_array →
  nodes graph !! subgraph self _out_array = Some out_array →
  nid in_array ≠ nid out_array →
  distinct_edges graph →
  RedundantSecondArray.apply self config sdfg removed = Ok (sdfg', removed') →
  ∃ graph',
    states sdfg' !! state_id self = Some graph' ∧
    endpoints <$> edges graph'
    = endpoints <$> (filter (λ e, src e ≠ nid out_array ∧ dst e ≠ nid out_array)
                       (edges graph) ++
                     (set_src (nid in_array) <$>
                        filter (λ e, src e = nid out_array ∧ dst e ≠ nid out_array)
                          (edges graph))).
Proof.
  intros Hgraph Hin Hout Hne Hnd Happly.
  apply RedundantSecondArray_apply_Ok in Happly
    as (g & i & o & inp & outs & g3 & Hg & Hi & Ho & _ & Hfold & -> & _).
  rewrite Hgraph in Hg. injection Hg as <-.
  rewrite Hin in Hi. injection Hi as <-.
  rewrite Hout in Ho. injection Ho as <-.
  eexists. split.
  - simpl. apply list_lookup_insert_eq. by eapply lookup_lt_Some.
  - by eapply out_edges_loop_endpoints.
Qed.

Lemma backward_apply_endpoints_witness :
  ∃ graph',
    states out_3_backward !! 0%nat = Some graph' ∧
    endpoints <$> edges graph'
    = endpoints <$> (filter (λ e, src e ≠ 1%nat ∧ dst e ≠ 1%nat) (edges out_3_state) ++
                     (set_src 0 <$> filter (λ e, src e = 1%nat ∧ dst e ≠ 1%nat)
                                      (edges out_3_state))).
Proof.
  refine (backward_apply_endpoints (H:=scope_free) (matched 0 1) (debug false) out_3
            no_removals out_3_backward no_removals out_3_state
            (AccessNode 0 "A") (AccessNode 1 "C") _ _ _ _ _ _);
    try reflexivity; [simpl; lia|].
  apply (bool_decide_unpack _). vm_compute. reflexivity.
Defined.

(** ** What a matched application takes out of the graph *)

Lemma length_without_source (l : list Edge) (n : nat) :
  (length (filter (λ e, src e ≠ n ∧ dst e ≠ n) l
           ++ filter (λ e, dst e = n ∧ src e ≠ n) l)
   + length (filter (λ e, src e = n) l) = length l)%nat.
Proof.
  rewrite length_app. induction l as [|x l IH]; [done|].
  rewrite !filter_cons.
  destruct (decide (src x = n)), (decide (dst x = n)).
  - rewrite !decide_False by tauto. simpl. lia.
  - rewrite !decide_False by tauto. simpl. lia.
  - rewrite decide_False, decide_True by tauto. simpl. lia.
  - rewrite decide_True, decide_False by tauto. simpl. lia.
Qed.

Lemma length_without_target (l : list Edge) (n : nat) :
  (length (filter (λ e, src e ≠ n ∧ dst e ≠ n) l
           ++ filter (λ e, src e = n ∧ dst e ≠ n) l)
   + length (filter (λ e, dst e = n) l) = length l)%nat.
Proof.
  rewrite length_app. induction l as [|x l IH]; [done|].
  rewrite !filter_cons.
  destruct (decide (src x = n)), (decide (dst x = n)).
  - rewrite !decide_False by tauto. simpl. lia.
  - rewrite decide_False, decide_True by tauto. simpl. lia.
  - rewrite !decide_False by tauto. simpl. lia.
  - rewrite decide_True, decide_False by tauto. simpl. lia.
Qed.

(** X9. A matched application takes exactly one edge out of the state.  When
    the check of a rule returned true for the candidate of a rule instance
    that names two different nodes of a state with distinct edge objects, and
    [apply] of that rule succeeds, the new state has one edge fewer: the
    copy between the two nodes is gone, and every other edge has a
    successor. *)
Theorem matched_apply_removes_one_edge `{GraphPaths}
    self config sdfg removed sdfg' removed' graph in_array out_array expr_index strict :
  states sdfg !! state_id self = Some graph →
  nodes graph !! subgraph self _in_array = Some in_array →
  nodes graph !! subgraph self _out_array = Some out_array →
  nid in_array ≠ nid out_array →
  distinct_edges graph →
  (RedundantArray.can_be_applied graph (subgraph self) expr_index sdfg strict = Ok true ∧
   RedundantArray.apply self config sdfg removed = Ok (sdfg', removed')) ∨
  (RedundantSecondArray.can_be_applied graph (subgraph self) expr_index sdfg strict
     = Ok true ∧
   RedundantSecondArray.apply self config sdfg removed = Ok (sdfg', removed')) →
  ∃ graph',
    states sdfg' !! state_id self = Some graph' ∧
    S (length (edges graph')) = length (edges graph).
Proof.
  intros Hgraph Hin Hout Hne Hnd [[Hcheck Happly]|[Hcheck Happly]].
  - apply forward_check_out_degree with (in_array := in_array) in Hcheck; [|done].
    apply RedundantArray_apply_Ok in Happly as (g & i & o & g1 & Hg & Hi & Ho & Hfold & -> & _).
    rewrite Hgraph in Hg. injection Hg as <-.
    rewrite Hin in Hi. injection Hi as <-.
    rewrite Hout in Ho. injection Ho as <-.
    eexists. split; [simpl; apply list_lookup_insert_eq; by eapply lookup_lt_Some|].
    pose proof (in_edges_loop_layout _ _ _ _ Hfold Hnd Hne) as Hl.
    apply (f_equal length) in Hl. rewrite !length_fmap, length_app, length_fmap in Hl.
    pose proof (length_without_source (edges graph) (nid in_array)) as Hsplit.
    rewrite length_app in Hsplit.
    unfold out_degree, out_edges in Hcheck. lia.
  - apply backward_check_in_degree with (out_array := out_array) in Hcheck; [|done].
    apply RedundantSecondArray_apply_Ok in Happly
      as (g & i & o & inp & outs & g1 & Hg & Hi & Ho & _ & Hfold & -> & _).
    rewrite Hgraph in Hg. injection Hg as <-.
    rewrite Hin in Hi. injection Hi as <-.
    rewrite Hout in Ho. injection Ho as <-.
    eexists. split; [simpl; apply list_lookup_insert_eq; by eapply lookup_lt_Some|].
    pose proof (out_edges_loop_endpoints _ _ _ _ _ _ Hfold Hnd Hne) as Hl.
    apply (f_equal length) in Hl. rewrite !length_fmap, length_app, length_fmap in Hl.
    pose proof (length_without_target (edges graph) (nid out_array)) as Hsplit.
    rewrite length_app in Hsplit.
    unfold in_degree, in_edges in Hcheck. lia.
Qed.

Lemma matched_apply_removes_one_edge_witness :
  (∃ graph',
     states chain_forward !! 0%nat = Some graph' ∧
     S (length (edges graph')) = length (edges chain_state)) ∧
  (∃ graph',
     states out_3_backward !! 0%nat = Some graph' ∧
     S (length (edges graph')) = length (edges out_3_state)).
Proof.
  split.
  - refine (matched_apply_removes_one_edge (H:=scope_free) (matched 1 2) (debug false) chain
              no_removals chain_forward no_removals chain_state
              (AccessNode 1 "B") (AccessNode 2 "C") 0 true _ _ _ _ _ _);
      try reflexivity; [simpl; lia| |].
    + apply (bool_decide_unpack _). vm_compute. reflexivity.
    + left. split; vm_compute; reflexivity.
  - refine (matched_apply_removes_one_edge (H:=scope_free) (matched 0 1) (debug false) out_3
              no_removals out_3_backward no_removals out_3_state
              (AccessNode 0 "A") (AccessNode 1 "C") 0 true _ _ _ _ _ _);
      try reflexivity; [simpl; lia| |].
    + apply (bool_decide_unpack _). vm_compute. reflexivity.
    + right. split; vm_compute; reflexivity.
Defined.

(** ** No edge is left dangling *)

Lemma nid_kept (l : list Node) (gone : Node) (i : nat) :
  i ∈ nid <$> l → i ≠ nid gone → i ∈ nid <$> filter (λ n, nid n ≠ nid gone) l.
Proof.
  intros (n & -> & Hn)%list_elem_of_fmap Hne.
  apply list_elem_of_fmap_2, list_elem_of_filter. done.
Qed.

Lemma closed_by_endpoints (g : SDFGState) (gone : Node) (es' es : list Edge) :
  endpoints <$> es' = endpoints <$> es →
  (∀ e, e ∈ es → (src e ∈ nid <$> nodes g ∧ src e ≠ nid gone) ∧
                 (dst e ∈ nid <$> nodes g ∧ dst e ≠ nid gone)) →
  closed {| nodes := filter (λ n, nid n ≠ nid gone) (nodes g); edges := es' |}.
Proof.
  intros Heq Hes e' He'. cbn [nodes edges] in *.
  assert (endpoints e' ∈ endpoints <$> es) as (e & He1 & He)%list_elem_of_fmap
    by (rewrite <- Heq; by apply list_elem_of_fmap_2).
  unfold endpoints in He1.
  assert (src e' = src e ∧ dst e' = dst e) as [-> ->] by (split; congruence).
  destruct (Hes e He) as [[? ?] [? ?]]. split; by apply nid_kept.
Qed.

(** X10. Neither rule leaves an edge dangling.  When every edge of the state
    joins two nodes of the state, and [apply] of a rule succeeds for an
    instance naming two different nodes of it, every edge of the new state
    joins two nodes of the new state: no edge begins or ends at the node that
    was removed. *)
Theorem apply_keeps_closed `{GraphPaths}
    self config sdfg removed sdfg' removed' graph in_array out_array :
  states sdfg !! state_id self = Some graph →
  nodes graph !! subgraph self _in_array = Some in_array →
  nodes graph !! subgraph self _out_array = Some out_array →
  nid in_array ≠ nid out_array →
  distinct_edges graph →
  closed graph →
  RedundantArray.apply self config sdfg removed = Ok (sdfg', removed') ∨
  RedundantSecondArray.apply self config sdfg removed = Ok (sdfg', removed') →
  ∃ graph', states sdfg' !! state_id self = Some graph' ∧ closed graph'.
Proof.
  intros Hgraph Hin Hout Hne Hnd Hclosed [Happly|Happly].
  - apply RedundantArray_apply_Ok in Happly as (g & i & o & g1 & Hg & Hi & Ho & Hfold & -> & _).
    rewrite Hgraph in Hg. injection Hg as <-.
    rewrite Hin in Hi. injection Hi as <-.
    rewrite Hout in Ho. injection Ho as <-.
    eexists. split; [simpl; apply list_lookup_insert_eq; by eapply lookup_lt_Some|].
    pose proof (in_edges_loop_layout _ _ _ _ Hfold Hnd Hne) as Hl.
    apply (f_equal (fmap (λ v, (v.1.1.1.1.1, v.1.1.1.1.2, v.1.1.1.2, v.1.1.2)))) in Hl.
    rewrite <- !list_fmap_compose in Hl.
    assert (nodes g1 = nodes graph) as Hnodes.
    { eapply (foldM_Ok_ind (λ s, nodes s = nodes graph)); [|done|exact Hfold].
      intros s e s' _ Hs Hr. apply redirect_in_edge_nodes in Hr. congruence. }
    unfold remove_node. rewrite Hnodes.
    eapply closed_by_endpoints; [exact Hl|].
    intros e [[[Hs Hd] He]%list_elem_of_filter|
              (y & -> & [[Hd Hs] Hy]%list_elem_of_filter)%list_elem_of_fmap]%elem_of_app.
    + destruct (Hclosed e He). done.
    + destruct (Hclosed y Hy). cbn [set_dst src dst]. repeat split; try done.
      apply list_elem_of_fmap_2. by eapply list_elem_of_lookup_2.
  - apply RedundantSecondArray_apply_Ok in Happly
      as (g & i & o & inp & outs & g1 & Hg & Hi & Ho & _ & Hfold & -> & _).
    rewrite Hgraph in Hg. injection Hg as <-.
    rewrite Hin in Hi. injection Hi as <-.
    rewrite Hout in Ho. injection Ho as <-.
    eexists. split; [simpl; apply list_lookup_insert_eq; by eapply lookup_lt_Some|].
    pose proof (out_edges_loop_endpoints _ _ _ _ _ _ Hfold Hnd Hne) as Hl.
    pose proof (loop_nodes _ _ _ _ _ _ _ Hfold) as Hnodes.
    unfold remove_node. rewrite Hnodes.
    eapply closed_by_endpoints; [exact Hl|].
    intros e [[[Hs Hd] He]%list_elem_of_filter|
              (y & -> & [[Hs Hd] Hy]%list_elem_of_filter)%list_elem_of_fmap]%elem_of_app.
    + destruct (Hclosed e He). done.
    + destruct (Hclosed y Hy). cbn [set_src src dst]. repeat split; try done.
      apply list_elem_of_fmap_2. by eapply list_elem_of_lookup_2.
Qed.

Lemma closed_Forall g :
  Forall (λ e, src e ∈ nid <$> nodes g ∧ dst e ∈ nid <$> nodes g) (edges g) → closed g.
Proof. intros Hall e He. by apply (proj1 (Forall_forall _ _) Hall). Qed.

Lemma apply_keeps_closed_witness :
  (∃ graph', states chain_forward !! 0%nat = Some graph' ∧ closed graph') ∧
  (∃ graph', states out_3_backward !! 0%nat = Some graph' ∧ closed graph').
Proof.
  split.
  - refine (apply_keeps_closed (H:=scope_free) (matched 1 2) (debug false) chain
              no_removals chain_forward no_removals chain_state
              (AccessNode 1 "B") (AccessNode 2 "C") _ _ _ _ _ _ _);
      try reflexivity; [simpl; lia| | |].
    + apply (bool_decide_unpack _). vm_compute. reflexivity.
    + apply closed_Forall, (bool_decide_unpack _). vm_compute. reflexivity.
    + left. vm_compute. reflexivity.
  - refine (apply_keeps_closed (H:=scope_free) (matched 0 1) (debug false) out_3
              no_removals out_3_backward no_removals out_3_state
              (AccessNode 0 "A") (AccessNode 1 "C") _ _ _ _ _ _ _);
      try reflexivity; [simpl; lia| | |].
    + apply (bool_decide_unpack _). vm_compute. reflexivity.
    + apply closed_Forall, (bool_decide_unpack _). vm_compute. reflexivity.
    + right. vm_compute. reflexivity.
Defined.

(** ** The backward rule on a state without scope nodes *)

Section backward_scope_free.
Context (ni : nat) (d_in : string) (no : nat) (d_out : string).
Context (inp_subset out_subset : Subset).

Local Abbreviation redirect_out_edge :=
  (RedundantSecondArray.redirect_out_edge (H:=scope_free)
     (AccessNode ni d_in) (AccessNode no d_out) inp_subset out_subset).
Local Abbreviation migrate_own := (migrate_memlet d_in d_out inp_subset out_subset).
Local Abbreviation migrated_own := (migrated ni d_in d_out inp_subset out_subset).

Lemma filter_update_other g i m :
  filter (λ x, eid x ≠ i) (edges (update_memlet g i m)) = filter (λ x, eid x ≠ i) (edges g).
Proof.
  unfold update_memlet. cbn [edges]. induction (edges g) as [|x l IH]; [done|].
  rewrite fmap_cons, !filter_cons, IH. case_bool_decide as Hx; [|done].
  simpl. by rewrite !decide_False by (intros Hne; by apply Hne).
Qed.

Lemma redirected_own g e m :
  distinct_edges g → e ∈ edges g →
  add_edge (remove_edge (update_memlet g (eid e) m) e) ni (src_conn e) (dst e) (dst_conn e)
    (current_memlet (update_memlet g (eid e) m) e)
  = {| nodes := nodes g;
       edges := filter (λ x, eid x ≠ eid e) (edges g) ++
                [ {| eid := fresh_eid (remove_edge g e); src := ni;
                     src_conn := src_conn e; dst := dst e; dst_conn := dst_conn e;
                     edata := m |} ] |}.
Proof.
  intros Hnd He. pose proof (find_edge_distinct _ _ Hnd He) as Hf.
  unfold add_edge, remove_edge, fresh_eid. cbn [nodes edges].
  rewrite filter_update_other. unfold current_memlet.
  rewrite find_edge_update_memlet, bool_decide_eq_true_2, Hf by done. done.
Qed.

Lemma redirect_out_edge_own g e :
  distinct_edges g → e ∈ edges g →
  redirect_out_edge g e
  = m ← migrate_own (edata e);
    Ok {| nodes := nodes g;
          edges := filter (λ x, eid x ≠ eid e) (edges g) ++
                   [ {| eid := fresh_eid (remove_edge g e); src := ni;
                        src_conn := src_conn e; dst := dst e; dst_conn := dst_conn e;
                        edata := m |} ] |}.
Proof.
  intros Hnd He. pose proof (find_edge_distinct _ _ Hnd He) as Hf.
  unfold RedundantSecondArray.redirect_out_edge, RedundantSecondArray.migrate_edge,
    migrate_memlet.
  cbn [memlet_tree scope_free foldM nid]. rewrite Hf. simpl.
  case_bool_decide.
  - destruct (subset (edata e)) as [s|]; simpl; [|done].
    destruct (RedundantSecondArray.migrate_subset _ _ s) as [s'|x]; simpl; [|done].
    f_equal. by apply redirected_own.
  - destruct (other_subset (edata e)) as [s|]; simpl.
    + destruct (RedundantSecondArray.migrate_subset _ _ s) as [s'|x]; simpl; [|done].
      f_equal. by apply redirected_own.
    + unfold current_memlet. rewrite Hf. done.
Qed.

Lemma out_edges_loop_scope_free todo g :
  distinct_edges g → NoDup (eid <$> todo) → (∀ e, e ∈ todo → e ∈ edges g) →
  match mapM migrated_own todo with
  | Ok news =>
      ∃ g', foldM redirect_out_edge todo g = Ok g' ∧
            contents <$> edges g'
            = contents <$> (filter (λ x, eid x ∉ eid <$> todo) (edges g) ++ news)
  | Raise x => foldM redirect_out_edge todo g = Raise x
  end.
Proof.
  revert g. induction todo as [|e todo IH]; intros g Hnd Htodo Hin.
  - simpl. exists g. split; [done|]. rewrite app_nil_r. f_equal. symmetry.
    apply filter_all. intros x _. apply not_elem_of_nil.
  - rewrite fmap_cons in Htodo. apply NoDup_cons in Htodo as [He Htodo].
    assert (e ∈ edges g) as Heg by (apply Hin; by left).
    cbn [mapM foldM]. rewrite redirect_out_edge_own by done.
    assert (migrated_own e
            = m ← migrate_own (edata e);
              Ok {| eid := eid e; src := ni; src_conn := src_conn e;
                    dst := dst e; dst_conn := dst_conn e; edata := m |}) as -> by done.
    destruct (migrate_own (edata e)) as [m|x]; cbn [mbind result_bind]; [|done].
    match goal with |- context [foldM _ todo ?s] => set (g1 := s) end.
    assert (∀ e', e' ∈ todo → e' ∈ filter (λ x, eid x ≠ eid e) (edges g)) as Hrest.
    { intros e' He'. apply list_elem_of_filter. split; [|apply Hin; by right].
      intros Heq. apply He. rewrite <- Heq. by apply list_elem_of_fmap_2. }
    specialize (IH g1).
    destruct (mapM migrated_own todo) as [news|x]; cbn [mbind result_bind mret result_ret].
    + destruct IH as (g' & Hfold & Hedges).
      * apply (distinct_edges_add_edge (remove_edge g e)).
        by apply distinct_edges_remove_edge.
      * done.
      * intros e' He'. unfold g1. cbn [edges]. apply elem_of_app. left. by apply Hrest.
      * exists g'. split; [done|]. rewrite Hedges. unfold g1. cbn [edges].
        rewrite filter_app, list_filter_filter, filter_cons, filter_nil.
        rewrite decide_True.
        2:{ cbn [eid]. intros (e' & Heq & He')%list_elem_of_fmap.
            apply (fresh_eid_not_in (remove_edge g e)). rewrite Heq.
            apply list_elem_of_fmap_2. by apply Hrest. }
        rewrite <- app_assoc, !fmap_app. simpl. f_equal. f_equal.
        apply list_filter_iff. intros y. rewrite not_elem_of_cons. tauto.
    + apply IH.
      * apply (distinct_edges_add_edge (remove_edge g e)).
        by apply distinct_edges_remove_edge.
      * done.
      * intros e' He'. unfold g1. cbn [edges]. apply elem_of_app. left. by apply Hrest.
Qed.

Lemma mapM_migrated_src todo news :
  mapM migrated_own todo = Ok news → Forall (λ n, src n = ni) news.
Proof.
  revert news. induction todo as [|e todo IH]; simpl; intros news Hm.
  - injection Hm as <-. constructor.
  - inv_bind Hm. injection Hm as <-. constructor; [|by apply IH].
    unfold migrated in Hx. inv_bind Hx. by injection Hx as <-.
Qed.

End backward_scope_free.

(** X11. The backward rule on a state without scope nodes, edge by edge.
    For a rule instance naming two different data nodes of a state with
    distinct edge objects, with the regions of the copy extracted, [apply]
    fails if and only if the memlet of some outbound edge of the destination
    node cannot be migrated, with the exception of the first such edge.
    Otherwise the new state holds the edges that did not touch the
    destination node, as they were, followed by the outbound edges of the
    destination node, each leaving the producer node with its memlet
    migrated: renamed and its region translated if it named the destination
    container, its other region translated if it names another container
    and has one, unchanged otherwise. *)
Theorem backward_apply_edges self config sdfg removed graph ni d_in no d_out
    inp_subset out_subset :
  states sdfg !! state_id self = Some graph →
  nodes graph !! subgraph self _in_array = Some (AccessNode ni d_in) →
  nodes graph !! subgraph self _out_array = Some (AccessNode no d_out) →
  ni ≠ no →
  distinct_edges graph →
  RedundantSecondArray.extract_subsets graph (AccessNode ni d_in) (AccessNode no d_out)
    = Ok (inp_subset, out_subset) →
  match mapM (migrated ni d_in d_out inp_subset out_subset)
             (out_edges graph (AccessNode no d_out)) with
  | Ok news =>
      ∃ sdfg' removed' graph',
        RedundantSecondArray.apply (H:=scope_free) self config sdfg removed
          = Ok (sdfg', removed') ∧
        states sdfg' !! state_id self = Some graph' ∧
        contents <$> edges graph'
        = contents <$> (filter (λ e, src e ≠ no ∧ dst e ≠ no) (edges graph) ++
                        filter (λ e, dst e ≠ no) news)
  | Raise x =>
      RedundantSecondArray.apply (H:=scope_free) self config sdfg removed = Raise x
  end.
Proof.
  intros Hgraph Hin Hout Hne Hnd Hext.
  pose proof (out_edges_loop_scope_free ni d_in no d_out inp_subset out_subset
                (out_edges graph (AccessNode no d_out)) graph Hnd) as Hloop.
  unfold RedundantSecondArray.apply.
  apply getitem_Ok in Hgraph as Hg, Hin as Hi, Hout as Ho.
  rewrite Hg. cbn [mbind result_bind]. rewrite Hi, Ho. cbn [mbind result_bind].
  rewrite Hext. cbn [mbind result_bind].
  destruct (mapM _ (out_edges graph (AccessNode no d_out))) as [news|x] eqn:Hnews.
  - destruct Hloop as (g' & -> & Hedges).
    { by apply NoDup_eid_filter. }
    { by intros e [_ He]%list_elem_of_filter. }
    eexists _, _, _. split; [reflexivity|]. split.
    + simpl. apply list_lookup_insert_eq. by eapply lookup_lt_Some.
    + unfold remove_node. cbn [edges nid].
      erewrite (filter_agree contents _ (λ e, src e ≠ no ∧ dst e ≠ no)); [| |exact Hedges].
      * rewrite filter_app, !fmap_app. f_equal.
        -- f_equal. rewrite list_filter_filter. apply filter_ext_in. intros e He.
           split; [tauto|]. intros [Hs Hd]. split; [done|].
           intros (e' & Heq & [Hs' He']%list_elem_of_filter)%list_elem_of_fmap.
           pose proof (find_edge_distinct _ _ Hnd He) as Hf.
           pose proof (find_edge_distinct _ _ Hnd He') as Hf'.
           rewrite Heq, Hf' in Hf. injection Hf as ->. done.
        -- f_equal. apply filter_ext_in. intros e He.
           apply mapM_migrated_src in Hnews.
           rewrite (proj1 (Forall_forall _ _) Hnews e He). tauto.
      * intros x y Hxy. unfold contents in Hxy.
        assert (src x = src y ∧ dst x = dst y) as [-> ->] by (split; congruence). done.
  - rewrite Hloop; [done|by apply NoDup_eid_filter|].
    by intros e [_ He]%list_elem_of_filter.
Qed.

Lemma backward_apply_edges_witness :
  match mapM (migrated 0 "A" "C" (Range [slice 1 5; slice 1 5]) (Range [slice 2 6; slice 2 6]))
             (out_edges out_3_state (AccessNode 1 "C")) with
  | Ok news =>
      ∃ sdfg' removed' graph',
        RedundantSecondArray.apply (H:=scope_free) (matched 0 1) (debug false) out_3
          no_removals = Ok (sdfg', removed') ∧
        states sdfg' !! 0%nat = Some graph' ∧
        contents <$> edges graph'
        = contents <$> (filter (λ e, src e ≠ 1%nat ∧ dst e ≠ 1%nat) (edges out_3_state) ++
                        filter (λ e, dst e ≠ 1%nat) news)
  | Raise x =>
      RedundantSecondArray.apply (H:=scope_free) (matched 0 1) (debug false) out_3
        no_removals = Raise x
  end.
Proof.
  refine (backward_apply_edges (matched 0 1) (debug false) out_3 no_removals out_3_state
            0 "A" 1 "C" (Range [slice 1 5; slice 1 5]) (Range [slice 2 6; slice 2 6])
            _ _ _ _ _ _); try reflexivity; [lia|].
  apply (bool_decide_unpack _). vm_compute. reflexivity.
Defined.

(** ** The coverage check guards the migration *)

Lemma offset_dims s other negative s' :
  offset s other negative = Ok s' → dims s = dims other ∧ dims s' = dims s.
Proof.
  unfold offset. case_bool_decide as Hd; [|done]. intros [= <-]. split; [done|].
  pose proof (dims_min_element other) as Ho.
  destruct s as [r|i]; simpl in *; rewrite length_zip_with, length_fmap; lia.
Qed.

Lemma migrate_subset_Ok inp_subset out_subset s :
  dims inp_subset = dims out_subset → dims s = dims out_subset →
  ∃ s', RedundantSecondArray.migrate_subset inp_subset out_subset s = Ok s'.
Proof.
  intros Hio Hs. unfold RedundantSecondArray.migrate_subset.
  destruct (offset s out_subset true) as [s1|] eqn:Hoff.
  2:{ unfold offset in Hoff. by rewrite bool_decide_eq_true_2 in Hoff. }
  apply offset_dims in Hoff as [_ Hs1]. simpl.
  destruct (isinstance_Indices inp_subset).
  - unfold offset. rewrite bool_decide_eq_true_2 by congruence. by eexists.
  - unfold compose. rewrite bool_decide_eq_true_2 by congruence. by eexists.
Qed.

Lemma covers_dims a b c : covers a b = Ok c → dims a = dims b.
Proof. unfold covers. by case_bool_decide. Qed.

Lemma mapM_Ok {A B} (f : A → result B) (l : list A) :
  (∀ x, x ∈ l → ∃ y, f x = Ok y) → ∃ k, mapM f l = Ok k.
Proof.
  induction l as [|x l IH]; intros Hall; [by eexists|].
  destruct (Hall x) as [y Hy]; [by left|].
  destruct IH as [k Hk]; [intros z Hz; apply Hall; by right|].
  exists (y :: k). cbn [mapM]. rewrite Hy. cbn [mbind result_bind]. rewrite Hk. done.
Qed.

(** X12. The coverage check is what makes the migration succeed.  In a
    state without scope nodes, for a rule instance naming two different data
    nodes of a state with distinct edge objects, whose copy has regions of
    the same rank on both sides: if step 3 of the check passes, that is, every
    outbound edge of the destination node has a region that the region
    written by the copy covers, then [apply] of the backward rule returns. *)
Theorem coverage_check_guards_apply self config sdfg removed graph ni d_in no d_out
    inp_subset out_subset :
  states sdfg !! state_id self = Some graph →
  nodes graph !! subgraph self _in_array = Some (AccessNode ni d_in) →
  nodes graph !! subgraph self _out_array = Some (AccessNode no d_out) →
  ni ≠ no →
  distinct_edges graph →
  RedundantSecondArray.extract_subsets graph (AccessNode ni d_in) (AccessNode no d_out)
    = Ok (inp_subset, out_subset) →
  dims inp_subset = dims out_subset →
  RedundantSecondArray.check_out_edges (AccessNode no d_out) out_subset
    (out_edges graph (AccessNode no d_out)) = Ok true →
  ∃ sdfg' removed',
    RedundantSecondArray.apply (H:=scope_free) self config sdfg removed
      = Ok (sdfg', removed').
Proof.
  intros Hgraph Hin Hout Hne Hnd Hext Hdims Hcheck.
  destruct (mapM_Ok (migrated ni d_in d_out inp_subset out_subset)
              (out_edges graph (AccessNode no d_out))) as [news Hnews].
  { intros e He.
    destruct (proj1 (check_out_edges_Ok_true _ _ _) Hcheck e He) as (s & Hs & Hcov).
    apply covers_dims in Hcov.
    destruct (migrate_subset_Ok inp_subset out_subset s) as [s' Hs']; [done..|].
    unfold migrated, migrate_memlet.
    unfold RedundantSecondArray.out_edge_subset in Hs. simpl in Hs.
    case_bool_decide.
    - injection Hs as ->. simpl. rewrite Hs'. by eexists.
    - destruct (other_subset (edata e)) as [o|]; [|done].
      injection Hs as ->. simpl. rewrite Hs'. by eexists. }
  pose proof (out_edges_loop_scope_free ni d_in no d_out inp_subset out_subset
                (out_edges graph (AccessNode no d_out)) graph Hnd) as Hloop.
  rewrite Hnews in Hloop. destruct Hloop as (g' & Hfold & _).
  { by apply NoDup_eid_filter. }
  { by intros e [_ He]%list_elem_of_filter. }
  unfold RedundantSecondArray.apply.
  apply getitem_Ok in Hgraph, Hin, Hout.
  rewrite Hgraph. cbn [mbind result_bind]. rewrite Hin, Hout. cbn [mbind result_bind].
  rewrite Hext. cbn [mbind result_bind]. rewrite Hfold. by eexists _, _.
Qed.

Lemma coverage_check_guards_apply_witness :
  ∃ sdfg' removed',
    RedundantSecondArray.apply (H:=scope_free) (matched 0 1) (debug false) out_3 no_removals
      = Ok (sdfg', removed').
Proof.
  refine (coverage_check_guards_apply (matched 0 1) (debug false) out_3 no_removals
            out_3_state 0 "A" 1 "C"
            (Range [slice 1 5; slice 1 5]) (Range [slice 2 6; slice 2 6])
            _ _ _ _ _ _ _ _); try reflexivity; [lia|].
  apply (bool_decide_unpack _). vm_compute. reflexivity.
Defined.

(** ** A covered region migrates into the region that was copied *)

Lemma dims_max_element s : length (max_element s) = dims s.
Proof. destruct s; simpl; by rewrite ?length_fmap. Qed.

Lemma sub_as_add (c p : list Z) :
  zip_with Z.add ((λ o, - o) <$> c) p = zip_with Z.sub p c.
Proof. revert p. induction c as [|x c IH]; intros [|y p]; simpl; f_equal; auto; lia. Qed.

Lemma add_comm_id (q a : list Z) :
  zip_with Z.add ((λ o, o) <$> q) a = zip_with Z.add a q.
Proof. revert a. induction q as [|x q IH]; intros [|y a]; simpl; f_equal; auto; lia. Qed.

Lemma within_translated (a A c C p : list Z) :
  length A = length a → length c = length a → length C = length a → length p = length a →
  zip_with Z.sub A a = zip_with Z.sub C c →
  forallb (λ '((lo, hi), x), within lo hi x) (zip (zip c C) p) = true →
  forallb (λ '((lo, hi), x), within lo hi x)
          (zip (zip a A) (zip_with Z.add a (zip_with Z.sub p c))) = true.
Proof.
  revert A c C p.
  induction a as [|x a IH]; intros [|X A] [|y c] [|Y C] [|z p]; simpl; try done.
  intros [= HA] [= Hc] [= HC] [= Hp] [= Hx Hext].
  rewrite !andb_true_iff. unfold within at 1 3. rewrite !andb_true_iff, !bool_decide_eq_true.
  intros [[? ?] Hrest]. split; [lia|]. by apply (IH A c C).
Qed.

Lemma within_point (a c C p q : list Z) :
  length c = length a → length C = length a → length p = length a → length q = length a →
  zip_with Z.sub a a = zip_with Z.sub C c →
  forallb (λ '((lo, hi), x), within lo hi x) (zip (zip c C) p) = true →
  forallb (λ '((lo, hi), x), within lo hi x) (zip (zip c C) q) = true →
  zip_with Z.sub p c = zip_with Z.sub q c.
Proof.
  revert c C p q.
  induction a as [|x a IH]; intros [|y c] [|Y C] [|z p] [|w q]; simpl; try done.
  intros [= Hc] [= HC] [= Hp] [= Hq] [= Hx Hext].
  rewrite !andb_true_iff. unfold within at 1 3. rewrite !andb_true_iff, !bool_decide_eq_true.
  intros [[? ?] Hp'] [[? ?] Hq']. f_equal; [lia|]. by apply (IH c C).
Qed.

(** X13. The arithmetic of the migration keeps a covered region inside the
    region that was copied.  Let the copy read [inp_subset] and write
    [out_subset], two regions of the same rank and the same extent in every
    dimension.  If [out_subset] covers the region [s] of an edge, then the
    migration of [s] succeeds, the migrated region is [s] translated by the
    distance from the lower corner of [out_subset] to the lower corner of
    [inp_subset], and [inp_subset] covers it. *)
Theorem migrate_subset_covered (inp_subset out_subset s : Subset) :
  dims inp_subset = dims out_subset →
  zip_with Z.sub (max_element inp_subset) (min_element inp_subset)
    = zip_with Z.sub (max_element out_subset) (min_element out_subset) →
  covers out_subset s = Ok true →
  ∃ s',
    RedundantSecondArray.migrate_subset inp_subset out_subset s = Ok s' ∧
    min_element s'
    = zip_with Z.add (min_element inp_subset)
        (zip_with Z.sub (min_element s) (min_element out_subset)) ∧
    max_element s'
    = zip_with Z.add (min_element inp_subset)
        (zip_with Z.sub (max_element s) (min_element out_subset)) ∧
    covers inp_subset s' = Ok true.
Proof.
  intros Hdims Hext Hcov.
  pose proof (covers_dims _ _ _ Hcov) as Hds.
  unfold covers in Hcov. rewrite bool_decide_eq_true_2 in Hcov by done.
  injection Hcov as Hcov. apply andb_true_iff in Hcov as [Hlo Hhi].
  pose proof (dims_min_element inp_subset) as Ha.
  pose proof (dims_max_element inp_subset) as HA.
  pose proof (dims_min_element out_subset) as Hc.
  pose proof (dims_max_element out_subset) as HC.
  pose proof (dims_min_element s) as Hp.
  pose proof (dims_max_element s) as HP.
  destruct (migrate_subset_Ok inp_subset out_subset s) as [s' Hs']; [done..|].
  exists s'. split; [done|].
  unfold RedundantSecondArray.migrate_subset in Hs'.
  destruct (offset s out_subset true) as [s1|] eqn:Hoff; [|done].
  apply offset_bounds in Hoff as [Hmin1 Hmax1]. rewrite sub_as_add in Hmin1, Hmax1.
  simpl in Hs'.
  assert (min_element s'
          = zip_with Z.add (min_element inp_subset)
              (zip_with Z.sub (min_element s) (min_element out_subset)) ∧
          max_element s'
          = zip_with Z.add (min_element inp_subset)
              (zip_with Z.sub (max_element s) (min_element out_subset))) as [Hmin' Hmax'].
  { destruct (isinstance_Indices inp_subset) eqn:Hpoint.
    - apply offset_bounds in Hs' as [Hmin' Hmax'].
      destruct inp_subset as [r|pt]; [done|]. simpl in *.
      rewrite add_comm_id, Hmin1 in Hmin', Hmax'. split; [done|].
      rewrite Hmax'. f_equal.
      eapply (within_point pt); [..|exact Hext|exact Hlo|exact Hhi]; lia.
    - apply compose_bounds in Hs' as [Hmin' Hmax']. by rewrite Hmin1 in Hmin'; rewrite Hmax1 in Hmax'. }
  split; [done|]. split; [done|].
  unfold covers. rewrite bool_decide_eq_true_2.
  2:{ rewrite <- (dims_min_element s'), Hmin', !length_zip_with. lia. }
  f_equal. rewrite Hmin', Hmax'. apply andb_true_iff. split.
  - apply within_translated with (C := max_element out_subset); try done; lia.
  - apply within_translated with (C := max_element out_subset); try done; lia.
Qed.

Lemma migrate_subset_covered_witness :
  ∃ s',
    RedundantSecondArray.migrate_subset
      (Range [slice 1 5; slice 1 5]) (Range [slice 2 6; slice 2 6])
      (Range [slice 3 6; slice 2 5]) = Ok s' ∧
    min_element s'
    = zip_with Z.add (min_element (Range [slice 1 5; slice 1 5]))
        (zip_with Z.sub (min_element (Range [slice 3 6; slice 2 5]))
                        (min_element (Range [slice 2 6; slice 2 6]))) ∧
    max_element s'
    = zip_with Z.add (min_element (Range [slice 1 5; slice 1 5]))
        (zip_with Z.sub (max_element (Range [slice 3 6; slice 2 5]))
                        (min_element (Range [slice 2 6; slice 2 6]))) ∧
    covers (Range [slice 1 5; slice 1 5]) s' = Ok true.
Proof.
  refine (migrate_subset_covered (Range [slice 1 5; slice 1 5]) (Range [slice 2 6; slice 2 6])
            (Range [slice 3 6; slice 2 5]) _ _ _); reflexivity.
Defined.

(** ** An outbound edge is migrated once, whatever its memlet tree *)

Section backward_general.
Context `{GraphPaths} `{!TreeLaws}.
Context (ni : nat) (d_in : string) (no : nat) (d_out : string).
Context (inp_subset out_subset : Subset).

(** The iteration of an outgoing edge: its memlet is migrated, and it is
    re-created at the producer. *)
Lemma step_own_memlet g e g' :
  RedundantSecondArray.redirect_out_edge (AccessNode ni d_in) (AccessNode no d_out)
    inp_subset out_subset g e = Ok g' →
  find_edge g (eid e) = Some e →
  ∃ m i,
    migrate_memlet d_in d_out inp_subset out_subset (edata e) = Ok m ∧
    find_edge g' i
    = Some {| eid := i; src := ni; src_conn := src_conn e;
              dst := dst e; dst_conn := dst_conn e; edata := m |} ∧
    ∀ j, j ∈ eid <$> edges g → j ≠ eid e → j ≠ i.
Proof.
  intros (g2 & Hfold & ->)%redirect_out_edge_Ok He.
  destruct (tree_root g e) as (rest & Htree & Hrest). rewrite Htree in Hfold.
  simpl in Hfold. apply bind_Ok in Hfold as (g1 & Hg1 & Hfold).
  apply migrate_tree_other in Hfold as (_ & Hids & Hf).
  assert (∃ m, migrate_memlet d_in d_out inp_subset out_subset (edata e) = Ok m ∧
               find_edge g1 (eid e) = Some (set_edata m e) ∧
               eid <$> edges g1 = eid <$> edges g) as (m & Hm & He1 & Hids1).
  { unfold RedundantSecondArray.migrate_edge in Hg1. rewrite He in Hg1. simpl in Hg1.
    unfold migrate_memlet. case_bool_decide.
    - inv_bind Hg1. injection Hg1 as <-.
      destruct (subset (edata e)) as [s0|]; [|done]. injection Hx as ->.
      cbn [attr mbind result_bind]. rewrite Hx0. cbn [mbind result_bind].
      eexists. split; [done|]. split.
      + rewrite find_edge_update_memlet, bool_decide_eq_true_2, He by done. done.
      + apply eids_update_memlet.
    - destruct (other_subset (edata e)) as [s|].
      + inv_bind Hg1. injection Hg1 as <-. rewrite Hx. cbn [mbind result_bind].
        eexists. split; [done|]. split.
        * rewrite find_edge_update_memlet, bool_decide_eq_true_2, He by done. done.
        * apply eids_update_memlet.
      + injection Hg1 as <-. exists (edata e). split; [done|]. split; [|done].
        rewrite He. by destruct e. }
  exists m, (fresh_eid (remove_edge g2 e)). split; [done|]. split.
  - rewrite find_edge_add_edge, find_edge_fresh, bool_decide_eq_true_2 by done.
    unfold current_memlet. rewrite Hf, He1 by done. done.
  - intros j Hj Hje Heq.
    apply (fresh_eid_not_in (remove_edge g2 e)). rewrite <- Heq.
    apply eids_remove_edge; [|done]. by rewrite Hids, Hids1.
Qed.

End backward_general.

(** X14. The backward rule migrates the memlet of every outbound edge of the
    destination node exactly once, whatever lies in the memlet trees.  For a
    rule instance naming two different data nodes of a state with distinct
    edge objects, when [apply] succeeds, every edge that left the destination
    node for another node is re-created at the producer node with the same
    connectors and target, and its memlet is the migration of the memlet it
    had: the iterations of the other outbound edges leave it alone. *)
Theorem outbound_edge_migrated_once `{GraphPaths} {laws : TreeLaws}
    self config sdfg removed sdfg' removed' graph ni d_in no d_out
    inp_subset out_subset k e :
  states sdfg !! state_id self = Some graph →
  nodes graph !! subgraph self _in_array = Some (AccessNode ni d_in) →
  nodes graph !! subgraph self _out_array = Some (AccessNode no d_out) →
  ni ≠ no →
  distinct_edges graph →
  RedundantSecondArray.extract_subsets graph (AccessNode ni d_in) (AccessNode no d_out)
    = Ok (inp_subset, out_subset) →
  edges graph !! k = Some e →
  src e = no →
  dst e ≠ no →
  RedundantSecondArray.apply self config sdfg removed = Ok (sdfg', removed') →
  ∃ graph' i m,
    states sdfg' !! state_id self = Some graph' ∧
    migrate_memlet d_in d_out inp_subset out_subset (edata e) = Ok m ∧
    {| eid := i; src := ni; src_conn := src_conn e; dst := dst e; dst_conn := dst_conn e;
       edata := m |} ∈ edges graph'.
Proof.
  intros Hgraph Hin Hout Hne Hnd Hext Hk Hsrc Hdst Happly.
  apply list_elem_of_lookup_2 in Hk.
  apply RedundantSecondArray_apply_Ok in Happly
    as (g & i & o & inp & outs & g3 & Hg & Hi & Ho & Hext' & Hfold & -> & _).
  rewrite Hgraph in Hg. injection Hg as <-.
  rewrite Hin in Hi. injection Hi as <-.
  rewrite Hout in Ho. injection Ho as <-.
  rewrite Hext in Hext'. injection Hext' as <- <-.
  (* the outgoing edges before and after [e] *)
  assert (e ∈ out_edges graph (AccessNode no d_out)) as Hout_e
    by by apply list_elem_of_filter.
  apply list_elem_of_split in Hout_e as (pre & post & Hsplit).
  assert (NoDup (eid <$> pre ++ e :: post)) as Hids.
  { rewrite <- Hsplit. by apply NoDup_eid_filter. }
  rewrite fmap_app, fmap_cons in Hids.
  apply NoDup_app in Hids as (_ & Hpre & [Hpost _]%NoDup_cons).
  assert (∀ y, y ∈ pre ++ e :: post → eid y ∈ eid <$> edges graph) as Hpresent.
  { intros y Hy. rewrite <- Hsplit in Hy. apply list_elem_of_filter in Hy as [_ Hy].
    by apply list_elem_of_fmap_2. }
  rewrite Hsplit, foldM_app in Hfold. simpl in Hfold.
  apply bind_Ok in Hfold as (g1 & Hg1 & Hfold).
  apply bind_Ok in Hfold as (g2 & Hg2 & Hfold).
  assert (data_node graph no) as Hdata_out.
  { exists (AccessNode no d_out). split; [by eapply list_elem_of_lookup_2|done]. }
  assert (data_node graph ni) as Hdata_in.
  { exists (AccessNode ni d_in). split; [by eapply list_elem_of_lookup_2|done]. }
  (* [e] is as it was when its turn comes *)
  assert (find_edge g1 (eid e) = Some e) as He1.
  { eapply loop_keeps; [exact Hg1|by apply find_edge_distinct|by rewrite Hsrc|].
    intros y Hy Heq. apply (Hpre (eid y)); [by apply list_elem_of_fmap_2|].
    rewrite Heq. by left. }
  pose proof (loop_nodes _ _ _ _ _ _ _ Hg1) as Hn1.
  (* its own iteration *)
  destruct (step_own_memlet ni d_in no d_out inp_subset out_subset g1 e g2 Hg2 He1)
    as (m & i & Hm & Hi & Hfresh).
  pose proof (redirect_out_edge_nodes _ _ _ _ _ _ _ Hg2) as Hn2.
  (* the new edge survives the rest of the loop and the removal of the node *)
  assert (find_edge g3 i = Some
            {| eid := i; src := ni; src_conn := src_conn e; dst := dst e;
               dst_conn := dst_conn e; edata := m |}) as Hi3.
  { eapply loop_keeps; [exact Hfold|exact Hi| |].
    - simpl. eapply data_node_nodes; [|exact Hdata_in]. congruence.
    - intros y Hy Heq. apply (Hfresh (eid y)); [| |done].
      + eapply loop_ids; [exact Hg1| |].
        * apply Hpresent. apply elem_of_app. right. by right.
        * intros y' Hy' Heq'. apply (Hpre (eid y')); [by apply list_elem_of_fmap_2|].
          rewrite Heq'. right. by apply list_elem_of_fmap_2.
      + intros Heq'. apply Hpost. rewrite <- Heq'. by apply list_elem_of_fmap_2. }
  apply find_edge_Some in Hi3 as [Hi3 _].
  exists (remove_node g3 (AccessNode no d_out)), i, m.
  split; [|split; [done|]].
  - simpl. apply list_lookup_insert_eq. by eapply lookup_lt_Some.
  - simpl. apply list_elem_of_filter. simpl. done.
Qed.

Lemma outbound_edge_migrated_once_witness :
  ∃ graph' i m,
    states out_3_backward !! 0%nat = Some graph' ∧
    migrate_memlet "A" "C" (Range [slice 1 5; slice 1 5]) (Range [slice 2 6; slice 2 6])
      (simple "C" [slice 3 6; slice 2 5] None) = Ok m ∧
    {| eid := i; src := 0; src_conn := None; dst := 2; dst_conn := Some "_inp";
       edata := m |} ∈ edges graph'.
Proof.
  refine (outbound_edge_migrated_once (H:=scope_free) (laws:=scope_free_laws)
            (matched 0 1) (debug false) out_3 no_removals out_3_backward no_removals
            out_3_state 0 "A" 1 "C"
            (Range [slice 1 5; slice 1 5]) (Range [slice 2 6; slice 2 6]) 1
            (edge 1 1 None 2 (Some "_inp") (simple "C" [slice 3 6; slice 2 5] None))
            _ _ _ _ _ _ _ _ _ _); try reflexivity; try discriminate.
  apply (bool_decide_unpack _). vm_compute. reflexivity.
Defined.

(** ** A memlet that gives one region *)




(** ** The forward check on a well-formed program *)

Lemma forallb_elem_of {A} (f : A → bool) (l : list A) (x : A) :
  forallb f l = true → x ∈ l → f x = true.
Proof.
  induction l as [|y l IH]; simpl; intros Hall Hx; [by apply elem_of_nil in Hx|].
  apply andb_true_iff in Hall as [Hy Hl].
  apply elem_of_cons in Hx as [->|Hx]; [done|by apply IH].
Qed.

Lemma registered_desc sdfg sid graph n :
  registered sdfg = true → states sdfg !! sid = Some graph → n ∈ nodes graph →
  isinstance_AccessNode n = true → ∃ d, desc n sdfg = Ok d.
Proof.
  unfold registered. intros Hreg Hgraph Hn Hdata.
  apply list_elem_of_lookup_2 in Hgraph.
  pose proof (forallb_elem_of _ _ _ (forallb_elem_of _ _ _ Hreg Hgraph) Hn) as Hd.
  destruct n as [i name|i]; [|done].
  apply bool_decide_eq_true in Hd as [d Hd].
  exists d. unfold desc. simpl. by rewrite Hd.
Qed.

(** X16. On a well-formed program the forward check returns a boolean.  When
    every data node of the program names a registered container, every
    memlet of the state has a region, and the candidate names two data nodes
    of the state that are joined by an edge, [can_be_applied] of the forward
    rule raises no exception, strict or not. *)
Theorem forward_check_returns graph candidate expr_index sdfg strict sid
    in_array out_array k e :
  registered sdfg = true →
  states sdfg !! sid = Some graph →
  nodes graph !! candidate _in_array = Some in_array →
  nodes graph !! candidate _out_array = Some out_array →
  isinstance_AccessNode in_array = true →
  isinstance_AccessNode out_array = true →
  edges graph !! k = Some e →
  src e = nid in_array →
  dst e = nid out_array →
  (∀ e', e' ∈ edges graph → is_Some (subset (edata e'))) →
  ∃ b, RedundantArray.can_be_applied graph candidate expr_index sdfg strict = Ok b.
Proof.
  intros Hreg Hgraph Hin Hout Hdin Hdout Hk Hsrc Hdst Hregions.
  destruct (registered_desc sdfg sid graph in_array) as [in_desc Hid]; [done..| |done|].
  { by eapply list_elem_of_lookup_2. }
  destruct (registered_desc sdfg sid graph out_array) as [out_desc Hod]; [done..| |done|].
  { by eapply list_elem_of_lookup_2. }
  apply getitem_Ok in Hin, Hout.
  unfold RedundantArray.can_be_applied.
  rewrite Hin, Hout. cbn [mbind result_bind]. rewrite Hid, Hod. cbn [mbind result_bind].
  rewrite (find_occurrences_registered _ _ Hreg). cbn [mbind result_bind].
  case_bool_decide; [by eexists|].
  destruct (negb (transient in_desc)); [by eexists|].
  case_bool_decide; [by eexists|].
  case_bool_decide; [by eexists|].
  case_bool_decide; [by eexists|].
  destruct (_ || _); [by eexists|].
  destruct strict; [|by eexists].
  destruct (edges_between_first graph in_array out_array k e Hk Hsrc Hdst) as [e0 He0].
  apply getitem_Ok in He0 as Hget. rewrite Hget. cbn [mbind result_bind].
  destruct (Hregions e0) as [s Hs].
  { apply list_elem_of_lookup_2 in He0. by apply list_elem_of_filter in He0 as [_ ?]. }
  rewrite Hs. cbn [attr mbind result_bind].
  destruct (existsb _ _); by eexists.
Qed.

Lemma forward_check_returns_witness :
  ∃ b, RedundantArray.can_be_applied partial_chain_state (bind_roles 1 2) 0 partial_chain true
       = Ok b.
Proof.
  refine (forward_check_returns partial_chain_state (bind_roles 1 2) 0 partial_chain true 0
            (AccessNode 1 "B") (AccessNode 2 "C") 1
            (edge 1 1 None 2 None (simple "B" [slice 0 2; slice 0 3] None))
            _ _ _ _ _ _ _ _ _ _); try reflexivity.
  apply (proj1 (Forall_forall _ _)). repeat constructor; by eexists.
Defined.
